(** * Maze game (src/script.js): maze generation, ball physics, session loop

    A shallow embedding of the classes [Maze], [Ball] and [Game] of
    src/script.js, followed by the properties proved about them.

    Modelling conventions.
    - Integers of the source (grid coordinates, dimensions) are [Z].
    - The grid is a JavaScript array of arrays that the source only ever
      indexes ([this.grid[r][c]]); it never takes its length or iterates it.
      An array is therefore modelled by its index-to-value map
      ([gmap Z _]): an absent key reads as [undefined] ([None]), and
      indexing an [undefined] row throws ([TypeError]).
    - Numbers of the physics (positions, velocities, sizes) are real numbers
      ([R]): arithmetic is exact, rounding of IEEE doubles is not modelled.
      The one place where rounding decides what the program does, the
      comparison of [resolveCollision] at contact, is also embedded on
      binary64 numbers ([Doubles]).
    - [Math.random] and [Date.now] are oracles passed as arguments.
    - Exceptions are the [TypeError] outcome of the [result] type.  A loop
      that does not end is the [OutOfFuel] outcome: the [while] loop of
      [generate] is run with a fuel that is proved sufficient (it always
      ends); the [for] loops of [checkCollision] do not end when the cell
      size is 0 and their bounds are infinite. *)

From Stdlib Require Import ZArith Lia Reals Lra Psatz.
From Stdlib Require Floats.
From stdpp Require Import base option list gmap strings.

Open Scope Z_scope.

(** ** Outcomes of a computation *)

Inductive result (A : Type) : Type :=
| Ok (a : A)
| TypeError
| OutOfFuel.
Arguments Ok {A} a.
Arguments TypeError {A}.
Arguments OutOfFuel {A}.

#[global] Instance result_ret : MRet result := fun A a => Ok a.
#[global] Instance result_bind : MBind result := fun A B f m =>
  match m with
  | Ok a => f a
  | TypeError => TypeError
  | OutOfFuel => OutOfFuel
  end.

(** [Array.prototype.filter] with a callback that may throw. *)
Fixpoint filterM {A : Type} (p : A -> result bool) (l : list A) : result (list A) :=
  match l with
  | [] => Ok []
  | a :: l' =>
      b ← p a;
      rest ← filterM p l';
      Ok (if b : bool then a :: rest else rest)
  end.

(** A monadic left fold: a [for] loop whose body may throw. *)
Fixpoint foldM {A S : Type} (f : S -> A -> result S) (s : S) (l : list A) : result S :=
  match l with
  | [] => Ok s
  | a :: l' => s' ← f s a; foldM f s' l'
  end.

(** Comparisons of numbers as decidable tests. *)
#[global] Instance Rlt_decision : RelDecision Rlt := Rlt_dec.
#[global] Instance Req_decision : EqDecision R := Req_dec_T.

(** ** const CFG *)

Module CFG.
#[local] Open Scope R_scope.
Definition cellSize : R := 40.
Definition ballRadiusRatio : R := 0.35.
Definition wallThickness : R := 2.
Definition friction : R := 0.96.
Definition acceleration : R := 0.5.
Definition tiltSensitivity : R := 0.05.
End CFG.

(** ** class Ball *)

Module Ball.
#[local] Open Scope R_scope.

Record t := mk { x : R; y : R; vx : R; vy : R; radius : R }.

(** [constructor(x, y, radius)], lines 212-218. *)
Definition new (x y radius : R) : t := mk x y 0 0 radius.

(** [update(ax, ay)], lines 220-232. *)
Definition update (ax ay : R) (this : t) : t :=
  let vx1 := vx this + ax in
  let vy1 := vy this + ay in
  let vx2 := vx1 * CFG.friction in
  let vy2 := vy1 * CFG.friction in
  mk (x this + vx2) (y this + vy2) vx2 vy2 (radius this).

End Ball.

(** ** class Maze *)

Module Maze.

(** [{ x, y }] objects ([start], [goal]) and [{ r, c }] objects (stack
    entries and directions). *)
Record Pos := mkPos { x : Z; y : Z }.
Record Cell := mkCell { r : Z; c : Z }.

Record t := mk {
  cols : Z;
  rows : Z;
  grid : gmap Z (gmap Z Z);
  start : Pos;
  goal : Pos
}.

(** Cell values of the source: 1 is a wall, 0 is a path. *)
Definition WALL : Z := 1.
Definition PATH : Z := 0.

Definition set_grid (this : t) (g : gmap Z (gmap Z Z)) : t :=
  mk (cols this) (rows this) g (start this) (goal this).
Definition set_goal (this : t) (p : Pos) : t :=
  mk (cols this) (rows this) (grid this) (start this) p.

(** [g[r][c]] as an expression: throws when [g[r]] is undefined. *)
Definition grid_get (g : gmap Z (gmap Z Z)) (r c : Z) : result (option Z) :=
  match g !! r with
  | None => TypeError
  | Some row => Ok (row !! c)
  end.

(** [g[r][c] = v]: throws when [g[r]] is undefined. *)
Definition grid_set (g : gmap Z (gmap Z Z)) (r c v : Z) : result (gmap Z (gmap Z Z)) :=
  match g !! r with
  | None => TypeError
  | Some row => Ok (<[r := <[c := v]> row]> g)
  end.

(** [x === v] for a value read from the grid. *)
Definition is_val (v : Z) (x : option Z) : bool := bool_decide (x = Some v).

(** The initialisation loops of [generate], lines 40-45:
    [this.grid[r] = []], then [this.grid[r][c] = 1] for each column. *)
Definition init_row (cols : Z) : gmap Z Z :=
  foldl (fun row c => <[c := WALL]> row) ∅ (seqZ 0 cols).
Definition init_grid (g : gmap Z (gmap Z Z)) (rows cols : Z) : gmap Z (gmap Z Z) :=
  foldl (fun g r => <[r := init_row cols]> g) g (seqZ 0 rows).

Definition directions : list Cell :=
  [ mkCell (-2) 0;   (* Up *)
    mkCell 2 0;      (* Down *)
    mkCell 0 (-2);   (* Left *)
    mkCell 0 2 ].    (* Right *)

(** The callback of [directions.filter], lines 66-74. *)
Definition valid (this : t) (current dir : Cell) : result bool :=
  let nextR := r current + r dir in
  let nextC := c current + c dir in
  if (0 <? nextR) && (nextR <? rows this - 1) &&
     (0 <? nextC) && (nextC <? cols this - 1)
  then v ← grid_get (grid this) nextR nextC; Ok (is_val WALL v)
  else Ok false.

(** The [while (stack.length > 0)] loop, lines 62-91.  The head of the
    list is the top of the stack ([stack[stack.length - 1]]).  [rnd k] is
    the sample behind the [k]-th call of [Math.random]: the index
    [Math.floor(Math.random() * n)] is [rnd k mod n], any index below [n]
    for a suitable sample. *)
Fixpoint carve (fuel : nat) (rnd : nat -> nat) (k : nat) (this : t)
    (stack : list Cell) : result t :=
  match stack with
  | [] => Ok this
  | current :: rest =>
      match fuel with
      | O => OutOfFuel
      | S fuel' =>
          validDirs ← filterM (valid this current) directions;
          match validDirs with
          | [] => carve fuel' rnd k this rest
          | d0 :: _ =>
              let dir := nth (rnd k mod length validDirs)%nat validDirs d0 in
              let nextR := r current + r dir in
              let nextC := c current + c dir in
              let wallR := r current + r dir / 2 in
              let wallC := c current + c dir / 2 in
              g1 ← grid_set (grid this) wallR wallC PATH;
              g2 ← grid_set g1 nextR nextC PATH;
              carve fuel' rnd (S k) (set_grid this g2) (mkCell nextR nextC :: stack)
          end
      end
  end.

(** Enough iterations for the loop: every iteration either turns a wall of
    the [rows] x [cols] area into a path or pops the stack. *)
Definition fuel_for (this : t) : nat :=
  (2 * (Z.to_nat (rows this) * Z.to_nat (cols this)) + 2)%nat.

(** The post-check of [generate], lines 95-99. *)
Definition relocate_goal (this : t) : result t :=
  let gx := x (goal this) in
  let gy := y (goal this) in
  v ← grid_get (grid this) gy gx;
  if is_val WALL v then
    v1 ← grid_get (grid this) gy (gx - 1);
    if is_val PATH v1 then Ok (set_goal this (mkPos (gx - 1) gy))
    else
      v2 ← grid_get (grid this) (gy - 1) gx;
      if is_val PATH v2 then Ok (set_goal this (mkPos gx (gy - 1)))
      else Ok this
  else Ok this.

(** [generate()], lines 38-100. *)
Definition generate (rnd : nat -> nat) (this : t) : result t :=
  let this := set_grid this (init_grid (grid this) (rows this) (cols this)) in
  let startR := 1 in
  let startC := 1 in
  g ← grid_set (grid this) startR startC PATH;
  this ← carve (fuel_for this) rnd 0 (set_grid this g) [mkCell startR startC];
  relocate_goal this.

(** [constructor(cols, rows)], lines 29-36. *)
Definition new (rnd : nat -> nat) (cols rows : Z) : result t :=
  generate rnd (mk cols rows ∅ (mkPos 1 1) (mkPos (cols - 2) (rows - 2))).

(** *** Collision: a circle against the cells of the grid *)

#[local] Open Scope R_scope.

(** The closest point of the square [rectX, rectX + rectSize] x
    [rectY, rectY + rectSize] to the centre of the ball, lines 166-167. *)
Definition closestX (ball : Ball.t) (rectX rectSize : R) : R :=
  Rmax rectX (Rmin (Ball.x ball) (rectX + rectSize)).
Definition closestY (ball : Ball.t) (rectY rectSize : R) : R :=
  Rmax rectY (Rmin (Ball.y ball) (rectY + rectSize)).

(** [distanceSq], lines 169-171, and its square root, line 174. *)
Definition distanceSq (ball : Ball.t) (rectX rectY rectSize : R) : R :=
  let dx := Ball.x ball - closestX ball rectX rectSize in
  let dy := Ball.y ball - closestY ball rectY rectSize in
  dx * dx + dy * dy.
Definition distance (ball : Ball.t) (rectX rectY rectSize : R) : R :=
  sqrt (distanceSq ball rectX rectY rectSize).

(** The contact normal [(nx, ny)], lines 178-179. *)
Definition normalX (ball : Ball.t) (rectX rectY rectSize : R) : R :=
  (Ball.x ball - closestX ball rectX rectSize) / distance ball rectX rectY rectSize.
Definition normalY (ball : Ball.t) (rectX rectY rectSize : R) : R :=
  (Ball.y ball - closestY ball rectY rectSize) / distance ball rectX rectY rectSize.

(** [resolveCollision(ball, rectX, rectY, rectSize)], lines 163-206.  The
    method receives the maze ([this]) and the ball, both mutable objects:
    the result is the state of both after the call. *)
Definition resolveCollision (this : t) (ball : Ball.t) (rectX rectY rectSize : R)
    : t * Ball.t :=
  let closestX := Rmax rectX (Rmin (Ball.x ball) (rectX + rectSize)) in
  let closestY := Rmax rectY (Rmin (Ball.y ball) (rectY + rectSize)) in
  let dx := Ball.x ball - closestX in
  let dy := Ball.y ball - closestY in
  let distanceSq := dx * dx + dy * dy in
  if bool_decide (distanceSq < Ball.radius ball * Ball.radius ball)
     && bool_decide (0 < distanceSq)
  then
    let distance := sqrt distanceSq in
    let overlap := Ball.radius ball - distance in
    let nx := dx / distance in
    let ny := dy / distance in
    let ball1 :=
      Ball.mk (Ball.x ball + nx * overlap) (Ball.y ball + ny * overlap)
              (Ball.vx ball) (Ball.vy ball) (Ball.radius ball) in
    let dot := Ball.vx ball1 * nx + Ball.vy ball1 * ny in
    if bool_decide (dot < 0)
    then (this,
          Ball.mk (Ball.x ball1) (Ball.y ball1)
                  (Ball.vx ball1 - (1 + 0.5) * dot * nx)
                  (Ball.vy ball1 - (1 + 0.5) * dot * ny)
                  (Ball.radius ball1))
    else (this, ball1)
  else (this, ball).

(** The test of line 156: the cell is outside the grid or is a wall. *)
Definition solid (this : t) (r c : Z) : result bool :=
  if ((r <? 0) || (rows this <=? r) || (c <? 0) || (cols this <=? c))%Z
  then Ok true
  else v ← grid_get (grid this) r c; Ok (is_val WALL v).

(** The body of the two [for] loops, lines 156-158. *)
Definition check_cell (cellSize : R) (r : Z) (s : t * Ball.t) (c : Z)
    : result (t * Ball.t) :=
  b ← solid (fst s) r c;
  if b : bool
  then Ok (resolveCollision (fst s) (snd s) (IZR c * cellSize) (IZR r * cellSize) cellSize)
  else Ok s.

(** The bounds of the two loops, lines 149-152, for a cell size other
    than 0. *)
Definition minC (ball : Ball.t) (cellSize : R) : Z :=
  Zfloor ((Ball.x ball - Ball.radius ball) / cellSize).
Definition maxC (ball : Ball.t) (cellSize : R) : Z :=
  Zfloor ((Ball.x ball + Ball.radius ball) / cellSize).
Definition minR (ball : Ball.t) (cellSize : R) : Z :=
  Zfloor ((Ball.y ball - Ball.radius ball) / cellSize).
Definition maxR (ball : Ball.t) (cellSize : R) : Z :=
  Zfloor ((Ball.y ball + Ball.radius ball) / cellSize).

(** The same bounds for the cell size 0 (the +0 that [resize] gives a window
    narrower than 15 pixels): [Math.floor(n / 0)] is Infinity, -Infinity or
    NaN, by the sign of [n]. *)
Inductive NonFinite := PosInfinity | NegInfinity | NaN.
Definition floor_div0 (n : R) : NonFinite :=
  if bool_decide (0 < n) then PosInfinity
  else if bool_decide (n < 0) then NegInfinity
  else NaN.

(** The test [lo <= hi] on such values: false when one of them is NaN. *)
Definition le_nonfinite (lo hi : NonFinite) : bool :=
  match lo, hi with
  | NaN, _ | _, NaN => false
  | NegInfinity, _ => true
  | PosInfinity, PosInfinity => true
  | PosInfinity, NegInfinity => false
  end.

(** [checkCollision(ball, cellSize)], lines 147-161.  The bounds are taken
    once, before the loops.  With the cell size 0 the row loop, once
    entered, never ends: [r++] leaves an infinite [r] as it is and the test
    [r <= maxR] stays true, while its body reads no cell ([r < 0] or
    [r >= this.rows] holds) and so does not throw; not entered, the method
    returns at once. *)
Definition checkCollision (this : t) (ball : Ball.t) (cellSize : R)
    : result (t * Ball.t) :=
  if bool_decide (cellSize = 0)
  then
    if le_nonfinite (floor_div0 (Ball.y ball - Ball.radius ball))
                    (floor_div0 (Ball.y ball + Ball.radius ball))
    then OutOfFuel
    else Ok (this, ball)
  else
    let minC := minC ball cellSize in
    let maxC := maxC ball cellSize in
    let minR := minR ball cellSize in
    let maxR := maxR ball cellSize in
    foldM (fun s r => foldM (check_cell cellSize r) s (seqZ minC (maxC - minC + 1)))
          (this, ball) (seqZ minR (maxR - minR + 1)).

End Maze.

(** ** class Game *)

Module Game.
#[local] Open Scope R_scope.

(** [this.state]: 'IDLE', 'PLAYING' or 'GAMEOVER' (line 262). *)
Inductive State := IDLE | PLAYING | GAMEOVER.

#[global] Instance State_eq_dec : EqDecision State.
Proof. solve_decision. Defined.

(** The fields of the game that the update cycle reads or writes.  [maze]
    and [ball] are undefined until the first [startGame].  [timer] and
    [finalTime] stand for the texts of [ui.timer] and [ui.finalTime]: the
    elapsed milliseconds, before formatting.  The canvas, the visibility of
    the screens and [animationId] are left out: the scheduler is modelled
    by applying [loop] once per frame. *)
Record Input := mkInput { ix : R; iy : R }.
Record t := mk {
  state : State;
  startTime : Z;
  input : Input;
  cellSize : R;
  cols : Z;
  rows : Z;
  maze : option Maze.t;
  ball : option Ball.t;
  timer : option Z;
  finalTime : option Z
}.

(** [endGame()], lines 400-408.  [now k] is the [k]-th reading of
    [Date.now()] in the running callback. *)
Definition endGame (now : nat -> Z) (this : t) : t :=
  let elapsed := (now 0%nat - startTime this)%Z in
  mk GAMEOVER (startTime this) (input this) (cellSize this) (cols this)
     (rows this) (maze this) (ball this) (timer this) (Some elapsed).

(** The distance of the goal check, lines 425-429. *)
Definition goalDist (cellSize : R) (maze : Maze.t) (ball : Ball.t) : R :=
  let gx := IZR (Maze.x (Maze.goal maze)) * cellSize + cellSize / 2 in
  let gy := IZR (Maze.y (Maze.goal maze)) * cellSize + cellSize / 2 in
  let dx := Ball.x ball - gx in
  let dy := Ball.y ball - gy in
  sqrt (dx * dx + dy * dy).

(** [update()], lines 410-434. *)
Definition update (now : nat -> Z) (this : t) : result t :=
  let elapsed := (now 0%nat - startTime this)%Z in
  match ball this, maze this with
  | Some ball0, Some maze0 =>
      let ax := ix (input this) * CFG.acceleration in
      let ay := iy (input this) * CFG.acceleration in
      let ball1 := Ball.update ax ay ball0 in
      s ← Maze.checkCollision maze0 ball1 (cellSize this);
      let this1 :=
        mk (state this) (startTime this) (input this) (cellSize this)
           (cols this) (rows this) (Some (fst s)) (Some (snd s))
           (Some elapsed) (finalTime this) in
      let dist := goalDist (cellSize this) (fst s) (snd s) in
      if bool_decide (dist < cellSize this * 0.5)
      then Ok (endGame (fun k => now (S k)) this1)
      else Ok this1
  | _, _ => TypeError
  end.

(** [loop()], lines 448-455: one run of the frame callback.  [draw()] only
    paints, and [requestAnimationFrame] asks for the next run. *)
Definition loop (now : nat -> Z) (this : t) : result t :=
  if bool_decide (state this <> PLAYING) then Ok this
  else update now this.

(** [startGame()], lines 379-398. *)
Definition startGame (rnd : nat -> nat) (now : nat -> Z) (this : t) : result t :=
  maze1 ← Maze.new rnd (cols this) (rows this);
  let startX := IZR (Maze.x (Maze.start maze1)) * cellSize this + cellSize this / 2 in
  let startY := IZR (Maze.y (Maze.start maze1)) * cellSize this + cellSize this / 2 in
  let radius := cellSize this * CFG.ballRadiusRatio in
  let ball1 := Ball.new startX startY radius in
  let this1 :=
    mk PLAYING (now 0%nat) (mkInput 0 0) (cellSize this) (cols this)
       (rows this) (Some maze1) (Some ball1) (timer this) (finalTime this) in
  loop (fun k => now (S k)) this1.

(** The frames that follow: one run of [loop] per scheduled callback,
    each with its own clock readings. *)
Definition frames (nows : list (nat -> Z)) (this : t) : result t :=
  foldM (fun g now => loop now g) this nows.

End Game.

(** ** class Maze: the wall query *)

Module MazeQueries.
#[local] Open Scope R_scope.

(** [isWall(x, y, cellSize)], lines 137-144: the cell under the point
    (x, y); outside the grid counts as a wall. *)
Definition isWall (this : Maze.t) (x y cellSize : R) : result bool :=
  let c := Zfloor (x / cellSize) in
  let r := Zfloor (y / cellSize) in
  if ((c <? 0) || (Maze.cols this <=? c) || (r <? 0) || (Maze.rows this <=? r))%Z
  then Ok true
  else v ← Maze.grid_get (Maze.grid this) r c; Ok (Maze.is_val Maze.WALL v).

End MazeQueries.

(** ** The contact test on IEEE doubles

    The numbers of JavaScript are binary64 floating-point numbers.  This
    module embeds [resolveCollision] on them, operation by operation, with
    the kernel's binary64 arithmetic, to see what the comparison of line 173
    does at contact, where the rounding of the squares decides. *)

Module Doubles.
Import PrimFloat FloatOps SpecFloat.
#[local] Open Scope float_scope.
#[local] Set Warnings "-inexact-float".

(** A ball whose fields are doubles. *)
Record t := mk { x : float; y : float; vx : float; vy : float; radius : float }.

(** [Math.max] and [Math.min]: NaN when an argument is NaN, and -0 is below
    +0. *)
Definition Math_max (a b : float) : float :=
  if is_nan a || is_nan b then nan
  else if a <? b then b
  else if b <? a then a
  else if get_sign a then b else a.
Definition Math_min (a b : float) : float :=
  if is_nan a || is_nan b then nan
  else if a <? b then a
  else if b <? a then b
  else if get_sign a then a else b.

(** [resolveCollision(ball, rectX, rectY, rectSize)], lines 163-206, on
    doubles: every operation rounds to the nearest double. *)
Definition resolveCollision (this : Maze.t) (ball : t) (rectX rectY rectSize : float)
    : Maze.t * t :=
  let closestX := Math_max rectX (Math_min (x ball) (rectX + rectSize)) in
  let closestY := Math_max rectY (Math_min (y ball) (rectY + rectSize)) in
  let dx := x ball - closestX in
  let dy := y ball - closestY in
  let distanceSq := dx * dx + dy * dy in
  if (distanceSq <? radius ball * radius ball) && (0 <? distanceSq)
  then
    let distance := sqrt distanceSq in
    let overlap := radius ball - distance in
    let nx := dx / distance in
    let ny := dy / distance in
    let ball1 :=
      mk (x ball + nx * overlap) (y ball + ny * overlap)
         (vx ball) (vy ball) (radius ball) in
    let dot := vx ball1 * nx + vy ball1 * ny in
    if dot <? 0
    then (this,
          mk (x ball1) (y ball1)
             (vx ball1 - (1 + 0.5) * dot * nx)
             (vy ball1 - (1 + 0.5) * dot * ny)
             (radius ball1))
    else (this, ball1)
  else (this, ball).

(** The real number that a finite double is: an integer mantissa times a
    power of 2 (the infinities and NaN, which are no real number, and the
    zeros are sent to 0). *)
Definition decode (f : float) : Z * Z :=
  match Prim2SF f with
  | S754_finite s m e => (if s then Z.neg m else Z.pos m, e)
  | _ => (0, 0)%Z
  end.
Definition scale (e : Z) : R :=
  if (0 <=? e)%Z then IZR (2 ^ e) else (/ IZR (2 ^ (- e)))%R.
Definition exact (f : float) : R :=
  (IZR (fst (decode f)) * scale (snd (decode f)))%R.
Definition exact_ball (ball : t) : Ball.t :=
  Ball.mk (exact (x ball)) (exact (y ball)) (exact (vx ball)) (exact (vy ball))
          (exact (radius ball)).

(** A ball touching the corner (0, 0) of a cell from outside, moving towards
    it: the doubles nearest to 0.006, 0.008 and 0.01 are exactly in the
    proportion 3 : 4 : 5. *)
Definition ball_contact : t := mk (-0.006) (-0.008) 3 4 0.01.

(** The same ball with the velocity reversed and halved, and the corner and
    the size of the cell [0,40] x [0,40]. *)
Definition ball_bounced : t := mk (-0.006) (-0.008) (-1.5) (-2) 0.01.
Definition cell_origin : float := 0.
Definition cell_size : float := 40.

End Doubles.

(** ** class Game: sizing, input handlers, events *)

Module GameEvents.
#[local] Open Scope R_scope.

Definition set_input (this : Game.t) (i : Game.Input) : Game.t :=
  Game.mk (Game.state this) (Game.startTime this) i (Game.cellSize this)
          (Game.cols this) (Game.rows this) (Game.maze this) (Game.ball this)
          (Game.timer this) (Game.finalTime this).

(** [resize()], lines 274-294, for a window of [innerWidth] x [innerHeight]
    pixels (integers).  [Math.floor] of a quotient of integers is [Z.div], and
    [%] is [Z.rem].  Below 15 pixels of width the cell size is 0 and the
    divisions give Infinity or NaN, which are not integers: the model has no
    result there ([None]). *)
Definition resize (innerWidth innerHeight : Z) (this : Game.t) : option Game.t :=
  let minCols := 15%Z in
  let cellSize := (innerWidth / minCols)%Z in
  if (cellSize =? 0)%Z then None
  else
    let cols := (innerWidth / cellSize)%Z in
    let rows := (innerHeight / cellSize)%Z in
    let cols := if (Z.rem cols 2 =? 0)%Z then (cols - 1)%Z else cols in
    let rows := if (Z.rem rows 2 =? 0)%Z then (rows - 1)%Z else rows in
    Some (Game.mk (Game.state this) (Game.startTime this) (Game.input this)
                  (IZR cellSize) cols rows (Game.maze this) (Game.ball this)
                  (Game.timer this) (Game.finalTime this)).

(** The 'keydown' listener, lines 309-318. *)
Definition keydown (key : string) (this : Game.t) : Game.t :=
  if bool_decide (Game.state this <> Game.PLAYING) then this
  else
    let speed := 1 in
    let i := Game.input this in
    if bool_decide (key = "ArrowUp"%string)
    then set_input this (Game.mkInput (Game.ix i) (- speed))
    else if bool_decide (key = "ArrowDown"%string)
    then set_input this (Game.mkInput (Game.ix i) speed)
    else if bool_decide (key = "ArrowLeft"%string)
    then set_input this (Game.mkInput (- speed) (Game.iy i))
    else if bool_decide (key = "ArrowRight"%string)
    then set_input this (Game.mkInput speed (Game.iy i))
    else this.

(** The 'keyup' listener, lines 320-323: two tests, one after the other,
    whatever the state. *)
Definition keyup (key : string) (this : Game.t) : Game.t :=
  let this1 :=
    if bool_decide (key = "ArrowUp"%string \/ key = "ArrowDown"%string)
    then set_input this (Game.mkInput (Game.ix (Game.input this)) 0)
    else this in
  if bool_decide (key = "ArrowLeft"%string \/ key = "ArrowRight"%string)
  then set_input this1 (Game.mkInput 0 (Game.iy (Game.input this1)))
  else this1.

(** The 'deviceorientation' listener, lines 326-353, for an event with the
    angles [gamma] and [beta] (a null angle counts as 0 in the arithmetic of
    the source). *)
Definition deviceorientation (gamma beta : R) (this : Game.t) : Game.t :=
  if bool_decide (Game.state this <> Game.PLAYING) then this
  else
    let x := gamma in
    let y := beta in
    let x := if bool_decide (90 < x) then 90 else x in
    let x := if bool_decide (x < -90) then -90 else x in
    let maxTilt := 30 in
    let inputx := x / maxTilt in
    let inputy := y / maxTilt in
    set_input this (Game.mkInput (Rmax (-1) (Rmin 1 inputx))
                                 (Rmax (-1) (Rmin 1 inputy))).

(** What the page reacts to once the game object exists: a click on the
    retry button, a scheduled frame, keys and tilts. *)
Inductive Event :=
| Retry (rnd : nat -> nat) (now : nat -> Z)
| Frame (now : nat -> Z)
| KeyDown (key : string)
| KeyUp (key : string)
| DeviceOrientation (gamma beta : R).

Definition handle (this : Game.t) (e : Event) : result Game.t :=
  match e with
  | Retry rnd now => Game.startGame rnd now this
  | Frame now => Game.loop now this
  | KeyDown key => Ok (keydown key this)
  | KeyUp key => Ok (keyup key this)
  | DeviceOrientation gamma beta => Ok (deviceorientation gamma beta this)
  end.

Definition run (events : list Event) (this : Game.t) : result Game.t :=
  foldM handle this events.

End GameEvents.

(** ** Vocabulary of the properties *)

(** The value of a cell, [None] when the row or the cell is undefined. *)
Definition cellv (g : gmap Z (gmap Z Z)) (r c : Z) : option Z :=
  g !! r ≫= (.!! c).

Definition pathAt (g : gmap Z (gmap Z Z)) (r c : Z) : bool :=
  bool_decide (cellv g r c = Some Maze.PATH).
Definition wallAt (g : gmap Z (gmap Z Z)) (r c : Z) : bool :=
  bool_decide (cellv g r c = Some Maze.WALL).

(** The cells of a [rows] x [cols] grid, row by row. *)
Definition cells (rows cols : Z) : list (Z * Z) :=
  r ← seqZ 0 rows; c ← seqZ 0 cols; [(r, c)].

Definition b2n (b : bool) : nat := if b then 1%nat else 0%nat.

(** Number of PATH cells, of WALL cells, and of links: pairs of PATH cells
    that are horizontal or vertical neighbours, each pair counted once (at
    its left or upper cell). *)
Definition countPath (rows cols : Z) (g : gmap Z (gmap Z Z)) : nat :=
  sum_list_with (fun p => b2n (pathAt g p.1 p.2)) (cells rows cols).
Definition countWall (rows cols : Z) (g : gmap Z (gmap Z Z)) : nat :=
  sum_list_with (fun p => b2n (wallAt g p.1 p.2)) (cells rows cols).
Definition links (rows cols : Z) (g : gmap Z (gmap Z Z)) : nat :=
  sum_list_with (fun p =>
      (b2n (pathAt g p.1 p.2 && pathAt g p.1 (p.2 + 1)%Z) +
       b2n (pathAt g p.1 p.2 && pathAt g (p.1 + 1)%Z p.2))%nat)
    (cells rows cols).

(** What a flood fill from the start cell (1,1) reaches: the start cell if
    it is a path, and every PATH cell next to (left, right, above or below)
    a reached cell. *)
Inductive reach (g : gmap Z (gmap Z Z)) : Z -> Z -> Prop :=
| reach_start : cellv g 1 1 = Some Maze.PATH -> reach g 1 1
| reach_step r c dr dc :
    reach g r c ->
    Z.abs dr + Z.abs dc = 1 ->
    cellv g (r + dr) (c + dc) = Some Maze.PATH ->
    reach g (r + dr) (c + dc).

(** The grid of a maze as rows of cell values, for display. *)
Definition grid_rows (m : Maze.t) : list (list (option Z)) :=
  (fun r => (fun c => cellv (Maze.grid m) r c) <$> seqZ 0 (Maze.cols m))
    <$> seqZ 0 (Maze.rows m).

(** The cell is strictly inside the border. *)
Definition interior (rows cols r c : Z) : Prop :=
  0 < r < rows - 1 /\ 0 < c < cols - 1.

(** [g'] is [g] with the cell (r0, c0) turned into a path. *)
Definition carved (g g' : gmap Z (gmap Z Z)) (r0 c0 : Z) : Prop :=
  forall r c, cellv g' r c =
    if decide (r = r0 /\ c = c0) then Some Maze.PATH else cellv g r c.

(** The test of [valid] on a grid whose rows exist. *)
Definition validb (rows cols : Z) (g : gmap Z (gmap Z Z)) (current dir : Maze.Cell) : bool :=
  let nextR := Maze.r current + Maze.r dir in
  let nextC := Maze.c current + Maze.c dir in
  (0 <? nextR) && (nextR <? rows - 1) && (0 <? nextC) && (nextC <? cols - 1)
  && wallAt g nextR nextC.

(** The invariant of the carving loop, for a grid of [rows] x [cols] cells
    and the stack of the loop. *)
Record carve_inv (rows cols : Z) (g : gmap Z (gmap Z Z)) (stack : list Maze.Cell) : Prop := {
  inv_rows : forall r, 0 <= r < rows -> is_Some (g !! r);
  inv_vals : forall r c, 0 <= r < rows -> 0 <= c < cols ->
    cellv g r c = Some Maze.WALL \/ cellv g r c = Some Maze.PATH;
  inv_shape : forall r c, cellv g r c = Some Maze.PATH ->
    interior rows cols r c /\ (r mod 2 = 1 \/ c mod 2 = 1);
  inv_edge : forall r c dr dc, r mod 2 = 1 -> c mod 2 = 1 ->
    Z.abs dr + Z.abs dc = 1 ->
    cellv g (r + dr) (c + dc) = Some Maze.PATH -> cellv g r c = Some Maze.PATH;
  inv_stack : forall p, p ∈ stack ->
    Maze.r p mod 2 = 1 /\ Maze.c p mod 2 = 1 /\
    cellv g (Maze.r p) (Maze.c p) = Some Maze.PATH;
  inv_start : cellv g 1 1 = Some Maze.PATH;
  inv_reach : forall r c, cellv g r c = Some Maze.PATH -> reach g r c;
  inv_closed : forall r c, r mod 2 = 1 -> c mod 2 = 1 ->
    cellv g r c = Some Maze.PATH ->
    Maze.mkCell r c ∈ stack \/
    forall d, d ∈ Maze.directions ->
      interior rows cols (r + Maze.r d) (c + Maze.c d) ->
      cellv g (r + Maze.r d) (c + Maze.c d) = Some Maze.PATH;
  inv_count : (links rows cols g + 1)%nat = countPath rows cols g;
  inv_out : forall r c, ~ (0 <= r < rows /\ 0 <= c < cols) -> cellv g r c = None
}.

(** A maze whose rows 0 .. rows-1 exist: reading a cell in range does not
    throw. *)
Definition rows_exist (m : Maze.t) : Prop :=
  forall r, 0 <= r < Maze.rows m -> is_Some (Maze.grid m !! r).

(** ** Sample objects

    A ball overlapping the right edge of the square [0,40] x [0,40] and
    moving into it, the same ball with its centre on that edge, and a 3 x 3
    maze (the one the constructor returns for 3 columns and 3 rows) with a
    ball at rest in the middle of its only PATH cell. *)
Definition ball_overlapping : Ball.t := Ball.mk 50 20 (-3) 1 14.
Definition ball_on_edge : Ball.t := Ball.mk 40 20 (-3) 1 14.
Definition maze3 : Maze.t :=
  Maze.mk 3 3
    (<[1 := <[1 := Maze.PATH]> (Maze.init_row 3)]> (Maze.init_grid ∅ 3 3))
    (Maze.mkPos 1 1) (Maze.mkPos 1 1).
Definition ball_centred : Ball.t := Ball.mk 60 60 0 0 14.

(** A game before its first start, on a 5 x 5 grid of cells of size 40, and
    a game in play on [maze3], whose goal is its start cell. *)
Definition game_idle : Game.t :=
  Game.mk Game.IDLE 0 (Game.mkInput 0 0) 40 5 5 None None None None.
Definition game_at_goal : Game.t :=
  Game.mk Game.PLAYING 1000 (Game.mkInput 0 0) 40 3 3
          (Some maze3) (Some ball_centred) None None.

(** [n] frames of [Ball.update] with the same acceleration. *)
Definition integrate (n : nat) (ax ay : R) (ball : Ball.t) : Ball.t :=
  Nat.iter n (Ball.update ax ay) ball.

(** The velocity that [Ball.update] leaves fixed under the acceleration [a]:
    [(v + a) * friction = v]. *)
Definition terminal_velocity (a : R) : R :=
  (a * CFG.friction / (1 - CFG.friction))%R.

(** ** Vocabulary of the further properties *)

(** Number of PATH cells whose row and column are both odd. *)
Definition countNodes (rows cols : Z) (g : gmap Z (gmap Z Z)) : nat :=
  sum_list_with (fun p => b2n (pathAt g p.1 p.2 && Z.odd p.1 && Z.odd p.2))
                (cells rows cols).

(** The square of the speed of a ball. *)
Definition speedSq (b : Ball.t) : R :=
  (Ball.vx b * Ball.vx b + Ball.vy b * Ball.vy b)%R.

(** A clearance that rounding cannot bridge: a billionth of the size of the
    numbers that enter the comparison of line 173 (and of 1).  The rounded
    squares of a distance and of a radius that differ by more compare as the
    exact ones do. *)
Definition clearance (ball : Ball.t) (rectX rectY rectSize : R) : R :=
  (1e-9 * (1 + Rabs (Ball.x ball) + Rabs (Ball.y ball)
             + Rabs rectX + Rabs rectY + Rabs rectSize + Ball.radius ball))%R.


(** Both components of the input are between -1 and 1. *)
Definition input_bounded (i : Game.Input) : Prop :=
  (-1 <= Game.ix i <= 1 /\ -1 <= Game.iy i <= 1)%R.

(** A game that has been started on a playable grid: odd dimensions of at
    least 5 x 3 cells of positive size, a maze of these dimensions whose rows
    exist, a ball of the radius [startGame] gives it, an input within bounds
    and a speed of at most 12 * sqrt 2 (its square is at most 288). *)
Record started (g : Game.t) : Prop := {
  st_cols : 5 <= Game.cols g /\ Z.odd (Game.cols g) = true;
  st_rows : 3 <= Game.rows g /\ Z.odd (Game.rows g) = true;
  st_size : (0 < Game.cellSize g)%R;
  st_state : Game.state g <> Game.IDLE;
  st_maze : exists m, Game.maze g = Some m /\ rows_exist m /\
                      Maze.cols m = Game.cols g /\ Maze.rows m = Game.rows g;
  st_ball : exists b, Game.ball g = Some b /\
                      Ball.radius b = (Game.cellSize g * CFG.ballRadiusRatio)%R /\
                      (speedSq b <= 288)%R;
  st_input : input_bounded (Game.input g)
}.

(** A ball with some velocity, and a game in play with a key held. *)
Definition ball_moving : Ball.t := Ball.mk 60 60 5 (-2) 14.
Definition game_playing : Game.t :=
  Game.mk Game.PLAYING 1000 (Game.mkInput (-1) 0) 40 3 3
          (Some maze3) (Some ball_centred) None None.

(** The 5 x 3 maze (a single corridor), and a game started on it. *)
Definition maze5x3 : Maze.t :=
  Maze.mk 5 3
    (<[1 := <[3 := Maze.PATH]> (<[2 := Maze.PATH]> (<[1 := Maze.PATH]> (Maze.init_row 5)))]>
       (Maze.init_grid ∅ 3 5))
    (Maze.mkPos 1 1) (Maze.mkPos 3 1).
Definition game_started : Game.t :=
  Game.mk Game.PLAYING 1000 (Game.mkInput 0 0) 40 5 3 (Some maze5x3)
          (Some (Ball.mk 60 60 0 0 (40 * CFG.ballRadiusRatio))) None None.

(** A retry is the only event that builds a new maze. *)
Definition is_retry (e : GameEvents.Event) : bool :=
  match e with GameEvents.Retry _ _ => true | _ => false end.

(** ** Sums over lists of cells *)

Ltac zlia := Z.to_euclidean_division_equations; lia.
Ltac vcong := unfold Maze.PATH, Maze.WALL in *; congruence.

(** Case analysis on the comparisons inside [Rmax] and [Rmin], innermost
    first. *)
Ltac case_Rle :=
  repeat match goal with
  | |- context [Rle_dec ?a ?b] =>
      lazymatch a with
      | context [Rle_dec] => fail
      | _ => lazymatch b with
             | context [Rle_dec] => fail
             | _ => destruct (Rle_dec a b); cbv iota
             end
      end
  end.

Lemma sum_list_with_ext_in {A} (f g : A -> nat) (l : list A) :
  (forall a, a ∈ l -> f a = g a) -> sum_list_with f l = sum_list_with g l.
Proof.
  induction l as [|a l IH]; intros H; simpl; [done|].
  rewrite H by left. rewrite IH; [done|].
  intros b Hb. apply H. by right.
Qed.

Lemma sum_list_with_le_in {A} (f g : A -> nat) (l : list A) :
  (forall a, a ∈ l -> (f a <= g a)%nat) -> (sum_list_with f l <= sum_list_with g l)%nat.
Proof.
  induction l as [|a l IH]; intros H; simpl; [done|].
  specialize (H a (list_elem_of_here _ _)) as Ha.
  assert (sum_list_with f l <= sum_list_with g l)%nat; [|lia].
  apply IH. intros b Hb. apply H. by right.
Qed.

Lemma sum_list_with_plus {A} (f g : A -> nat) (l : list A) :
  sum_list_with (fun a => (f a + g a)%nat) l
  = (sum_list_with f l + sum_list_with g l)%nat.
Proof. induction l as [|a l IH]; simpl; [done|]. rewrite IH. lia. Qed.

Lemma sum_list_with_point {A} `{EqDecision A} (a : A) (k : nat) (l : list A) :
  NoDup l ->
  sum_list_with (fun b => if decide (b = a) then k else 0%nat) l
  = if decide (a ∈ l) then k else 0%nat.
Proof.
  induction 1 as [|b l Hb Hl IH]; [done|].
  cbn [sum_list_with]. rewrite IH.
  destruct (decide (b = a)) as [->|Hne].
  - rewrite (decide_True (P := a ∈ a :: l)) by left.
    by rewrite (decide_False (P := a ∈ l)).
  - destruct (decide (a ∈ l)) as [Hin|Hin].
    + rewrite (decide_True (P := a ∈ b :: l)); [done|by right].
    + rewrite (decide_False (P := a ∈ b :: l)); [done|].
      rewrite elem_of_cons. intros [?|?]; congruence.
Qed.

Lemma sum_list_with_b2n_le {A} (f : A -> bool) (l : list A) :
  (sum_list_with (fun a => b2n (f a)) l <= length l)%nat.
Proof. induction l as [|a l IH]; simpl; [done|]. destruct (f a); simpl; lia. Qed.

Lemma elem_of_cells rows cols r c :
  (r, c) ∈ cells rows cols <-> 0 <= r < rows /\ 0 <= c < cols.
Proof.
  unfold cells. rewrite list_elem_of_bind. split.
  - intros (r' & Hc & Hr). apply list_elem_of_bind in Hc as (c' & Hc & Hc').
    apply elem_of_seqZ in Hr. apply elem_of_seqZ in Hc'.
    apply list_elem_of_singleton in Hc. simplify_eq. lia.
  - intros [Hr Hc]. exists r. split; [|apply elem_of_seqZ; lia].
    apply list_elem_of_bind. exists c. split; [by apply list_elem_of_singleton|].
    apply elem_of_seqZ; lia.
Qed.

Lemma NoDup_cells rows cols : NoDup (cells rows cols).
Proof.
  unfold cells. apply NoDup_bind; [| |apply NoDup_seqZ].
  - intros r1 r2 p _ _ H1 H2.
    apply list_elem_of_bind in H1 as (c1 & H1 & _).
    apply list_elem_of_bind in H2 as (c2 & H2 & _).
    apply list_elem_of_singleton in H1. apply list_elem_of_singleton in H2.
    congruence.
  - intros r _. apply NoDup_bind; [| |apply NoDup_seqZ].
    + intros c1 c2 p _ _ H1 H2.
      apply list_elem_of_singleton in H1. apply list_elem_of_singleton in H2.
      congruence.
    + intros c _. apply NoDup_singleton.
Qed.

Lemma length_cells rows cols :
  length (cells rows cols) = (Z.to_nat rows * Z.to_nat cols)%nat.
Proof.
  unfold cells.
  assert (Hin : forall (l : list Z) n,
    length (l ≫= fun r => seqZ 0 cols ≫= fun c => [(r, c)]) = (length l * n)%nat
    \/ n <> Z.to_nat cols).
  { intros l n. destruct (decide (n = Z.to_nat cols)) as [->|]; [left|by right].
    induction l as [|r l IH]; [done|].
    rewrite bind_cons, length_app, IH. simpl. f_equal.
    rewrite <- (length_seqZ 0 cols).
    generalize (seqZ 0 cols). intros k. induction k as [|c k IHk]; [done|].
    rewrite bind_cons, length_app, IHk. done. }
  destruct (Hin (seqZ 0 rows) (Z.to_nat cols)) as [->|]; [|done].
  by rewrite length_seqZ.
Qed.

(** ** Reading and writing the grid *)

Lemma grid_get_cellv g r c :
  is_Some (g !! r) -> Maze.grid_get g r c = Ok (cellv g r c).
Proof. intros [row Hrow]. unfold Maze.grid_get, cellv. by rewrite Hrow. Qed.

Lemma grid_set_carved g r0 c0 :
  is_Some (g !! r0) ->
  exists g', Maze.grid_set g r0 c0 Maze.PATH = Ok g' /\ carved g g' r0 c0 /\
    (forall r, is_Some (g !! r) -> is_Some (g' !! r)).
Proof.
  intros [row Hrow]. unfold Maze.grid_set. rewrite Hrow.
  eexists; split; [done|]. split.
  - intros r c. unfold cellv.
    destruct (decide (r = r0)) as [->|Hr].
    + rewrite lookup_insert_eq, Hrow. simpl.
      destruct (decide (c = c0)) as [->|Hc].
      * rewrite lookup_insert_eq. by rewrite decide_True.
      * rewrite lookup_insert_ne by done. rewrite decide_False; [done|tauto].
    + rewrite lookup_insert_ne by done. rewrite decide_False; [done|tauto].
  - intros r Hr. destruct (decide (r = r0)) as [->|Hne].
    + rewrite lookup_insert_eq. eauto.
    + by rewrite lookup_insert_ne.
Qed.

Lemma lookup_foldl_insert {A} (v : A) (l : list Z) (m : gmap Z A) (k : Z) :
  foldl (fun m k => <[k := v]> m) m l !! k
  = if decide (k ∈ l) then Some v else m !! k.
Proof.
  revert m. induction l as [|a l IH]; intros m; simpl.
  - done.
  - rewrite IH. destruct (decide (k ∈ l)) as [Hin|Hin].
    + rewrite decide_True; [done|by right].
    + destruct (decide (k = a)) as [->|Hne].
      * rewrite lookup_insert_eq. rewrite decide_True; [done|by left].
      * rewrite lookup_insert_ne by done. rewrite decide_False; [done|].
        rewrite elem_of_cons. intros [?|?]; congruence.
Qed.

Lemma init_grid_rows g rows cols r :
  Maze.init_grid g rows cols !! r
  = if decide (0 <= r < rows) then Some (Maze.init_row cols) else g !! r.
Proof.
  unfold Maze.init_grid. rewrite lookup_foldl_insert.
  destruct (decide (0 <= r < rows)) as [H|H].
  - rewrite decide_True; [done|]. apply elem_of_seqZ. lia.
  - rewrite decide_False; [done|]. rewrite elem_of_seqZ. lia.
Qed.

Lemma cellv_init_grid rows cols r c :
  cellv (Maze.init_grid ∅ rows cols) r c
  = if decide (0 <= r < rows /\ 0 <= c < cols) then Some Maze.WALL else None.
Proof.
  unfold cellv. rewrite init_grid_rows.
  destruct (decide (0 <= r < rows)) as [Hr|Hr]; simpl.
  - unfold Maze.init_row. rewrite lookup_foldl_insert.
    destruct (decide (0 <= c < cols)) as [Hc|Hc].
    + rewrite decide_True by (apply elem_of_seqZ; lia). by rewrite decide_True.
    + rewrite decide_False by (rewrite elem_of_seqZ; lia).
      rewrite lookup_empty. rewrite decide_False; [done|tauto].
  - rewrite lookup_empty. simpl. rewrite decide_False; [done|tauto].
Qed.

Lemma pathAt_true g r c : cellv g r c = Some Maze.PATH -> pathAt g r c = true.
Proof. intros H. unfold pathAt. by apply bool_decide_eq_true. Qed.

Lemma pathAt_spec g r c : pathAt g r c = true <-> cellv g r c = Some Maze.PATH.
Proof. unfold pathAt. apply bool_decide_eq_true. Qed.

Lemma pathAt_false g r c : cellv g r c <> Some Maze.PATH -> pathAt g r c = false.
Proof. intros H. unfold pathAt. by apply bool_decide_eq_false. Qed.

Lemma pathAt_carved g g' r0 c0 r c :
  carved g g' r0 c0 ->
  pathAt g' r c = if decide (r = r0 /\ c = c0) then true else pathAt g r c.
Proof.
  intros H. unfold pathAt. rewrite H.
  case_decide; [by apply bool_decide_eq_true|done].
Qed.

Lemma wallAt_carved g g' r0 c0 r c :
  carved g g' r0 c0 ->
  wallAt g' r c = if decide (r = r0 /\ c = c0) then false else wallAt g r c.
Proof.
  intros H. unfold wallAt. rewrite H.
  case_decide; [by apply bool_decide_eq_false|done].
Qed.

(** ** Counting under a carve *)

Lemma countPath_carved rows cols g g' r0 c0 :
  carved g g' r0 c0 ->
  pathAt g r0 c0 = false ->
  0 <= r0 < rows -> 0 <= c0 < cols ->
  countPath rows cols g' = (countPath rows cols g + 1)%nat.
Proof.
  intros Hc Hw Hr0 Hc0. unfold countPath.
  rewrite (sum_list_with_ext_in _
    (fun p => (b2n (pathAt g p.1 p.2)
               + (if decide (p = (r0, c0)) then 1 else 0))%nat)).
  - rewrite sum_list_with_plus, sum_list_with_point by apply NoDup_cells.
    rewrite decide_True; [done|]. by apply elem_of_cells.
  - intros [r c] _. simpl. rewrite (pathAt_carved _ _ _ _ _ _ Hc).
    destruct (decide (r = r0 /\ c = c0)) as [[-> ->]|Hne].
    + rewrite Hw. by rewrite decide_True.
    + rewrite decide_False; [lia|]. intros [= -> ->]. tauto.
Qed.

Lemma countWall_carved_le rows cols g g' r0 c0 :
  carved g g' r0 c0 -> (countWall rows cols g' <= countWall rows cols g)%nat.
Proof.
  intros Hc. unfold countWall. apply sum_list_with_le_in.
  intros [r c] _. simpl. rewrite (wallAt_carved _ _ _ _ _ _ Hc).
  case_decide; simpl; lia.
Qed.

Lemma countWall_carved_lt rows cols g g' r0 c0 :
  carved g g' r0 c0 ->
  wallAt g r0 c0 = true ->
  0 <= r0 < rows -> 0 <= c0 < cols ->
  (countWall rows cols g' + 1)%nat = countWall rows cols g.
Proof.
  intros Hc Hw Hr0 Hc0. unfold countWall.
  rewrite (sum_list_with_ext_in (fun p => b2n (wallAt g p.1 p.2))
    (fun p => (b2n (wallAt g' p.1 p.2)
               + (if decide (p = (r0, c0)) then 1 else 0))%nat)).
  - rewrite sum_list_with_plus, sum_list_with_point by apply NoDup_cells.
    rewrite decide_True; [done|]. by apply elem_of_cells.
  - intros [r c] _. simpl. rewrite (wallAt_carved _ _ _ _ _ _ Hc).
    destruct (decide (r = r0 /\ c = c0)) as [[-> ->]|Hne].
    + rewrite Hw. by rewrite decide_True.
    + rewrite decide_False; [lia|]. intros [= -> ->]. tauto.
Qed.

Lemma countPath_le rows cols g :
  (countPath rows cols g <= length (cells rows cols))%nat.
Proof.
  unfold countPath. apply (sum_list_with_b2n_le (fun p => pathAt g p.1 p.2)).
Qed.

(** Carving a cell adds one link per PATH neighbour of the cell. *)
Lemma links_carved rows cols g g' r0 c0 :
  carved g g' r0 c0 ->
  pathAt g r0 c0 = false ->
  0 <= r0 < rows -> 0 <= c0 < cols ->
  (forall r c, pathAt g r c = true -> 0 <= r < rows /\ 0 <= c < cols) ->
  links rows cols g' =
    (links rows cols g
     + (b2n (pathAt g r0 (c0 + 1)%Z) + b2n (pathAt g (r0 + 1)%Z c0))
     + b2n (pathAt g r0 (c0 - 1)%Z) + b2n (pathAt g (r0 - 1)%Z c0))%nat.
Proof.
  intros Hc Hw Hr0 Hc0 Hin. unfold links.
  rewrite (sum_list_with_ext_in _
    (fun p => ((b2n (pathAt g p.1 p.2 && pathAt g p.1 (p.2 + 1)%Z)
                + b2n (pathAt g p.1 p.2 && pathAt g (p.1 + 1)%Z p.2))
               + (if decide (p = (r0, c0))
                  then b2n (pathAt g r0 (c0 + 1)%Z) + b2n (pathAt g (r0 + 1)%Z c0)
                  else 0)
               + (if decide (p = (r0, (c0 - 1)%Z)) then b2n (pathAt g r0 (c0 - 1)%Z) else 0)
               + (if decide (p = ((r0 - 1)%Z, c0)) then b2n (pathAt g (r0 - 1)%Z c0) else 0))%nat)).
  - rewrite !sum_list_with_plus, !sum_list_with_point by apply NoDup_cells.
    rewrite (decide_True (P := (r0, c0) ∈ cells rows cols)) by (by apply elem_of_cells).
    assert (Hk : forall r c,
      (if decide ((r, c) ∈ cells rows cols) then b2n (pathAt g r c) else 0%nat)
      = b2n (pathAt g r c)).
    { intros r c. case_decide as Hm; [done|].
      destruct (pathAt g r c) eqn:E; [|done].
      exfalso. apply Hm, elem_of_cells. by apply Hin. }
    rewrite !Hk. lia.
  - intros [r c] _. cbn [fst snd].
    rewrite !(pathAt_carved _ _ _ _ _ _ Hc).
    destruct (decide (r = r0 /\ c = c0)) as [[-> ->]|Hne0].
    + rewrite decide_False by lia. rewrite decide_False by lia.
      rewrite Hw. rewrite decide_True by done.
      rewrite decide_False by (intros [= ?]; lia).
      rewrite decide_False by (intros [= ?]; lia).
      simpl. lia.
    + rewrite (decide_False (P := (r, c) = (r0, c0))) by (intros [= -> ->]; tauto).
      destruct (decide (r = r0 /\ c + 1 = c0)) as [[-> Hc1]|Hne1].
      * assert (c = c0 - 1) as -> by lia.
        rewrite decide_False by lia.
        rewrite decide_True by done.
        rewrite decide_False by (intros [= ?]; lia).
        replace (c0 - 1 + 1) with c0 by lia. rewrite Hw.
        destruct (pathAt g r0 (c0 - 1)), (pathAt g (r0 + 1) (c0 - 1)); simpl; lia.
      * rewrite (decide_False (P := (r, c) = (r0, c0 - 1)))
          by (intros [= -> ->]; apply Hne1; lia).
        destruct (decide (r + 1 = r0 /\ c = c0)) as [[Hr1 ->]|Hne2].
        -- assert (r = r0 - 1) as -> by lia.
           rewrite decide_True by done.
           replace (r0 - 1 + 1) with r0 by lia. rewrite Hw.
           destruct (pathAt g (r0 - 1) c0), (pathAt g (r0 - 1) (c0 + 1)); simpl; lia.
        -- rewrite decide_False by (intros [= -> ->]; apply Hne2; lia).
           lia.
Qed.

(** ** The invariant is kept by the loop *)

Lemma reach_mono g g' r c :
  (forall r c, cellv g r c = Some Maze.PATH -> cellv g' r c = Some Maze.PATH) ->
  reach g r c -> reach g' r c.
Proof.
  intros Hm. induction 1 as [H|r c dr dc _ IH Hu Hp].
  - apply reach_start. by apply Hm.
  - apply reach_step; [done|done|]. by apply Hm.
Qed.

Lemma four_neighbours (P : Z -> Z -> bool) (r0 c0 a b : Z) :
  Z.abs (a - r0) + Z.abs (b - c0) = 1 ->
  (forall r c, Z.abs (r - r0) + Z.abs (c - c0) = 1 ->
     P r c = bool_decide (r = a /\ c = b)) ->
  (b2n (P r0 (c0 + 1)%Z) + b2n (P (r0 + 1)%Z c0) + b2n (P r0 (c0 - 1)%Z)
   + b2n (P (r0 - 1)%Z c0) = 1)%nat.
Proof.
  intros Hab HP.
  rewrite !HP by lia.
  repeat case_bool_decide; simpl; lia.
Qed.

(** Carving the wall between the top of the stack and a valid target, then
    the target, and pushing the target. *)
Lemma carve_inv_push rows cols g g1 g2 stack r0 c0 ur uc :
  carve_inv rows cols g stack ->
  Maze.mkCell r0 c0 ∈ stack ->
  Z.abs ur + Z.abs uc = 1 ->
  interior rows cols (r0 + 2 * ur) (c0 + 2 * uc) ->
  cellv g (r0 + 2 * ur) (c0 + 2 * uc) = Some Maze.WALL ->
  carved g g1 (r0 + ur) (c0 + uc) ->
  carved g1 g2 (r0 + 2 * ur) (c0 + 2 * uc) ->
  (forall r, is_Some (g !! r) -> is_Some (g2 !! r)) ->
  carve_inv rows cols g2 (Maze.mkCell (r0 + 2 * ur) (c0 + 2 * uc) :: stack)
  /\ countPath rows cols g2 = (countPath rows cols g + 2)%nat.
Proof.
  intros [Hrows Hvals Hshape Hedge Hstack Hstart Hreach Hclosed Hcount Hout]
    Hcur Hu Hint Hnext Hc1 Hc2 Hkeep.
  destruct (Hstack _ Hcur) as (Hr0 & Hc0 & Hpcur). simpl in Hr0, Hc0, Hpcur.
  destruct (Hshape _ _ Hpcur) as [Hicur _].
  unfold interior in *. unfold Maze.PATH, Maze.WALL in *.
  assert (Hwall : cellv g (r0 + ur) (c0 + uc) = Some 1).
  { destruct (Hvals (r0 + ur) (c0 + uc)) as [H|H]; [lia|lia|done|].
    assert (cellv g (r0 + 2 * ur) (c0 + 2 * uc) = Some 0); [|vcong].
    apply (Hedge (r0 + 2 * ur) (c0 + 2 * uc) (- ur) (- uc)); [zlia|zlia|lia|].
    rewrite <- H. f_equal; lia. }
  assert (Hg2 : forall r c, cellv g2 r c =
    if decide (r = r0 + 2 * ur /\ c = c0 + 2 * uc) then Some 0
    else if decide (r = r0 + ur /\ c = c0 + uc) then Some 0 else cellv g r c).
  { intros r c. rewrite Hc2. case_decide; [done|]. apply Hc1. }
  assert (Hmono : forall r c, cellv g r c = Some 0 -> cellv g2 r c = Some 0).
  { intros r c H. rewrite Hg2. repeat case_decide; done. }
  assert (Hinv : forall r c, cellv g2 r c = Some 0 ->
    (r = r0 + 2 * ur /\ c = c0 + 2 * uc) \/ (r = r0 + ur /\ c = c0 + uc)
    \/ cellv g r c = Some 0).
  { intros r c. rewrite Hg2. repeat case_decide; auto. }
  assert (Hpw : cellv g2 (r0 + ur) (c0 + uc) = Some 0).
  { rewrite Hg2. rewrite decide_False by lia. by rewrite decide_True. }
  assert (Hpn : cellv g2 (r0 + 2 * ur) (c0 + 2 * uc) = Some 0).
  { rewrite Hg2. by rewrite decide_True. }
  assert (Hcp : countPath rows cols g2 = (countPath rows cols g + 2)%nat).
  { rewrite (countPath_carved rows cols g1 g2 _ _ Hc2); [| |lia|lia].
    2:{ apply pathAt_false. rewrite Hc1. rewrite decide_False by lia. vcong. }
    rewrite (countPath_carved rows cols g g1 _ _ Hc1); [lia| |lia|lia].
    apply pathAt_false. vcong. }
  split; [|done].
  split; unfold interior in *.
  - intros r Hr. apply Hkeep. by apply Hrows.
  - intros r c Hr Hc. rewrite Hg2. repeat case_decide; auto.
  - intros r c H. apply Hinv in H as [[-> ->]|[[-> ->]|H]].
    + split; [lia|zlia].
    + split; [lia|zlia].
    + by apply Hshape.
  - intros r c dr dc Hr Hc Hd H. apply Hinv in H as [[E1 E2]|[[E1 E2]|H]].
    + exfalso. zlia.
    + assert ((dr = ur /\ dc = uc) \/ (dr = - ur /\ dc = - uc)) as [[-> ->]|[-> ->]]
        by zlia.
      * replace r with r0 by lia. replace c with c0 by lia. by apply Hmono.
      * replace r with (r0 + 2 * ur) by lia. replace c with (c0 + 2 * uc) by lia.
        done.
    + apply Hmono. by apply (Hedge r c dr dc).
  - intros p Hp. apply elem_of_cons in Hp as [->|Hp]; simpl.
    + split; [zlia|]. split; [zlia|done].
    + destruct (Hstack _ Hp) as (? & ? & ?). auto.
  - by apply Hmono.
  - assert (Hrcur : reach g2 r0 c0) by (eapply reach_mono; eauto).
    assert (Hrw : reach g2 (r0 + ur) (c0 + uc)) by (by apply reach_step).
    intros r c H. apply Hinv in H as [[-> ->]|[[-> ->]|H]].
    + replace (r0 + 2 * ur) with (r0 + ur + ur) by lia.
      replace (c0 + 2 * uc) with (c0 + uc + uc) by lia.
      apply reach_step; [done|done|].
      unfold Maze.PATH. rewrite <- Hpn. f_equal; lia.
    + done.
    + eapply reach_mono; eauto.
  - intros r c Hr Hc H. apply Hinv in H as [[-> ->]|[[E1 E2]|H]].
    + left. by left.
    + exfalso. zlia.
    + destruct (Hclosed r c Hr Hc H) as [Hs|Hcl].
      * left. by right.
      * right. intros d Hd Hi. apply Hmono. by apply Hcl.
  - assert (Hin : forall g' r c, (forall r c, cellv g' r c = Some 0 ->
        0 < r < rows - 1 /\ 0 < c < cols - 1) ->
      pathAt g' r c = true -> 0 <= r < rows /\ 0 <= c < cols).
    { intros g' r c Hg' H. apply pathAt_spec, Hg' in H. lia. }
    assert (Hnw : forall r c, Z.abs (r - (r0 + ur)) + Z.abs (c - (c0 + uc)) = 1 ->
      pathAt g r c = bool_decide (r = r0 /\ c = c0)).
    { intros r c Hd. case_bool_decide as E.
      - destruct E as [-> ->]. by apply pathAt_true.
      - apply pathAt_false. unfold Maze.PATH. intros H.
        destruct (Hshape _ _ H) as [_ Hodd].
        assert (r = r0 + 2 * ur /\ c = c0 + 2 * uc) as [-> ->] by zlia.
        vcong. }
    assert (Hnn : forall r c,
      Z.abs (r - (r0 + 2 * ur)) + Z.abs (c - (c0 + 2 * uc)) = 1 ->
      pathAt g1 r c = bool_decide (r = r0 + ur /\ c = c0 + uc)).
    { intros r c Hd. rewrite (pathAt_carved _ _ _ _ _ _ Hc1).
      case_bool_decide as E.
      - by rewrite decide_True.
      - rewrite decide_False by done. apply pathAt_false. unfold Maze.PATH. intros H.
        assert (cellv g (r0 + 2 * ur) (c0 + 2 * uc) = Some 0); [|vcong].
        apply (Hedge (r0 + 2 * ur) (c0 + 2 * uc)
                 (r - (r0 + 2 * ur)) (c - (c0 + 2 * uc))); [zlia|zlia|lia|].
        rewrite <- H. f_equal; lia. }
    assert (Hshape1 : forall r c, cellv g1 r c = Some 0 ->
      0 < r < rows - 1 /\ 0 < c < cols - 1).
    { intros r c. rewrite Hc1. case_decide as E.
      - intros _. lia.
      - intros H. by apply Hshape in H as [? _]. }
    rewrite Hcp.
    rewrite (links_carved rows cols g1 g2 _ _ Hc2); [| |lia|lia|].
    2:{ apply pathAt_false. rewrite Hc1. rewrite decide_False by lia. vcong. }
    2:{ intros r c. by apply Hin. }
    rewrite (links_carved rows cols g g1 _ _ Hc1); [| |lia|lia|].
    2:{ apply pathAt_false. vcong. }
    2:{ intros r c. apply Hin. intros r' c' H. by apply Hshape in H as [? _]. }
    pose proof (four_neighbours (pathAt g) (r0 + ur) (c0 + uc) r0 c0
                  ltac:(lia) Hnw) as N1.
    pose proof (four_neighbours (pathAt g1) (r0 + 2 * ur) (c0 + 2 * uc)
                  (r0 + ur) (c0 + uc) ltac:(lia) Hnn) as N2.
    lia.
  - intros r c Ho. rewrite Hg2. rewrite !decide_False by lia. by apply Hout.
Qed.

Lemma validb_intro rows cols g cur d :
  interior rows cols (Maze.r cur + Maze.r d) (Maze.c cur + Maze.c d) ->
  cellv g (Maze.r cur + Maze.r d) (Maze.c cur + Maze.c d) = Some Maze.WALL ->
  validb rows cols g cur d = true.
Proof.
  unfold validb, interior, wallAt. intros [[? ?] [? ?]] Hw. cbn zeta.
  rewrite !andb_true_iff, !Z.ltb_lt, bool_decide_eq_true. auto.
Qed.

(** Backtracking: the top of the stack has no valid direction left. *)
Lemma carve_inv_pop rows cols g cur rest :
  carve_inv rows cols g (cur :: rest) ->
  (forall d, d ∈ Maze.directions -> validb rows cols g cur d = false) ->
  carve_inv rows cols g rest.
Proof.
  intros [Hrows Hvals Hshape Hedge Hstack Hstart Hreach Hclosed Hcount Hout] Hnone.
  split; try done.
  - intros p Hp. apply Hstack. by right.
  - intros r c Hr Hc H. destruct (Hclosed r c Hr Hc H) as [Hs|Hcl]; [|by right].
    apply elem_of_cons in Hs as [<-|Hs]; [|by left].
    right. intros d Hd [Hi1 Hi2]. specialize (Hnone d Hd).
    destruct (Hvals (r + Maze.r d) (c + Maze.c d)) as [Hw|Hp]; [lia|lia| |done].
    exfalso.
    rewrite (validb_intro rows cols g (Maze.mkCell r c) d) in Hnone; done.
Qed.

(** On a grid whose rows exist the filter does not throw. *)
Lemma filterM_valid (this : Maze.t) (cur : Maze.Cell) (l : list Maze.Cell) :
  rows_exist this ->
  filterM (Maze.valid this cur) l
  = Ok (List.filter (validb (Maze.rows this) (Maze.cols this) (Maze.grid this) cur) l).
Proof.
  intros Hrows. induction l as [|d l IH]; [done|].
  cbn [filterM List.filter]. rewrite IH.
  unfold Maze.valid, validb.
  destruct ((0 <? Maze.r cur + Maze.r d) && (Maze.r cur + Maze.r d <? Maze.rows this - 1)
            && (0 <? Maze.c cur + Maze.c d)
            && (Maze.c cur + Maze.c d <? Maze.cols this - 1)) eqn:E; [|done].
  rewrite grid_get_cellv; [done|].
  apply Hrows.
  repeat (apply andb_prop in E as [E ?]).
  apply Z.ltb_lt in E. assert (Maze.r cur + Maze.r d < Maze.rows this - 1)
    by (by apply Z.ltb_lt). lia.
Qed.

Lemma validb_true rows cols g cur d :
  validb rows cols g cur d = true ->
  interior rows cols (Maze.r cur + Maze.r d) (Maze.c cur + Maze.c d)
  /\ cellv g (Maze.r cur + Maze.r d) (Maze.c cur + Maze.c d) = Some Maze.WALL.
Proof.
  unfold validb, interior. cbn zeta. intros H.
  repeat (apply andb_prop in H as [H ?]).
  apply bool_decide_eq_true in H0.
  repeat match goal with E : (_ <? _) = true |- _ => apply Z.ltb_lt in E end.
  auto with lia.
Qed.

Lemma direction_unit d :
  d ∈ Maze.directions ->
  Z.abs (Maze.r d / 2) + Z.abs (Maze.c d / 2) = 1
  /\ Maze.r d = 2 * (Maze.r d / 2) /\ Maze.c d = 2 * (Maze.c d / 2).
Proof.
  unfold Maze.directions. intros H.
  repeat (apply elem_of_cons in H as [->|H]); [done..|].
  by apply elem_of_nil in H.
Qed.

(** The loop runs to an empty stack, without an exception, and keeps the
    invariant: the fuel bounds the remaining iterations. *)
Lemma carve_ok (fuel : nat) : forall rnd k this stack,
  carve_inv (Maze.rows this) (Maze.cols this) (Maze.grid this) stack ->
  (2 * (length (cells (Maze.rows this) (Maze.cols this))
        - countPath (Maze.rows this) (Maze.cols this) (Maze.grid this))
   + length stack < fuel)%nat ->
  exists g', Maze.carve fuel rnd k this stack = Ok (Maze.set_grid this g')
    /\ carve_inv (Maze.rows this) (Maze.cols this) g' [].
Proof.
  induction fuel as [|fuel IH]; intros rnd k this stack Hinv Hfuel; [lia|].
  destruct stack as [|cur rest].
  { exists (Maze.grid this). by destruct this. }
  cbn [Maze.carve].
  rewrite filterM_valid by (intros r Hr; by apply (inv_rows _ _ _ _ Hinv)).
  cbn [mbind result_bind].
  destruct (List.filter _ Maze.directions) as [|d0 tl] eqn:Hf.
  - apply IH.
    + apply (carve_inv_pop _ _ _ cur); [done|].
      intros d Hd. destruct (validb _ _ _ cur d) eqn:E; [|done].
      assert (In d []) as []. rewrite <- Hf. apply filter_In.
      split; [by apply list_elem_of_In|done].
    + simpl in Hfuel. lia.
  - set (dir := nth _ _ _).
    assert (Hdir : In dir (d0 :: tl)).
    { apply nth_In. apply Nat.mod_upper_bound. done. }
    rewrite <- Hf in Hdir. apply filter_In in Hdir as [Hd Hv].
    apply list_elem_of_In in Hd.
    destruct (direction_unit _ Hd) as (Hu & Er & Ec).
    destruct (validb_true _ _ _ _ _ Hv) as [Hint Hw].
    pose proof (inv_stack _ _ _ _ Hinv cur (list_elem_of_here _ _)) as (Hr0 & Hc0 & Hp).
    pose proof (inv_shape _ _ _ _ Hinv _ _ Hp) as [Hic _].
    destruct (grid_set_carved (Maze.grid this) (Maze.r cur + Maze.r dir / 2)
                (Maze.c cur + Maze.c dir / 2)) as (g1 & E1 & Hc1 & Hk1).
    { apply (inv_rows _ _ _ _ Hinv). unfold interior in *. lia. }
    rewrite E1. cbn [mbind result_bind].
    destruct (grid_set_carved g1 (Maze.r cur + Maze.r dir)
                (Maze.c cur + Maze.c dir)) as (g2 & E2 & Hc2 & Hk2).
    { apply Hk1, (inv_rows _ _ _ _ Hinv). unfold interior in *. lia. }
    rewrite E2. cbn [mbind result_bind].
    destruct (carve_inv_push (Maze.rows this) (Maze.cols this) (Maze.grid this)
                g1 g2 (cur :: rest) (Maze.r cur) (Maze.c cur)
                (Maze.r dir / 2) (Maze.c dir / 2)) as [Hinv2 Hcnt]; try done.
    + destruct cur; by left.
    + by rewrite <- Er, <- Ec.
    + by rewrite <- Er, <- Ec.
    + by rewrite <- Er, <- Ec.
    + auto.
    + rewrite <- Er, <- Ec in Hinv2.
      destruct (IH rnd (S k) (Maze.set_grid this g2)
                  (Maze.mkCell (Maze.r cur + Maze.r dir) (Maze.c cur + Maze.c dir)
                   :: cur :: rest)) as (g' & E & Hfin).
      * done.
      * cbn [Maze.set_grid Maze.rows Maze.cols Maze.grid]. rewrite Hcnt.
        pose proof (countPath_le (Maze.rows this) (Maze.cols this) g2) as Hle.
        rewrite Hcnt in Hle. simpl in Hfuel |- *. lia.
      * exists g'. split; [|done]. rewrite E. done.
Qed.

(** ** The fuel is never exhausted

    Whatever the maze and the stack, every iteration that does not pop turns
    a wall of the [rows] x [cols] area into a path. *)

Lemma grid_set_ok g r0 c0 g' :
  Maze.grid_set g r0 c0 Maze.PATH = Ok g' -> carved g g' r0 c0.
Proof.
  intros E. destruct (g !! r0) as [row|] eqn:Hrow.
  - destruct (grid_set_carved g r0 c0) as (g'' & E' & Hc & _); [eauto|].
    rewrite E in E'. by injection E' as ->.
  - unfold Maze.grid_set in E. by rewrite Hrow in E.
Qed.

Lemma filterM_ok {A} (p : A -> result bool) (l l' : list A) :
  filterM p l = Ok l' -> forall a, In a l' -> In a l /\ p a = Ok true.
Proof.
  revert l'. induction l as [|b l IH]; intros l'; cbn [filterM].
  - intros [= <-] a [].
  - destruct (p b) as [x| |] eqn:Eb; cbn; try done.
    destruct (filterM p l) as [rest| |]; cbn; try done.
    intros [= <-] a Ha. destruct x.
    + destruct Ha as [<-|Ha]; [by split; [left|]|].
      destruct (IH rest eq_refl a Ha). split; [by right|done].
    + destruct (IH rest eq_refl a Ha). split; [by right|done].
Qed.

Lemma valid_ok this cur d :
  Maze.valid this cur d = Ok true ->
  interior (Maze.rows this) (Maze.cols this)
    (Maze.r cur + Maze.r d) (Maze.c cur + Maze.c d)
  /\ wallAt (Maze.grid this) (Maze.r cur + Maze.r d) (Maze.c cur + Maze.c d) = true.
Proof.
  unfold Maze.valid, interior. cbn zeta.
  destruct (_ && _ && _ && _) eqn:E; [|done].
  repeat (apply andb_prop in E as [E ?]).
  repeat match goal with H : (_ <? _) = true |- _ => apply Z.ltb_lt in H end.
  unfold Maze.grid_get, wallAt, cellv.
  destruct (Maze.grid this !! _) as [row|]; cbn; [|done].
  intros [= Hv]. split; [lia|done].
Qed.

Lemma grid_get_fuel g r c : Maze.grid_get g r c <> OutOfFuel.
Proof. unfold Maze.grid_get. by destruct (g !! r). Qed.

Lemma grid_set_fuel g r c v : Maze.grid_set g r c v <> OutOfFuel.
Proof. unfold Maze.grid_set. by destruct (g !! r). Qed.

Lemma filterM_valid_fuel this cur l :
  filterM (Maze.valid this cur) l <> OutOfFuel.
Proof.
  induction l as [|d l IH]; [done|]. cbn [filterM].
  assert (Hv : Maze.valid this cur d <> OutOfFuel).
  { unfold Maze.valid. cbn zeta. destruct (_ && _ && _ && _); [|done].
    pose proof (grid_get_fuel (Maze.grid this)
                  (Maze.r cur + Maze.r d) (Maze.c cur + Maze.c d)).
    by destruct (Maze.grid_get _ _ _). }
  destruct (Maze.valid this cur d); cbn; [|done..].
  by destruct (filterM _ l).
Qed.

Lemma carve_fuel (fuel : nat) : forall rnd k this stack,
  (2 * countWall (Maze.rows this) (Maze.cols this) (Maze.grid this)
   + length stack < fuel)%nat ->
  Maze.carve fuel rnd k this stack <> OutOfFuel.
Proof.
  induction fuel as [|fuel IH]; intros rnd k this stack Hfuel; [lia|].
  destruct stack as [|cur rest]; [done|].
  cbn [Maze.carve].
  pose proof (filterM_valid_fuel this cur Maze.directions) as Hf.
  destruct (filterM (Maze.valid this cur) Maze.directions) as [dirs| |] eqn:Ef;
    cbn [mbind result_bind]; [|done..].
  clear Hf. destruct dirs as [|d0 tl].
  - apply IH. simpl in Hfuel. lia.
  - set (dir := nth _ _ _).
    assert (Hdir : In dir (d0 :: tl)).
    { apply nth_In. apply Nat.mod_upper_bound. done. }
    destruct (filterM_ok _ _ _ Ef dir Hdir) as [Hd Hv].
    apply list_elem_of_In in Hd.
    destruct (direction_unit _ Hd) as (Hu & Er & Ec).
    destruct (valid_ok _ _ _ Hv) as [Hint Hw].
    match goal with |- context [Maze.grid_set ?g0 ?r ?c ?v ≫= _] =>
      pose proof (grid_set_fuel g0 r c v) as Hs1;
      destruct (Maze.grid_set g0 r c v) as [g1| |] eqn:E1 end;
      cbn [mbind result_bind]; [|done..].
    match goal with |- context [Maze.grid_set ?g0 ?r ?c ?v ≫= _] =>
      pose proof (grid_set_fuel g0 r c v) as Hs2;
      destruct (Maze.grid_set g0 r c v) as [g2| |] eqn:E2 end;
      cbn [mbind result_bind]; [|done..].
    apply grid_set_ok in E1. apply grid_set_ok in E2.
    apply IH. cbn [Maze.set_grid Maze.rows Maze.cols Maze.grid length].
    pose proof (countWall_carved_le (Maze.rows this) (Maze.cols this) _ _ _ _ E1).
    pose proof (countWall_carved_lt (Maze.rows this) (Maze.cols this) _ _ _ _ E2)
      as Hlt.
    unfold interior in Hint.
    rewrite <- Hlt in H; [simpl in Hfuel; lia| |lia|lia].
    rewrite (wallAt_carved _ _ _ _ _ _ E1).
    rewrite decide_False by lia. done.
Qed.

(** [generate] never stops for lack of fuel. *)
Lemma generate_fuel rnd this : Maze.generate rnd this <> OutOfFuel.
Proof.
  unfold Maze.generate. cbn zeta.
  match goal with |- context [Maze.grid_set ?g0 ?r ?c ?v ≫= _] =>
    pose proof (grid_set_fuel g0 r c v) as Hs;
    destruct (Maze.grid_set g0 r c v) as [g| |] end;
    cbn [mbind result_bind]; [|done..].
  match goal with |- context [Maze.carve ?f ?r ?k ?t ?s] =>
    pose proof (carve_fuel f r k t s) as Hc;
    destruct (Maze.carve f r k t s) as [m| |] end; cbn [mbind result_bind].
  - unfold Maze.relocate_goal.
    repeat (match goal with
            | |- context [Maze.grid_get ?g ?r ?c] =>
                pose proof (grid_get_fuel g r c);
                destruct (Maze.grid_get g r c)
            | |- context [if ?b then _ else _] => destruct b
            end; cbn [mbind result_bind]; try done).
  - done.
  - exfalso. apply Hc; [|done].
    unfold Maze.fuel_for, Maze.set_grid. cbn [Maze.rows Maze.cols Maze.grid length].
    pose proof (sum_list_with_b2n_le (fun p => wallAt g p.1 p.2)
                  (cells (Maze.rows this) (Maze.cols this))) as Hle.
    rewrite length_cells in Hle. unfold countWall. lia.
Qed.

(** ** The grid before the loop *)

Lemma sum_list_with_zero {A} (f : A -> nat) (l : list A) :
  (forall a, a ∈ l -> f a = 0%nat) -> sum_list_with f l = 0%nat.
Proof.
  induction l as [|a l IH]; intros H; simpl; [done|].
  rewrite H by left. rewrite IH; [done|]. intros b Hb. apply H. by right.
Qed.

Lemma pathAt_init_grid rows cols r c :
  pathAt (Maze.init_grid ∅ rows cols) r c = false.
Proof.
  apply pathAt_false. rewrite cellv_init_grid. case_decide; vcong.
Qed.

Lemma carve_inv_init rows cols g :
  3 <= rows -> 3 <= cols ->
  carved (Maze.init_grid ∅ rows cols) g 1 1 ->
  (forall r, is_Some (Maze.init_grid ∅ rows cols !! r) -> is_Some (g !! r)) ->
  carve_inv rows cols g [Maze.mkCell 1 1].
Proof.
  intros Hrows Hcols Hc Hkeep.
  assert (Hg : forall r c, cellv g r c =
    if decide (r = 1 /\ c = 1) then Some 0
    else if decide (0 <= r < rows /\ 0 <= c < cols) then Some 1 else None).
  { intros r c. rewrite Hc. case_decide; [done|]. apply cellv_init_grid. }
  assert (Hp : forall r c, cellv g r c = Some 0 -> r = 1 /\ c = 1).
  { intros r c. rewrite Hg. repeat case_decide; [done|vcong|vcong]. }
  split; unfold interior, Maze.PATH, Maze.WALL.
  - intros r Hr. apply Hkeep. rewrite init_grid_rows. rewrite decide_True by done. eauto.
  - intros r c Hr Hc'. rewrite Hg. case_decide; [by right|].
    rewrite decide_True by done. by left.
  - intros r c H. apply Hp in H as [-> ->]. split; [lia|by left].
  - intros r c dr dc Hr Hc' Hd H. apply Hp in H. exfalso. zlia.
  - intros p Hp'. apply list_elem_of_singleton in Hp' as ->. simpl.
    split; [done|]. split; [done|]. rewrite Hg. by rewrite decide_True.
  - rewrite Hg. by rewrite decide_True.
  - intros r c H. apply Hp in H as [-> ->]. apply reach_start.
    unfold Maze.PATH. rewrite Hg. by rewrite decide_True.
  - intros r c _ _ H. apply Hp in H as [-> ->]. left. by left.
  - rewrite (countPath_carved rows cols _ g 1 1 Hc); [| |lia|lia].
    2:{ apply pathAt_init_grid. }
    rewrite (links_carved rows cols _ g 1 1 Hc); [| |lia|lia|].
    2:{ apply pathAt_init_grid. }
    2:{ intros r c H. by rewrite pathAt_init_grid in H. }
    rewrite !pathAt_init_grid. simpl.
    unfold links, countPath.
    rewrite !sum_list_with_zero; [done| |].
    + intros [r c] _. simpl. by rewrite pathAt_init_grid.
    + intros [r c] _. simpl. by rewrite !pathAt_init_grid.
  - intros r c Ho. rewrite Hg. rewrite !decide_False by lia. done.
Qed.

(** The post-check on a grid whose rows exist. *)
Lemma relocate_goal_spec (this : Maze.t) :
  rows_exist this ->
  1 <= Maze.y (Maze.goal this) < Maze.rows this ->
  let g := Maze.grid this in
  let gx := Maze.x (Maze.goal this) in
  let gy := Maze.y (Maze.goal this) in
  Maze.relocate_goal this = Ok (Maze.set_goal this
    (if wallAt g gy gx
     then if pathAt g gy (gx - 1) then Maze.mkPos (gx - 1) gy
          else if pathAt g (gy - 1) gx then Maze.mkPos gx (gy - 1)
          else Maze.goal this
     else Maze.goal this)).
Proof.
  intros Hrows Hy. cbn zeta. unfold Maze.relocate_goal.
  set (g := Maze.grid this). set (gx := Maze.x (Maze.goal this)).
  set (gy := Maze.y (Maze.goal this)).
  rewrite (grid_get_cellv g gy gx) by (apply Hrows; lia).
  rewrite (grid_get_cellv g gy (gx - 1)) by (apply Hrows; lia).
  rewrite (grid_get_cellv g (gy - 1) gx) by (apply Hrows; lia).
  cbn [mbind result_bind].
  change (Maze.is_val Maze.WALL (cellv g gy gx)) with (wallAt g gy gx).
  change (Maze.is_val Maze.PATH (cellv g gy (gx - 1))) with (pathAt g gy (gx - 1)).
  change (Maze.is_val Maze.PATH (cellv g (gy - 1) gx)) with (pathAt g (gy - 1) gx).
  destruct (wallAt g gy gx); [|by destruct this].
  destruct (pathAt g gy (gx - 1)); [done|].
  destruct (pathAt g (gy - 1) gx); [done|by destruct this].
Qed.

(** Construction with at least 3 rows and 3 columns: the loop ends with the
    invariant on an empty stack, and the post-check returns the maze. *)
Lemma new_carved rnd cols rows :
  3 <= cols -> 3 <= rows ->
  exists g',
    carve_inv rows cols g' [] /\
    Maze.new rnd cols rows
    = Maze.relocate_goal
        (Maze.mk cols rows g' (Maze.mkPos 1 1) (Maze.mkPos (cols - 2) (rows - 2))).
Proof.
  intros Hcols Hrows. unfold Maze.new, Maze.generate.
  cbn [Maze.set_grid Maze.grid Maze.rows Maze.cols Maze.start Maze.goal].
  destruct (grid_set_carved (Maze.init_grid ∅ rows cols) 1 1) as (g & E & Hc & Hk).
  { rewrite init_grid_rows. rewrite decide_True by lia. eauto. }
  rewrite E. cbn [mbind result_bind].
  pose proof (carve_inv_init rows cols g Hrows Hcols Hc Hk) as Hinv.
  unfold Maze.fuel_for, Maze.set_grid.
  cbn [Maze.grid Maze.rows Maze.cols Maze.start Maze.goal].
  set (this := Maze.mk cols rows g (Maze.mkPos 1 1) (Maze.mkPos (cols - 2) (rows - 2))).
  destruct (carve_ok (2 * (Z.to_nat rows * Z.to_nat cols) + 2)
              rnd 0%nat this [Maze.mkCell 1 1]) as (g' & E' & Hfin).
  - done.
  - cbn [Maze.rows Maze.cols Maze.grid this].
    rewrite length_cells. simpl. lia.
  - exists g'. split; [done|]. rewrite E'. done.
Qed.

(** ** The maze after the loop *)

(** With the stack empty every odd cell inside the border has been carved:
    walk down the first column from the start cell, then right along the
    row. *)
Lemma odd_cells_path rows cols g r c :
  carve_inv rows cols g [] ->
  interior rows cols r c -> r mod 2 = 1 -> c mod 2 = 1 ->
  cellv g r c = Some Maze.PATH.
Proof.
  intros Hinv.
  assert (Hstep : forall r c d, r mod 2 = 1 -> c mod 2 = 1 ->
    cellv g r c = Some Maze.PATH -> d ∈ Maze.directions ->
    interior rows cols (r + Maze.r d) (c + Maze.c d) ->
    cellv g (r + Maze.r d) (c + Maze.c d) = Some Maze.PATH).
  { intros r' c' d Hr Hc Hp Hd Hi.
    destruct (inv_closed _ _ _ _ Hinv r' c' Hr Hc Hp) as [Hs|Hcl].
    - by apply elem_of_nil in Hs.
    - by apply Hcl. }
  assert (Hcol : forall i : nat, interior rows cols (1 + 2 * Z.of_nat i) 1 ->
    cellv g (1 + 2 * Z.of_nat i) 1 = Some Maze.PATH).
  { induction i as [|i IH]; intros Hi.
    - apply (inv_start _ _ _ _ Hinv).
    - replace (1 + 2 * Z.of_nat (S i)) with (1 + 2 * Z.of_nat i + 2) by lia.
      replace 1 with (1 + 0) at 2 by lia.
      apply (Hstep _ _ (Maze.mkCell 2 0)); simpl.
      + zlia.
      + done.
      + apply IH. unfold interior in *. lia.
      + unfold Maze.directions. set_solver.
      + unfold interior in *. lia. }
  assert (Hall : forall j i : nat,
    interior rows cols (1 + 2 * Z.of_nat i) (1 + 2 * Z.of_nat j) ->
    cellv g (1 + 2 * Z.of_nat i) (1 + 2 * Z.of_nat j) = Some Maze.PATH).
  { induction j as [|j IH]; intros i Hi.
    - apply Hcol. unfold interior in *. lia.
    - replace (1 + 2 * Z.of_nat (S j)) with (1 + 2 * Z.of_nat j + 2) by lia.
      replace (1 + 2 * Z.of_nat i) with (1 + 2 * Z.of_nat i + 0) by lia.
      apply (Hstep _ _ (Maze.mkCell 0 2)); simpl.
      + zlia.
      + zlia.
      + apply IH. unfold interior in *. lia.
      + unfold Maze.directions. set_solver.
      + unfold interior in *. lia. }
  intros Hi Hr Hc.
  replace r with (1 + 2 * Z.of_nat (Z.to_nat ((r - 1) / 2)))
    by (unfold interior in Hi; zlia).
  replace c with (1 + 2 * Z.of_nat (Z.to_nat ((c - 1) / 2)))
    by (unfold interior in Hi; zlia).
  apply Hall.
  unfold interior in *.
  replace (1 + 2 * Z.of_nat (Z.to_nat ((r - 1) / 2))) with r by zlia.
  replace (1 + 2 * Z.of_nat (Z.to_nat ((c - 1) / 2))) with c by zlia.
  done.
Qed.

Lemma border_wall rows cols g stack r c :
  carve_inv rows cols g stack ->
  0 <= r < rows -> 0 <= c < cols ->
  r = 0 \/ r = rows - 1 \/ c = 0 \/ c = cols - 1 ->
  cellv g r c = Some Maze.WALL.
Proof.
  intros Hinv Hr Hc Hb.
  destruct (inv_vals _ _ _ _ Hinv r c Hr Hc) as [H|H]; [done|].
  apply (inv_shape _ _ _ _ Hinv) in H as [Hi _]. unfold interior in Hi. lia.
Qed.

(** What the constructor returns for at least 3 rows and 3 columns. *)
Lemma new_spec rnd cols rows :
  3 <= cols -> 3 <= rows ->
  exists m,
    Maze.new rnd cols rows = Ok m /\
    Maze.cols m = cols /\ Maze.rows m = rows /\
    Maze.start m = Maze.mkPos 1 1 /\
    carve_inv rows cols (Maze.grid m) [] /\
    Maze.goal m =
      (if wallAt (Maze.grid m) (rows - 2) (cols - 2)
       then if pathAt (Maze.grid m) (rows - 2) (cols - 2 - 1)
            then Maze.mkPos (cols - 2 - 1) (rows - 2)
            else if pathAt (Maze.grid m) (rows - 2 - 1) (cols - 2)
            then Maze.mkPos (cols - 2) (rows - 2 - 1)
            else Maze.mkPos (cols - 2) (rows - 2)
       else Maze.mkPos (cols - 2) (rows - 2)).
Proof.
  intros Hcols Hrows.
  destruct (new_carved rnd cols rows Hcols Hrows) as (g' & Hinv & E).
  rewrite relocate_goal_spec in E.
  - eexists. split; [exact E|]. by cbn.
  - intros r Hr. by apply (inv_rows _ _ _ _ Hinv).
  - simpl. lia.
Qed.

Lemma odd_mod2 z : Z.odd z = true -> z mod 2 = 1.
Proof. intros H. rewrite Zmod_odd. by rewrite H. Qed.

(** For odd dimensions the designated goal is an odd cell inside the border:
    it has been carved and the post-check keeps it. *)
Lemma new_spec_odd rnd cols rows :
  Z.odd cols = true -> Z.odd rows = true -> 5 <= cols -> 5 <= rows ->
  exists m,
    Maze.new rnd cols rows = Ok m /\
    Maze.cols m = cols /\ Maze.rows m = rows /\
    Maze.start m = Maze.mkPos 1 1 /\
    Maze.goal m = Maze.mkPos (cols - 2) (rows - 2) /\
    cellv (Maze.grid m) (rows - 2) (cols - 2) = Some Maze.PATH /\
    carve_inv rows cols (Maze.grid m) [].
Proof.
  intros Hoc Hor Hcols Hrows.
  destruct (new_spec rnd cols rows) as (m & E & Hc & Hr & Hs & Hinv & Hg); [lia|lia|].
  assert (Hp : cellv (Maze.grid m) (rows - 2) (cols - 2) = Some Maze.PATH).
  { apply (odd_cells_path rows cols); [done|unfold interior; lia|..].
    - apply odd_mod2 in Hor. zlia.
    - apply odd_mod2 in Hoc. zlia. }
  assert (Hw : wallAt (Maze.grid m) (rows - 2) (cols - 2) = false).
  { apply bool_decide_eq_false. rewrite Hp. done. }
  rewrite Hw in Hg. by exists m.
Qed.

(** ** Sample runs of the constructor *)

(** With the samples 0, 1, 2, ... the 5 x 5 maze is carved down, right and
    up from the start cell; it has 7 PATH cells and 6 links. *)
Example new_5_5 :
  match Maze.new (fun k => k) 5 5 with
  | Ok m =>
      grid_rows m =
        [ [Some 1; Some 1; Some 1; Some 1; Some 1];
          [Some 1; Some 0; Some 1; Some 0; Some 1];
          [Some 1; Some 0; Some 1; Some 0; Some 1];
          [Some 1; Some 0; Some 0; Some 0; Some 1];
          [Some 1; Some 1; Some 1; Some 1; Some 1] ]
      /\ Maze.goal m = Maze.mkPos 3 3
      /\ countPath 5 5 (Maze.grid m) = 7%nat
      /\ links 5 5 (Maze.grid m) = 6%nat
  | _ => False
  end.
Proof. vm_compute. auto. Qed.

(** With 6 columns and 6 rows the last inner row and column stay walls and
    the goal (4, 4) is a wall that the post-check cannot move. *)
Example new_6_6 :
  match Maze.new (fun k => (7 * k + 3)%nat) 6 6 with
  | Ok m =>
      grid_rows m =
        [ [Some 1; Some 1; Some 1; Some 1; Some 1; Some 1];
          [Some 1; Some 0; Some 0; Some 0; Some 1; Some 1];
          [Some 1; Some 1; Some 1; Some 0; Some 1; Some 1];
          [Some 1; Some 0; Some 0; Some 0; Some 1; Some 1];
          [Some 1; Some 1; Some 1; Some 1; Some 1; Some 1];
          [Some 1; Some 1; Some 1; Some 1; Some 1; Some 1] ]
      /\ Maze.goal m = Maze.mkPos 4 4
  | _ => False
  end.
Proof. vm_compute. auto. Qed.

Example new_3_3 : Maze.new (fun k => k) 3 3 = Ok maze3.
Proof. vm_compute. reflexivity. Qed.

(** Without a row 1 the first write throws; with two rows the post-check
    reads row -1. *)
Example new_3_1 : Maze.new (fun k => k) 3 1 = TypeError.
Proof. vm_compute. reflexivity. Qed.

Example new_3_2 : Maze.new (fun k => k) 3 2 = TypeError.
Proof. vm_compute. reflexivity. Qed.

(** ** Properties of the generated maze *)

(** C1 (perfect maze).  For odd [cols], [rows] >= 5 the constructor returns a
    maze in which every cell inside the border whose row and column are both
    odd is PATH, every PATH cell is reached by the flood fill from the start
    cell (1,1), and the PATH cells form a tree: the number of links between
    neighbouring PATH cells is the number of PATH cells minus one. *)
Theorem generate_perfect_maze (rnd : nat -> nat) (cols rows : Z) :
  Z.odd cols = true -> Z.odd rows = true -> 5 <= cols -> 5 <= rows ->
  exists m,
    Maze.new rnd cols rows = Ok m /\
    (forall r c, 0 < r < rows - 1 -> 0 < c < cols - 1 ->
       Z.odd r = true -> Z.odd c = true ->
       cellv (Maze.grid m) r c = Some Maze.PATH) /\
    (forall r c, cellv (Maze.grid m) r c = Some Maze.PATH ->
       reach (Maze.grid m) r c) /\
    Z.of_nat (links rows cols (Maze.grid m))
    = Z.of_nat (countPath rows cols (Maze.grid m)) - 1.
Proof.
  intros _ _ Hcols Hrows.
  destruct (new_spec rnd cols rows) as (m & E & _ & _ & _ & Hinv & _); [lia|lia|].
  exists m. split; [done|]. split; [|split].
  - intros r c Hr Hc Hor Hoc.
    apply (odd_cells_path rows cols); [done|done|by apply odd_mod2..].
  - apply (inv_reach _ _ _ _ Hinv).
  - pose proof (inv_count _ _ _ _ Hinv). lia.
Qed.

Lemma generate_perfect_maze_witness :
  Z.odd 5 = true /\ Z.odd 7 = true /\ 5 <= 5 /\ 5 <= 7 /\
  exists m,
    Maze.new (fun k => k) 5 7 = Ok m /\
    (forall r c, 0 < r < 7 - 1 -> 0 < c < 5 - 1 ->
       Z.odd r = true -> Z.odd c = true ->
       cellv (Maze.grid m) r c = Some Maze.PATH) /\
    (forall r c, cellv (Maze.grid m) r c = Some Maze.PATH ->
       reach (Maze.grid m) r c) /\
    Z.of_nat (links 7 5 (Maze.grid m))
    = Z.of_nat (countPath 7 5 (Maze.grid m)) - 1.
Proof.
  split; [reflexivity|]. split; [reflexivity|]. split; [lia|]. split; [lia|].
  apply (generate_perfect_maze (fun k => k) 5 7); [reflexivity|reflexivity|lia|lia].
Defined.

(** C4 (border).  For odd [cols], [rows] >= 5 every cell of row 0, row
    [rows - 1], column 0 and column [cols - 1] of the generated grid is
    WALL. *)
Theorem generate_border_wall (rnd : nat -> nat) (cols rows : Z) :
  Z.odd cols = true -> Z.odd rows = true -> 5 <= cols -> 5 <= rows ->
  exists m,
    Maze.new rnd cols rows = Ok m /\
    forall r c, 0 <= r < rows -> 0 <= c < cols ->
      r = 0 \/ r = rows - 1 \/ c = 0 \/ c = cols - 1 ->
      cellv (Maze.grid m) r c = Some Maze.WALL.
Proof.
  intros _ _ Hcols Hrows.
  destruct (new_spec rnd cols rows) as (m & E & _ & _ & _ & Hinv & _); [lia|lia|].
  exists m. split; [done|]. intros r c. by apply border_wall with (stack := []).
Qed.

Lemma generate_border_wall_witness :
  Z.odd 7 = true /\ Z.odd 5 = true /\ 5 <= 7 /\ 5 <= 5 /\
  exists m,
    Maze.new (fun k => (3 * k + 1)%nat) 7 5 = Ok m /\
    forall r c, 0 <= r < 5 -> 0 <= c < 7 ->
      r = 0 \/ r = 5 - 1 \/ c = 0 \/ c = 7 - 1 ->
      cellv (Maze.grid m) r c = Some Maze.WALL.
Proof.
  split; [reflexivity|]. split; [reflexivity|]. split; [lia|]. split; [lia|].
  apply (generate_border_wall (fun k => (3 * k + 1)%nat) 7 5);
    [reflexivity|reflexivity|lia|lia].
Defined.

(** C5 (goal).  For odd [cols], [rows] >= 5 the goal stored in the maze
    after the post-check of [generate] is a PATH cell: it is the designated
    cell ([cols - 2], [rows - 2]), which the carving has reached.  The
    post-check itself, on any maze whose rows exist, moves a goal that is
    WALL to the cell on its left when that one is PATH, otherwise to the
    cell above when that one is PATH, and otherwise leaves it. *)
Theorem generate_goal_path (rnd : nat -> nat) (cols rows : Z) :
  Z.odd cols = true -> Z.odd rows = true -> 5 <= cols -> 5 <= rows ->
  (exists m,
    Maze.new rnd cols rows = Ok m /\
    Maze.goal m = Maze.mkPos (cols - 2) (rows - 2) /\
    cellv (Maze.grid m) (Maze.y (Maze.goal m)) (Maze.x (Maze.goal m))
    = Some Maze.PATH) /\
  (forall this : Maze.t,
    rows_exist this -> 1 <= Maze.y (Maze.goal this) < Maze.rows this ->
    let g := Maze.grid this in
    let gx := Maze.x (Maze.goal this) in
    let gy := Maze.y (Maze.goal this) in
    Maze.relocate_goal this = Ok (Maze.set_goal this
      (if wallAt g gy gx
       then if pathAt g gy (gx - 1) then Maze.mkPos (gx - 1) gy
            else if pathAt g (gy - 1) gx then Maze.mkPos gx (gy - 1)
            else Maze.goal this
       else Maze.goal this))).
Proof.
  intros Hoc Hor Hcols Hrows. split; [|apply relocate_goal_spec].
  destruct (new_spec_odd rnd cols rows) as (m & E & _ & _ & _ & Hg & Hp & _);
    [done..|].
  exists m. split; [done|]. split; [done|]. by rewrite Hg.
Qed.

Lemma generate_goal_path_witness :
  Z.odd 5 = true /\ Z.odd 5 = true /\ 5 <= 5 /\ 5 <= 5 /\
  exists m,
    Maze.new (fun k => 0%nat) 5 5 = Ok m /\
    Maze.goal m = Maze.mkPos (5 - 2) (5 - 2) /\
    cellv (Maze.grid m) (Maze.y (Maze.goal m)) (Maze.x (Maze.goal m))
    = Some Maze.PATH.
Proof.
  split; [reflexivity|]. split; [reflexivity|]. split; [lia|]. split; [lia|].
  apply (generate_goal_path (fun k => 0%nat) 5 5); [reflexivity|reflexivity|lia|lia].
Defined.

(** C3, as the code has it.  The constructor does not validate its
    arguments: for every [cols] and [rows] of at least 3, even or odd, below
    5 or not, it returns a maze that stores the dimensions as given, with a
    grid of exactly [rows] x [cols] cells (nothing is rejected, nothing is
    corrected). *)
Theorem constructor_accepts_any_geometry (rnd : nat -> nat) (cols rows : Z) :
  3 <= cols -> 3 <= rows ->
  exists m,
    Maze.new rnd cols rows = Ok m /\
    Maze.cols m = cols /\ Maze.rows m = rows /\
    forall r c, is_Some (cellv (Maze.grid m) r c)
                <-> (0 <= r < rows /\ 0 <= c < cols).
Proof.
  intros Hcols Hrows.
  destruct (new_spec rnd cols rows) as (m & E & Hc & Hr & _ & Hinv & _); [lia|lia|].
  exists m. split; [done|]. split; [done|]. split; [done|].
  intros r c. split.
  - intros [v Hv]. destruct (decide (0 <= r < rows /\ 0 <= c < cols)); [done|].
    rewrite (inv_out _ _ _ _ Hinv) in Hv; done.
  - intros [H1 H2]. destruct (inv_vals _ _ _ _ Hinv r c H1 H2) as [-> | ->]; eauto.
Qed.

Lemma constructor_accepts_any_geometry_witness :
  3 <= 4 /\ 3 <= 3 /\
  exists m,
    Maze.new (fun k => k) 4 3 = Ok m /\
    Maze.cols m = 4 /\ Maze.rows m = 3 /\
    forall r c, is_Some (cellv (Maze.grid m) r c)
                <-> (0 <= r < 3 /\ 0 <= c < 4).
Proof.
  split; [lia|]. split; [lia|].
  apply (constructor_accepts_any_geometry (fun k => k) 4 3); lia.
Defined.

(** C3, counterexample.  Constructing a maze with 4 columns and 4 rows (even,
    and below 5) is not rejected: the constructor returns a maze of 4 x 4
    cells, with the dimensions as given; its only PATH cell is the start
    cell, and its goal (2, 2) is left on a wall. *)
Lemma constructor_even_small_not_rejected :
  exists m,
    Maze.new (fun k => k) 4 4 = Ok m /\
    Maze.cols m = 4 /\ Maze.rows m = 4 /\
    grid_rows m =
      [ [Some 1; Some 1; Some 1; Some 1];
        [Some 1; Some 0; Some 1; Some 1];
        [Some 1; Some 1; Some 1; Some 1];
        [Some 1; Some 1; Some 1; Some 1] ] /\
    Maze.goal m = Maze.mkPos 2 2.
Proof.
  eexists. split; [vm_compute; reflexivity|]. vm_compute. auto.
Qed.

(** ** Collision resolution *)

Section Collision.
#[local] Open Scope R_scope.

Lemma foldM_noop {A S} (f : S -> A -> result S) (s : S) (l : list A) :
  (forall a, a ∈ l -> f s a = Ok s) -> foldM f s l = Ok s.
Proof.
  induction l as [|a l IH]; intros H; [done|].
  cbn [foldM]. rewrite H by left. cbn [mbind result_bind].
  apply IH. intros b Hb. apply H. by right.
Qed.

Lemma distanceSq_nonneg ball rx ry rs : 0 <= Maze.distanceSq ball rx ry rs.
Proof.
  unfold Maze.distanceSq. cbn zeta.
  set (dx := Ball.x _ - _). set (dy := Ball.y _ - _). nra.
Qed.

Lemma distance_sqr ball rx ry rs :
  Maze.distance ball rx ry rs * Maze.distance ball rx ry rs
  = Maze.distanceSq ball rx ry rs.
Proof. unfold Maze.distance. apply sqrt_sqrt, distanceSq_nonneg. Qed.

(** The two guards of line 173, in terms of the distance. *)
Lemma overlap_guard ball rx ry rs :
  0 < Maze.distance ball rx ry rs < Ball.radius ball ->
  Maze.distanceSq ball rx ry rs < Ball.radius ball * Ball.radius ball
  /\ 0 < Maze.distanceSq ball rx ry rs.
Proof.
  intros [Hd Hr]. rewrite <- distance_sqr. split; nra.
Qed.

Lemma no_overlap_guard ball rx ry rs :
  0 <= Ball.radius ball ->
  Ball.radius ball <= Maze.distance ball rx ry rs ->
  ~ Maze.distanceSq ball rx ry rs < Ball.radius ball * Ball.radius ball.
Proof.
  intros H0 Hr. rewrite <- distance_sqr. nra.
Qed.

Lemma resolve_unfold this ball rx ry rs :
  Maze.resolveCollision this ball rx ry rs =
    let nx := Maze.normalX ball rx ry rs in
    let ny := Maze.normalY ball rx ry rs in
    let overlap := Ball.radius ball - Maze.distance ball rx ry rs in
    let dot := Ball.vx ball * nx + Ball.vy ball * ny in
    if bool_decide (Maze.distanceSq ball rx ry rs < Ball.radius ball * Ball.radius ball)
       && bool_decide (0 < Maze.distanceSq ball rx ry rs)
    then
      if bool_decide (dot < 0)
      then (this, Ball.mk (Ball.x ball + nx * overlap) (Ball.y ball + ny * overlap)
                          (Ball.vx ball - (1 + 0.5) * dot * nx)
                          (Ball.vy ball - (1 + 0.5) * dot * ny)
                          (Ball.radius ball))
      else (this, Ball.mk (Ball.x ball + nx * overlap) (Ball.y ball + ny * overlap)
                          (Ball.vx ball) (Ball.vy ball) (Ball.radius ball))
    else (this, ball).
Proof. reflexivity. Qed.

(** The distance is at least its part on each axis. *)
Lemma distance_ge_dx ball rx ry rs :
  Rabs (Ball.x ball - Maze.closestX ball rx rs) <= Maze.distance ball rx ry rs.
Proof.
  unfold Maze.distance, Maze.distanceSq. fold (Maze.closestX ball rx rs).
  fold (Maze.closestY ball ry rs). cbn zeta.
  set (dx := Ball.x ball - _). set (dy := Ball.y ball - _).
  rewrite <- sqrt_Rsqr_abs. apply sqrt_le_1_alt. unfold Rsqr. nra.
Qed.

Lemma distance_ge_dy ball rx ry rs :
  Rabs (Ball.y ball - Maze.closestY ball ry rs) <= Maze.distance ball rx ry rs.
Proof.
  unfold Maze.distance, Maze.distanceSq. fold (Maze.closestX ball rx rs).
  fold (Maze.closestY ball ry rs). cbn zeta.
  set (dx := Ball.x ball - _). set (dy := Ball.y ball - _).
  rewrite <- sqrt_Rsqr_abs. apply sqrt_le_1_alt. unfold Rsqr. nra.
Qed.

Lemma resolve_no_overlap this ball rx ry rs :
  0 <= Ball.radius ball ->
  Ball.radius ball <= Maze.distance ball rx ry rs ->
  Maze.resolveCollision this ball rx ry rs = (this, ball).
Proof.
  intros H0 Hr. rewrite resolve_unfold. cbn zeta.
  rewrite (bool_decide_eq_false_2 _ (no_overlap_guard _ _ _ _ H0 Hr)). done.
Qed.

Lemma resolve_maze this ball rx ry rs :
  fst (Maze.resolveCollision this ball rx ry rs) = this.
Proof.
  rewrite resolve_unfold. cbn zeta.
  repeat (match goal with |- context [bool_decide ?P] => destruct (bool_decide P) end;
          simpl; try done).
Qed.

(** Moving a point away from its clamp keeps the clamp. *)
Lemma clamp_push (lo hi x k : R) :
  0 <= k ->
  Rmax lo (Rmin (x + (x - Rmax lo (Rmin x hi)) * k) hi) = Rmax lo (Rmin x hi).
Proof.
  intros Hk. unfold Rmax, Rmin. case_Rle; try lra; try nra.
Qed.

Lemma normal_unit ball rx ry rs :
  0 < Maze.distance ball rx ry rs ->
  Maze.normalX ball rx ry rs * Maze.normalX ball rx ry rs
  + Maze.normalY ball rx ry rs * Maze.normalY ball rx ry rs = 1.
Proof.
  intros Hd. unfold Maze.normalX, Maze.normalY.
  pose proof (distance_sqr ball rx ry rs) as Hs.
  unfold Maze.distanceSq in Hs. cbn zeta in Hs.
  set (d := Maze.distance ball rx ry rs) in *.
  set (dx := Ball.x ball - Maze.closestX ball rx rs) in *.
  set (dy := Ball.y ball - Maze.closestY ball ry rs) in *.
  replace (dx / d * (dx / d) + dy / d * (dy / d))
    with ((dx * dx + dy * dy) / (d * d)) by (field; lra).
  rewrite <- Hs. field. lra.
Qed.

Lemma solid_total this r c :
  rows_exist this -> exists b, Maze.solid this r c = Ok b.
Proof.
  intros Hrows. unfold Maze.solid.
  destruct ((r <? 0)%Z || (Maze.rows this <=? r)%Z || (c <? 0)%Z
            || (Maze.cols this <=? c)%Z) eqn:E; [eauto|].
  rewrite grid_get_cellv; [cbn; eauto|].
  apply Hrows.
  apply orb_false_elim in E as [E _]. apply orb_false_elim in E as [E _].
  apply orb_false_elim in E as [E1 E2].
  apply Z.ltb_ge in E1. apply Z.leb_gt in E2. lia.
Qed.

Lemma check_cell_maze cs r s c s' :
  Maze.check_cell cs r s c = Ok s' -> fst s' = fst s.
Proof.
  unfold Maze.check_cell. destruct (Maze.solid (fst s) r c) as [[]| |]; cbn; try done.
  - intros [= <-]. apply resolve_maze.
  - by intros [= <-].
Qed.

Lemma foldM_preserved {A S T} (f : S -> A -> result S) (p : S -> T) (l : list A) :
  (forall s a s', f s a = Ok s' -> p s' = p s) ->
  forall s s', foldM f s l = Ok s' -> p s' = p s.
Proof.
  intros Hf. induction l as [|a l IH]; intros s s'; cbn [foldM].
  - by intros [= <-].
  - destruct (f s a) as [s1| |] eqn:E; cbn; try done.
    intros H. rewrite (IH _ _ H). by apply (Hf s a).
Qed.

(** For a cell size other than 0, [checkCollision] is its two loops. *)
Lemma checkCollision_nonzero this ball cs :
  cs <> 0 ->
  Maze.checkCollision this ball cs =
  foldM (fun s r =>
           foldM (Maze.check_cell cs r) s
                 (seqZ (Maze.minC ball cs) (Maze.maxC ball cs - Maze.minC ball cs + 1)))
        (this, ball)
        (seqZ (Maze.minR ball cs) (Maze.maxR ball cs - Maze.minR ball cs + 1)).
Proof.
  intros Hcs. unfold Maze.checkCollision. by rewrite bool_decide_eq_false_2.
Qed.

Lemma checkCollision_maze this ball cs s :
  Maze.checkCollision this ball cs = Ok s -> fst s = this.
Proof.
  unfold Maze.checkCollision. cbn zeta. case_bool_decide as Hcs.
  { destruct (Maze.le_nonfinite _ _); [done|]. by intros [= <-]. }
  intros H.
  apply (foldM_preserved _ fst) in H; [done|].
  intros s0 r s1 Hr.
  apply (foldM_preserved _ fst) in Hr; [done|].
  intros s2 c s3. apply check_cell_maze.
Qed.

Lemma checkCollision_noop this ball cs :
  cs <> 0 ->
  0 <= Ball.radius ball ->
  rows_exist this ->
  (forall r c, Maze.solid this r c = Ok true ->
     Ball.radius ball <= Maze.distance ball (IZR c * cs) (IZR r * cs) cs) ->
  Maze.checkCollision this ball cs = Ok (this, ball).
Proof.
  intros Hcs H0 Hrows Hfree. rewrite checkCollision_nonzero by done.
  apply foldM_noop. intros r _. apply foldM_noop. intros c _.
  unfold Maze.check_cell. cbn [fst snd].
  destruct (solid_total this r c Hrows) as [[] E]; rewrite E; cbn; [|done].
  rewrite resolve_no_overlap; [done|done|]. by apply Hfree.
Qed.

End Collision.

Section CollisionTheorems.
#[local] Open Scope R_scope.

Lemma resolve_overlap this ball rx ry rs :
  0 < Maze.distance ball rx ry rs < Ball.radius ball ->
  let nx := Maze.normalX ball rx ry rs in
  let ny := Maze.normalY ball rx ry rs in
  let overlap := Ball.radius ball - Maze.distance ball rx ry rs in
  let dot := Ball.vx ball * nx + Ball.vy ball * ny in
  Maze.resolveCollision this ball rx ry rs =
    if bool_decide (dot < 0)
    then (this, Ball.mk (Ball.x ball + nx * overlap) (Ball.y ball + ny * overlap)
                        (Ball.vx ball - (1 + 0.5) * dot * nx)
                        (Ball.vy ball - (1 + 0.5) * dot * ny)
                        (Ball.radius ball))
    else (this, Ball.mk (Ball.x ball + nx * overlap) (Ball.y ball + ny * overlap)
                        (Ball.vx ball) (Ball.vy ball) (Ball.radius ball)).
Proof.
  intros Hd. cbn zeta. rewrite resolve_unfold. cbn zeta.
  destruct (overlap_guard _ _ _ _ Hd) as [H1 H2].
  rewrite (bool_decide_eq_true_2 _ H1), (bool_decide_eq_true_2 _ H2). done.
Qed.


(** C7 (no penetration, one rectangle).  When the circle overlaps the
    rectangle (0 < distance < radius), the resolved circle is at distance
    radius from the closest point of the rectangle, hence not closer than
    radius: its centre has moved along the contact normal, a unit vector,
    by exactly radius - distance. *)
Theorem resolve_pushes_out (this : Maze.t) (ball : Ball.t) (rx ry rs : R) :
  0 < Maze.distance ball rx ry rs < Ball.radius ball ->
  let nx := Maze.normalX ball rx ry rs in
  let ny := Maze.normalY ball rx ry rs in
  let ball' := snd (Maze.resolveCollision this ball rx ry rs) in
  Ball.radius ball' <= Maze.distance ball' rx ry rs /\
  Maze.distance ball' rx ry rs = Ball.radius ball /\
  Ball.radius ball' = Ball.radius ball /\
  Ball.x ball' = Ball.x ball + nx * (Ball.radius ball - Maze.distance ball rx ry rs) /\
  Ball.y ball' = Ball.y ball + ny * (Ball.radius ball - Maze.distance ball rx ry rs) /\
  nx * nx + ny * ny = 1.
Proof.
  intros Hd. cbn zeta.
  set (ball' := snd (Maze.resolveCollision this ball rx ry rs)).
  set (d := Maze.distance ball rx ry rs) in *.
  set (k := (Ball.radius ball - d) / d).
  assert (Hk : 0 <= k).
  { unfold k. apply Rmult_le_pos; [lra|]. apply Rlt_le, Rinv_0_lt_compat. lra. }
  assert (Hpos : Ball.x ball' = Ball.x ball + Maze.normalX ball rx ry rs * (Ball.radius ball - d)
                 /\ Ball.y ball' = Ball.y ball + Maze.normalY ball rx ry rs * (Ball.radius ball - d)
                 /\ Ball.radius ball' = Ball.radius ball).
  { unfold ball'. rewrite (resolve_overlap this ball rx ry rs Hd). cbn zeta.
    destruct (bool_decide _); done. }
  destruct Hpos as (Hx & Hy & Hr).
  assert (Hx' : Ball.x ball' = Ball.x ball + (Ball.x ball - Maze.closestX ball rx rs) * k).
  { rewrite Hx. unfold Maze.normalX, k. fold d. field. lra. }
  assert (Hy' : Ball.y ball' = Ball.y ball + (Ball.y ball - Maze.closestY ball ry rs) * k).
  { rewrite Hy. unfold Maze.normalY, k. fold d. field. lra. }
  assert (Hcx : Maze.closestX ball' rx rs = Maze.closestX ball rx rs).
  { unfold Maze.closestX at 1. rewrite Hx'. unfold Maze.closestX. by apply clamp_push. }
  assert (Hcy : Maze.closestY ball' ry rs = Maze.closestY ball ry rs).
  { unfold Maze.closestY at 1. rewrite Hy'. unfold Maze.closestY. by apply clamp_push. }
  assert (Hdist : Maze.distance ball' rx ry rs = Ball.radius ball).
  { unfold Maze.distance. apply sqrt_lem_1.
    - apply distanceSq_nonneg.
    - lra.
    - unfold Maze.distanceSq. cbn zeta. rewrite Hcx, Hcy, Hx', Hy'.
      pose proof (distance_sqr ball rx ry rs) as Hs. fold d in Hs.
      unfold Maze.distanceSq in Hs. cbn zeta in Hs.
      set (dx := Ball.x ball - Maze.closestX ball rx rs) in *.
      set (dy := Ball.y ball - Maze.closestY ball ry rs) in *.
      replace ((Ball.x ball + dx * k - Maze.closestX ball rx rs)
               * (Ball.x ball + dx * k - Maze.closestX ball rx rs)
               + (Ball.y ball + dy * k - Maze.closestY ball ry rs)
                 * (Ball.y ball + dy * k - Maze.closestY ball ry rs))
        with ((1 + k) * (1 + k) * (dx * dx + dy * dy)) by (unfold dx, dy; ring).
      rewrite <- Hs. unfold k. field. lra. }
  split; [rewrite Hdist, Hr; lra|]. split; [done|]. split; [done|].
  split; [done|]. split; [done|].
  apply normal_unit. unfold d in Hd. lra.
Qed.

(** C8 (degenerate normal).  When the squared distance from the centre of
    the circle to the closest point of the rectangle is 0, resolution
    against that rectangle changes nothing: the position and the velocity
    of the ball are as before. *)
Theorem resolve_skips_zero_distance (this : Maze.t) (ball : Ball.t) (rx ry rs : R) :
  Maze.distanceSq ball rx ry rs = 0 ->
  Maze.resolveCollision this ball rx ry rs = (this, ball).
Proof.
  intros H0. rewrite resolve_unfold. cbn zeta. rewrite H0.
  rewrite (bool_decide_eq_false_2 (0 < 0)) by lra.
  by rewrite andb_false_r.
Qed.

(** The clearance of a ball of non-negative radius is positive. *)
Lemma clearance_pos ball rx ry rs :
  0 <= Ball.radius ball -> 0 < clearance ball rx ry rs.
Proof.
  intros H0. unfold clearance.
  pose proof (Rabs_pos (Ball.x ball)). pose proof (Rabs_pos (Ball.y ball)).
  pose proof (Rabs_pos rx). pose proof (Rabs_pos ry). pose proof (Rabs_pos rs).
  lra.
Qed.

(** C10 (frame), amended.  A ball whose centre is clear of a rectangle, at
    distance at least its radius plus the clearance from the closest point
    of the rectangle, is left unchanged, position and velocity, by the
    resolution against that rectangle; hence a pass of [checkCollision] with
    a positive cell size in which the circle is clear of every cell that is
    outside the grid or WALL returns the ball unchanged; and neither method
    changes the maze (grid, start, goal, dimensions). *)
Theorem collision_frame :
  (forall (this : Maze.t) (ball : Ball.t) (rx ry rs : R),
     0 <= Ball.radius ball ->
     Ball.radius ball + clearance ball rx ry rs <= Maze.distance ball rx ry rs ->
     Maze.resolveCollision this ball rx ry rs = (this, ball)) /\
  (forall (this : Maze.t) (ball : Ball.t) (cellSize : R),
     0 < cellSize ->
     0 <= Ball.radius ball ->
     rows_exist this ->
     (forall r c, Maze.solid this r c = Ok true ->
        Ball.radius ball
        + clearance ball (IZR c * cellSize) (IZR r * cellSize) cellSize
        <= Maze.distance ball (IZR c * cellSize) (IZR r * cellSize) cellSize) ->
     Maze.checkCollision this ball cellSize = Ok (this, ball)) /\
  (forall (this : Maze.t) (ball : Ball.t) (rx ry rs : R),
     fst (Maze.resolveCollision this ball rx ry rs) = this) /\
  (forall (this : Maze.t) (ball : Ball.t) (cellSize : R) s,
     Maze.checkCollision this ball cellSize = Ok s -> fst s = this).
Proof.
  split; [|split; [|split; [exact resolve_maze|exact checkCollision_maze]]].
  - intros this ball rx ry rs H0 Hclear.
    pose proof (clearance_pos ball rx ry rs H0).
    apply resolve_no_overlap; [done|lra].
  - intros this ball cs Hcs H0 Hrows Hclear.
    apply checkCollision_noop; [lra|done|done|].
    intros r c Hs. specialize (Hclear r c Hs).
    pose proof (clearance_pos ball (IZR c * cs) (IZR r * cs) cs H0). lra.
Qed.

End CollisionTheorems.

(** ** Sample collisions *)

Section Samples.
#[local] Open Scope R_scope.

Lemma distance_ball_overlapping : Maze.distance ball_overlapping 0 0 40 = 10.
Proof.
  unfold Maze.distance, Maze.distanceSq, Maze.closestX, Maze.closestY, ball_overlapping.
  cbn [Ball.x Ball.y]. unfold Rmax, Rmin. case_Rle; try lra.
  apply sqrt_lem_1; lra.
Qed.

Lemma overlapping_hyp :
  0 < Maze.distance ball_overlapping 0 0 40 < Ball.radius ball_overlapping.
Proof. rewrite distance_ball_overlapping. simpl. lra. Qed.

Lemma distanceSq_ball_on_edge : Maze.distanceSq ball_on_edge 0 0 40 = 0.
Proof.
  unfold Maze.distanceSq, Maze.closestX, Maze.closestY, ball_on_edge.
  cbn [Ball.x Ball.y]. unfold Rmax, Rmin. case_Rle; lra.
Qed.

Lemma maze3_rows_exist : rows_exist maze3.
Proof.
  intros r Hr. simpl in Hr.
  assert (r = 0 \/ r = 1 \/ r = 2)%Z as [-> | [-> | ->]] by lia;
    vm_compute; eauto.
Qed.

Lemma maze3_free r c :
  Maze.solid maze3 r c = Ok true ->
  Ball.radius ball_centred
  <= Maze.distance ball_centred (IZR c * 40) (IZR r * 40) 40.
Proof.
  intros Hs.
  assert (Hrc : (c <= 0 \/ 2 <= c \/ r <= 0 \/ 2 <= r)%Z).
  { destruct (decide (r = 1%Z /\ c = 1%Z)) as [[-> ->]|]; [|lia].
    vm_compute in Hs. discriminate. }
  apply Rle_trans with (sqrt (14 * 14)); [rewrite sqrt_square; simpl; lra|].
  unfold Maze.distance. apply sqrt_le_1_alt.
  unfold Maze.distanceSq, Maze.closestX, Maze.closestY, ball_centred.
  cbn [Ball.x Ball.y].
  set (dx := 60 - _). set (dy := 60 - _).
  assert (20 <= dx \/ dx <= -20 \/ 20 <= dy \/ dy <= -20) as Hd; [|nra].
  unfold dx, dy. clear dx dy.
  destruct Hrc as [H | [H | [H | H]]]; apply IZR_le in H.
  - left. unfold Rmax, Rmin. case_Rle; lra.
  - right; left. unfold Rmax, Rmin. case_Rle; lra.
  - right; right; left. unfold Rmax, Rmin. case_Rle; lra.
  - right; right; right. unfold Rmax, Rmin. case_Rle; lra.
Qed.


Lemma resolve_pushes_out_witness :
  0 < Maze.distance ball_overlapping 0 0 40 < Ball.radius ball_overlapping /\
  let ball' := snd (Maze.resolveCollision maze3 ball_overlapping 0 0 40) in
  Ball.radius ball' <= Maze.distance ball' 0 0 40 /\
  Maze.distance ball' 0 0 40 = Ball.radius ball_overlapping.
Proof.
  split; [exact overlapping_hyp|].
  pose proof (resolve_pushes_out maze3 ball_overlapping 0 0 40 overlapping_hyp) as H.
  cbn zeta in H |- *. destruct H as (H1 & H2 & _). split; [exact H1|exact H2].
Defined.

Lemma resolve_skips_zero_distance_witness :
  Maze.distanceSq ball_on_edge 0 0 40 = 0 /\
  Maze.resolveCollision maze3 ball_on_edge 0 0 40 = (maze3, ball_on_edge).
Proof.
  split; [exact distanceSq_ball_on_edge|].
  apply (resolve_skips_zero_distance maze3 ball_on_edge 0 0 40).
  exact distanceSq_ball_on_edge.
Defined.

Lemma maze3_clear r c :
  Maze.solid maze3 r c = Ok true ->
  Ball.radius ball_centred + clearance ball_centred (IZR c * 40) (IZR r * 40) 40
  <= Maze.distance ball_centred (IZR c * 40) (IZR r * 40) 40.
Proof.
  intros Hs.
  assert (Hrc : (c <= 0 \/ 2 <= c \/ r <= 0 \/ 2 <= r)%Z).
  { destruct (decide (r = 1%Z /\ c = 1%Z)) as [[-> ->]|]; [|lia].
    vm_compute in Hs. discriminate. }
  pose proof (distance_ge_dx ball_centred (IZR c * 40) (IZR r * 40) 40) as Hx.
  pose proof (distance_ge_dy ball_centred (IZR c * 40) (IZR r * 40) 40) as Hy.
  revert Hx Hy. unfold clearance, Maze.closestX, Maze.closestY, ball_centred.
  cbn [Ball.x Ball.y Ball.radius].
  set (d := Maze.distance _ _ _ _). clearbody d.
  assert (Hc : (c <= 0 \/ c = 1 \/ 2 <= c)%Z) by lia.
  assert (Hr : (r <= 0 \/ r = 1 \/ 2 <= r)%Z) by lia.
  destruct Hc as [Hc | [-> | Hc]]; destruct Hr as [Hr | [-> | Hr]];
    try (exfalso; lia);
    try apply IZR_le in Hc; try apply IZR_le in Hr;
    unfold Rabs, Rmax, Rmin; repeat destruct (Rcase_abs _); case_Rle; lra.
Qed.

Lemma collision_frame_witness :
  Maze.checkCollision maze3 ball_centred 40 = Ok (maze3, ball_centred).
Proof.
  apply (proj1 (proj2 collision_frame) maze3 ball_centred 40).
  - lra.
  - simpl. lra.
  - exact maze3_rows_exist.
  - exact maze3_clear.
Defined.

(** With the cell size 0 the bounds of the rows are both Infinity for a ball
    whose [y - radius] is positive: the pass does not end. *)
Example checkCollision_zero :
  Maze.checkCollision maze3 ball_centred 0 = OutOfFuel.
Proof.
  unfold Maze.checkCollision, Maze.floor_div0, ball_centred.
  cbn [Ball.y Ball.radius].
  rewrite bool_decide_eq_true_2 by done.
  rewrite !(bool_decide_eq_true_2 (0 < _)) by lra. done.
Qed.

(** The exact values of the doubles of the sample at contact. *)
Lemma exact_contact :
  Doubles.exact_ball Doubles.ball_contact
  = Ball.mk (- (3 * 1152921504606847) / 576460752303423488)
            (- (4 * 1152921504606847) / 576460752303423488)
            3 4
            ((5 * 1152921504606847) / 576460752303423488) /\
  Doubles.exact Doubles.cell_origin = 0 /\
  Doubles.exact Doubles.cell_size = 40 /\
  Doubles.exact (Doubles.vx Doubles.ball_bounced) = -1.5 /\
  Doubles.exact (Doubles.vy Doubles.ball_bounced) = -2.
Proof.
  unfold Doubles.exact_ball, Doubles.exact.
  change (Doubles.decode (Doubles.x Doubles.ball_contact))
    with (-6917529027641082, -60)%Z.
  change (Doubles.decode (Doubles.y Doubles.ball_contact))
    with (-4611686018427388, -59)%Z.
  change (Doubles.decode (Doubles.radius Doubles.ball_contact))
    with (5764607523034235, -59)%Z.
  change (Doubles.decode (Doubles.vx Doubles.ball_contact))
    with (6755399441055744, -51)%Z.
  change (Doubles.decode (Doubles.vy Doubles.ball_contact))
    with (4503599627370496, -50)%Z.
  change (Doubles.decode (Doubles.vx Doubles.ball_bounced))
    with (-6755399441055744, -52)%Z.
  change (Doubles.decode (Doubles.vy Doubles.ball_bounced))
    with (-4503599627370496, -51)%Z.
  change (Doubles.decode Doubles.cell_size) with (5629499534213120, -47)%Z.
  change (Doubles.decode Doubles.cell_origin) with (0, 0)%Z.
  cbn [fst snd]. unfold Doubles.scale.
  change (0 <=? -60)%Z with false. change (0 <=? -59)%Z with false.
  change (0 <=? -52)%Z with false. change (0 <=? -51)%Z with false.
  change (0 <=? -50)%Z with false. change (0 <=? -47)%Z with false.
  change (0 <=? 0)%Z with true. cbv iota.
  change (2 ^ (- (-60)))%Z with 1152921504606846976%Z.
  change (2 ^ (- (-59)))%Z with 576460752303423488%Z.
  change (2 ^ (- (-52)))%Z with 4503599627370496%Z.
  change (2 ^ (- (-51)))%Z with 2251799813685248%Z.
  change (2 ^ (- (-50)))%Z with 1125899906842624%Z.
  change (2 ^ (- (-47)))%Z with 140737488355328%Z.
  change (2 ^ 0)%Z with 1%Z.
  split; [f_equal; lra|]. repeat split; lra.
Qed.

(** C10, the claim as worded, on the doubles of the program.  The ball
    [Doubles.ball_contact], of radius 0.01 at (-0.006, -0.008) with the
    velocity (3, 4), is at distance exactly its radius from the closest
    point (0, 0) of the cell [0,40] x [0,40], on the exact values of its
    fields: it does not overlap the cell, and the resolution on exact numbers
    leaves it as it is.  The resolution on doubles reverses and halves its
    velocity, to (-1.5, -2): the rounded square of the distance is below the
    rounded square of the radius. *)
Theorem resolve_fires_at_contact :
  let ball := Doubles.exact_ball Doubles.ball_contact in
  let o := Doubles.exact Doubles.cell_origin in
  let s := Doubles.exact Doubles.cell_size in
  (0 <= Ball.radius ball /\ Ball.radius ball <= Maze.distance ball o o s) /\
  (Ball.vx ball = 3 /\ Ball.vy ball = 4) /\
  (forall this, Maze.resolveCollision this ball o o s = (this, ball)) /\
  (forall this,
     Doubles.resolveCollision this Doubles.ball_contact
       Doubles.cell_origin Doubles.cell_origin Doubles.cell_size
     = (this, Doubles.ball_bounced)) /\
  Doubles.x Doubles.ball_bounced = Doubles.x Doubles.ball_contact /\
  Doubles.y Doubles.ball_bounced = Doubles.y Doubles.ball_contact /\
  Doubles.exact (Doubles.vx Doubles.ball_bounced) = -1.5 /\
  Doubles.exact (Doubles.vy Doubles.ball_bounced) = -2.
Proof.
  cbn zeta.
  destruct exact_contact as (-> & -> & -> & Hvx & Hvy).
  assert (Hd : Maze.distance
                 (Ball.mk (- (3 * 1152921504606847) / 576460752303423488)
                          (- (4 * 1152921504606847) / 576460752303423488) 3 4
                          ((5 * 1152921504606847) / 576460752303423488)) 0 0 40
               = (5 * 1152921504606847) / 576460752303423488).
  { unfold Maze.distance, Maze.distanceSq, Maze.closestX, Maze.closestY.
    cbn [Ball.x Ball.y]. unfold Rmax, Rmin. case_Rle; try lra.
    apply sqrt_lem_1; lra. }
  cbn [Ball.radius Ball.vx Ball.vy].
  split; [rewrite Hd; lra|]. split; [done|]. split.
  { intros this. apply resolve_no_overlap; cbn [Ball.radius]; [lra|rewrite Hd; lra]. }
  split; [intros this; vm_compute; reflexivity|].
  split; [reflexivity|]. split; [reflexivity|]. done.
Qed.

End Samples.

(** ** Integration under a constant acceleration *)

Section Integration.
#[local] Open Scope R_scope.

Lemma friction_bounds : 0 < CFG.friction < 1.
Proof. unfold CFG.friction. lra. Qed.

Lemma terminal_velocity_24 a : terminal_velocity a = 24 * a.
Proof.
  unfold terminal_velocity, CFG.friction.
  replace (1 - 0.96) with 0.04 by lra. lra.
Qed.

(** The velocity after [n] frames, in closed form. *)
Lemma integrate_velocity (n : nat) (ax ay : R) (ball : Ball.t) :
  Ball.vx (integrate n ax ay ball)
  = terminal_velocity ax + (Ball.vx ball - terminal_velocity ax) * CFG.friction ^ n
  /\ Ball.vy (integrate n ax ay ball)
  = terminal_velocity ay + (Ball.vy ball - terminal_velocity ay) * CFG.friction ^ n.
Proof.
  unfold terminal_velocity. pose proof friction_bounds as Hk.
  induction n as [|n [IHx IHy]].
  - simpl. split; ring.
  - change (integrate (S n) ax ay ball)
      with (Ball.update ax ay (integrate n ax ay ball)).
    cbn [Ball.update Ball.vx Ball.vy]. rewrite IHx, IHy.
    change (CFG.friction ^ S n) with (CFG.friction * CFG.friction ^ n).
    split; field; lra.
Qed.

Lemma geometric_limit (l c k : R) :
  Rabs k < 1 -> Un_cv (fun n => l + c * k ^ n) l.
Proof.
  intros Hk eps Heps.
  assert (Hy : 0 < eps / (Rabs c + 1)).
  { apply Rdiv_lt_0_compat; [lra|]. pose proof (Rabs_pos c). lra. }
  destruct (pow_lt_1_zero k Hk _ Hy) as [N HN].
  exists N. intros n Hn. unfold R_dist.
  replace (l + c * k ^ n - l) with (c * k ^ n) by ring.
  rewrite Rabs_mult. specialize (HN n Hn).
  pose proof (Rabs_pos c) as Hc. pose proof (Rabs_pos (k ^ n)) as Hp.
  apply Rle_lt_trans with (Rabs c * (eps / (Rabs c + 1))).
  - apply Rmult_le_compat_l; lra.
  - replace eps with ((Rabs c + 1) * (eps / (Rabs c + 1))) at 2 by (field; lra).
    apply Rmult_lt_compat_r; lra.
Qed.

(** C2, as the code has it.  From zero velocity, [n] frames of
    [Ball.update] with the same acceleration give a velocity that converges,
    on each axis, to acceleration * friction / (1 - friction): the
    acceleration is added before the friction is applied.  With friction
    0.96 that is 24 times the acceleration, 12 for the acceleration 0.5, and
    after enough frames the velocity stays within 1% of 12. *)
Theorem integrate_terminal_velocity (ax ay x y radius : R) :
  Un_cv (fun n => Ball.vx (integrate n ax ay (Ball.new x y radius)))
        (ax * CFG.friction / (1 - CFG.friction)) /\
  Un_cv (fun n => Ball.vy (integrate n ax ay (Ball.new x y radius)))
        (ay * CFG.friction / (1 - CFG.friction)) /\
  ax * CFG.friction / (1 - CFG.friction) = 24 * ax /\
  CFG.acceleration * CFG.friction / (1 - CFG.friction) = 12 /\
  exists N, forall n, (N <= n)%nat ->
    Rabs (Ball.vx (integrate n CFG.acceleration CFG.acceleration (Ball.new x y radius))
          - 12) <= 0.12
    /\ Rabs (Ball.vy (integrate n CFG.acceleration CFG.acceleration (Ball.new x y radius))
             - 12) <= 0.12.
Proof.
  assert (Hcv : forall a b,
    Un_cv (fun n => Ball.vx (integrate n a b (Ball.new x y radius))) (terminal_velocity a)
    /\ Un_cv (fun n => Ball.vy (integrate n a b (Ball.new x y radius))) (terminal_velocity b)).
  { intros a b. pose proof friction_bounds as Hk. split.
    - intros eps Heps.
      destruct (geometric_limit (terminal_velocity a) (0 - terminal_velocity a)
                  CFG.friction) with (eps := eps) as [N HN];
        [rewrite Rabs_right; lra|done|].
      exists N. intros n Hn.
      rewrite (proj1 (integrate_velocity n a b (Ball.new x y radius))).
      by apply HN.
    - intros eps Heps.
      destruct (geometric_limit (terminal_velocity b) (0 - terminal_velocity b)
                  CFG.friction) with (eps := eps) as [N HN];
        [rewrite Rabs_right; lra|done|].
      exists N. intros n Hn.
      rewrite (proj2 (integrate_velocity n a b (Ball.new x y radius))).
      by apply HN. }
  assert (H12 : terminal_velocity CFG.acceleration = 12).
  { rewrite terminal_velocity_24. unfold CFG.acceleration. lra. }
  split; [apply (Hcv ax ay)|]. split; [apply (Hcv ax ay)|].
  split; [apply terminal_velocity_24|]. split; [exact H12|].
  destruct (Hcv CFG.acceleration CFG.acceleration) as [Hx Hy].
  destruct (Hx 0.12 ltac:(lra)) as [Nx HNx].
  destruct (Hy 0.12 ltac:(lra)) as [Ny HNy].
  exists (Nx `max` Ny)%nat. intros n Hn. rewrite H12 in HNx, HNy.
  split; apply Rlt_le.
  - apply HNx. lia.
  - apply HNy. lia.
Qed.

(** C2, counterexample.  With friction 0.96 and acceleration 0.5 the
    velocity does not converge to acceleration / (1 - friction) = 12.5: it
    never exceeds 12, so it is never within 1% of 12.5. *)
Lemma integrate_not_12_5 :
  CFG.acceleration / (1 - CFG.friction) = 12.5 /\
  (forall n, Ball.vx (integrate n CFG.acceleration CFG.acceleration (Ball.new 60 60 14))
             <= 12) /\
  ~ (exists n,
       Rabs (Ball.vx (integrate n CFG.acceleration CFG.acceleration (Ball.new 60 60 14))
             - 12.5) <= 0.125) /\
  ~ Un_cv (fun n => Ball.vx (integrate n CFG.acceleration CFG.acceleration
                               (Ball.new 60 60 14)))
          (CFG.acceleration / (1 - CFG.friction)).
Proof.
  assert (E : CFG.acceleration / (1 - CFG.friction) = 12.5).
  { unfold CFG.acceleration, CFG.friction.
    replace (1 - 0.96) with 0.04 by lra. lra. }
  assert (Hle : forall n,
    Ball.vx (integrate n CFG.acceleration CFG.acceleration (Ball.new 60 60 14)) <= 12).
  { intros n. rewrite (proj1 (integrate_velocity n _ _ _)).
    replace (terminal_velocity CFG.acceleration) with 12
      by (rewrite terminal_velocity_24; unfold CFG.acceleration; lra).
    cbn [Ball.vx Ball.new].
    assert (0 < CFG.friction ^ n) by (apply pow_lt, friction_bounds).
    nra. }
  assert (Hno : ~ (exists n,
    Rabs (Ball.vx (integrate n CFG.acceleration CFG.acceleration (Ball.new 60 60 14))
          - 12.5) <= 0.125)).
  { intros [n Hn]. specialize (Hle n).
    rewrite Rabs_left in Hn by lra. lra. }
  split; [exact E|]. split; [exact Hle|]. split; [exact Hno|].
  rewrite E. intros Hcv. destruct (Hcv 0.125 ltac:(lra)) as [N HN].
  apply Hno. exists N. apply Rlt_le. apply HN. lia.
Qed.

End Integration.

(** ** The session *)

Section Session.
#[local] Open Scope R_scope.

Lemma foldM_inv {A S} (P : S -> Prop) (f : S -> A -> result S) (l : list A) :
  (forall s a, P s -> exists s', f s a = Ok s' /\ P s') ->
  forall s, P s -> exists s', foldM f s l = Ok s' /\ P s'.
Proof.
  intros Hf. induction l as [|a l IH]; intros s Hs; cbn [foldM]; [eauto|].
  destruct (Hf s a Hs) as (s1 & E & H1). rewrite E. cbn. by apply IH.
Qed.

(** On a maze whose rows exist, [checkCollision] does not throw. *)
Lemma checkCollision_total this ball cs :
  cs <> 0 ->
  rows_exist this ->
  exists ball', Maze.checkCollision this ball cs = Ok (this, ball').
Proof.
  intros Hcs Hrows. rewrite checkCollision_nonzero by done.
  match goal with |- context [foldM ?f (this, ball) ?l] =>
    destruct (foldM_inv (fun s => fst s = this) f l) with (s := (this, ball))
      as ([m b] & E & Hm) end.
  - intros s r Hs. apply foldM_inv; [|done].
    intros [m b] c Hm. cbn in Hm. subst m. unfold Maze.check_cell. cbn [fst snd].
    destruct (solid_total this r c Hrows) as [[] E]; rewrite E; cbn.
    + eexists. split; [done|]. apply resolve_maze.
    + eauto.
  - done.
  - cbn in Hm. subst m. eauto.
Qed.

Lemma loop_not_playing now this :
  Game.state this <> Game.PLAYING -> Game.loop now this = Ok this.
Proof. intros H. unfold Game.loop. by rewrite bool_decide_eq_true_2. Qed.

Lemma frames_not_playing nows this :
  Game.state this <> Game.PLAYING -> Game.frames nows this = Ok this.
Proof.
  intros H. unfold Game.frames. apply foldM_noop.
  intros now _. by apply loop_not_playing.
Qed.

(** One frame while PLAYING. *)
Lemma loop_playing now this m b :
  Game.state this = Game.PLAYING ->
  Game.maze this = Some m -> Game.ball this = Some b ->
  rows_exist m ->
  Game.cellSize this <> 0 ->
  exists b',
    Maze.checkCollision m
      (Ball.update (Game.ix (Game.input this) * CFG.acceleration)
                   (Game.iy (Game.input this) * CFG.acceleration) b)
      (Game.cellSize this) = Ok (m, b') /\
    Game.loop now this =
      Ok (let this1 :=
            Game.mk Game.PLAYING (Game.startTime this) (Game.input this)
              (Game.cellSize this) (Game.cols this) (Game.rows this)
              (Some m) (Some b')
              (Some (now 0%nat - Game.startTime this)%Z) (Game.finalTime this) in
          if bool_decide (Game.goalDist (Game.cellSize this) m b'
                          < Game.cellSize this * 0.5)
          then Game.endGame (fun k => now (S k)) this1
          else this1).
Proof.
  intros Hs Hm Hb Hrows Hcs.
  destruct (checkCollision_total m
              (Ball.update (Game.ix (Game.input this) * CFG.acceleration)
                           (Game.iy (Game.input this) * CFG.acceleration) b)
              (Game.cellSize this) Hcs Hrows) as [b' E].
  exists b'. split; [done|].
  unfold Game.loop. rewrite bool_decide_eq_false_2 by (rewrite Hs; tauto).
  unfold Game.update. rewrite Hm, Hb, E, Hs. cbn [mbind result_bind fst snd].
  by destruct (bool_decide _).
Qed.

(** A ball in the middle of the start cell touches no other cell. *)
Lemma start_cell_free (cs : R) (r c : Z) :
  0 < cs -> ~ (r = 1%Z /\ c = 1%Z) ->
  cs * CFG.ballRadiusRatio
  <= Maze.distance (Ball.new (1 * cs + cs / 2) (1 * cs + cs / 2)
                             (cs * CFG.ballRadiusRatio))
                   (IZR c * cs) (IZR r * cs) cs.
Proof.
  intros Hcs Hrc. unfold CFG.ballRadiusRatio.
  apply Rle_trans with (sqrt ((cs * 0.35) * (cs * 0.35)));
    [rewrite sqrt_square; lra|].
  unfold Maze.distance. apply sqrt_le_1_alt.
  unfold Maze.distanceSq, Maze.closestX, Maze.closestY, Ball.new.
  cbn [Ball.x Ball.y].
  set (tc := IZR c * cs). set (tr := IZR r * cs).
  assert (Ht : tc <= 0 \/ 2 * cs <= tc \/ tr <= 0 \/ 2 * cs <= tr).
  { assert (c <= 0 \/ 2 <= c \/ r <= 0 \/ 2 <= r)%Z as [H | [H | [H | H]]] by lia;
      apply IZR_le in H; unfold tc, tr; [left|right; left|right; right; left|
                                          right; right; right]; nra. }
  set (dx := 1 * cs + cs / 2 - _). set (dy := 1 * cs + cs / 2 - _).
  assert (cs / 2 <= dx \/ dx <= - (cs / 2) \/ cs / 2 <= dy \/ dy <= - (cs / 2))
    as Hd; [|nra].
  unfold dx, dy. clear dx dy.
  destruct Ht as [H | [H | [H | H]]].
  - left. unfold Rmax, Rmin. case_Rle; lra.
  - right; left. unfold Rmax, Rmin. case_Rle; lra.
  - right; right; left. unfold Rmax, Rmin. case_Rle; lra.
  - right; right; right. unfold Rmax, Rmin. case_Rle; lra.
Qed.

Lemma solid_true_not_path this r c :
  Maze.solid this r c = Ok true ->
  (0 <= r < Maze.rows this)%Z -> (0 <= c < Maze.cols this)%Z ->
  cellv (Maze.grid this) r c <> Some Maze.PATH.
Proof.
  unfold Maze.solid. intros H Hr Hc.
  destruct (r <? 0)%Z eqn:E1; [apply Z.ltb_lt in E1; lia|].
  destruct (Maze.rows this <=? r)%Z eqn:E2; [apply Z.leb_le in E2; lia|].
  destruct (c <? 0)%Z eqn:E3; [apply Z.ltb_lt in E3; lia|].
  destruct (Maze.cols this <=? c)%Z eqn:E4; [apply Z.leb_le in E4; lia|].
  cbn [orb] in H. unfold Maze.grid_get, cellv in *.
  destruct (Maze.grid this !! r) as [row|]; [|done].
  cbn in H |- *. injection H as H. apply bool_decide_eq_true in H.
  rewrite H. done.
Qed.

End Session.

Section SessionTheorems.
#[local] Open Scope R_scope.

Lemma update_at_rest x y radius :
  Ball.update (0 * CFG.acceleration) (0 * CFG.acceleration) (Ball.new x y radius)
  = Ball.new x y radius.
Proof. unfold Ball.update, Ball.new. cbn [Ball.x Ball.y Ball.vx Ball.vy Ball.radius].
  f_equal; lra.
Qed.

(** From the middle of the start cell the goal of a maze of at least 5
    columns is out of reach of the goal check. *)
Lemma goal_far (cs : R) (m : Maze.t) (cols rows : Z) (radius : R) :
  (5 <= cols)%Z -> 0 < cs ->
  Maze.goal m = Maze.mkPos (cols - 2) (rows - 2) ->
  ~ Game.goalDist cs m (Ball.new (1 * cs + cs / 2) (1 * cs + cs / 2) radius)
    < cs * 0.5.
Proof.
  intros Hcols Hcs Hg. apply Rle_not_lt.
  apply Rle_trans with (sqrt ((cs * 0.5) * (cs * 0.5)));
    [rewrite sqrt_square; lra|].
  unfold Game.goalDist. cbn zeta. apply sqrt_le_1_alt.
  rewrite Hg. cbn [Maze.x Maze.y Ball.x Ball.y Ball.new].
  assert (H3 : 3 <= IZR (cols - 2)) by (apply IZR_le; lia).
  set (gc := IZR (cols - 2)) in *. set (gr := IZR (rows - 2)).
  set (dy := 1 * cs + cs / 2 - (gr * cs + cs / 2)).
  assert (1 * cs + cs / 2 - (gc * cs + cs / 2) <= - (2 * cs)) by nra.
  nra.
Qed.

(** C9 (session).  [startGame], from any phase and so from IDLE and from
    GAMEOVER (the FINISHED phase), with odd [cols], [rows] >= 5 and a
    positive cell size, ends in PLAYING with the start time set to the
    clock reading (elapsed time 0 at that reading), a newly generated maze,
    and the ball in the middle of the start cell with zero velocity.  A
    frame run while PLAYING, with a positive cell size, whose goal check
    finds the ball closer than half a cell to the middle of the goal cell
    ends in GAMEOVER with the elapsed time recorded, and every later frame
    leaves the whole game unchanged: no physics, collision or goal check
    runs again.  A frame run in a phase other than PLAYING does nothing. *)
Theorem session_state_machine :
  (forall (rnd : nat -> nat) (now : nat -> Z) (this : Game.t),
     Z.odd (Game.cols this) = true -> Z.odd (Game.rows this) = true ->
     (5 <= Game.cols this)%Z -> (5 <= Game.rows this)%Z ->
     0 < Game.cellSize this ->
     exists g m,
       Game.startGame rnd now this = Ok g /\
       Game.state g = Game.PLAYING /\
       Game.startTime g = now 0%nat /\
       (now 0%nat - Game.startTime g = 0)%Z /\
       Game.timer g = Some (now 1%nat - now 0%nat)%Z /\
       Game.input g = Game.mkInput 0 0 /\
       Maze.new rnd (Game.cols this) (Game.rows this) = Ok m /\
       Game.maze g = Some m /\
       Game.ball g =
         Some (Ball.mk (1 * Game.cellSize this + Game.cellSize this / 2)
                       (1 * Game.cellSize this + Game.cellSize this / 2)
                       0 0 (Game.cellSize this * CFG.ballRadiusRatio))) /\
  (forall (now : nat -> Z) (this : Game.t) (m : Maze.t) (b : Ball.t),
     Game.state this = Game.PLAYING ->
     Game.maze this = Some m -> Game.ball this = Some b ->
     rows_exist m ->
     0 < Game.cellSize this ->
     exists g b',
       Game.loop now this = Ok g /\
       Maze.checkCollision m
         (Ball.update (Game.ix (Game.input this) * CFG.acceleration)
                      (Game.iy (Game.input this) * CFG.acceleration) b)
         (Game.cellSize this) = Ok (m, b') /\
       Game.maze g = Some m /\ Game.ball g = Some b' /\
       (Game.goalDist (Game.cellSize this) m b' < Game.cellSize this * 0.5 ->
          Game.state g = Game.GAMEOVER /\
          Game.finalTime g = Some (now 1%nat - Game.startTime this)%Z /\
          forall nows, Game.frames nows g = Ok g) /\
       (~ Game.goalDist (Game.cellSize this) m b' < Game.cellSize this * 0.5 ->
          Game.state g = Game.PLAYING)) /\
  (forall (now : nat -> Z) (this : Game.t),
     Game.state this <> Game.PLAYING -> Game.loop now this = Ok this).
Proof.
  split; [|split; [|exact loop_not_playing]].
  - intros rnd now this Hoc Hor Hcols Hrows Hcs.
    destruct (new_spec_odd rnd (Game.cols this) (Game.rows this))
      as (m & E & Hc & Hr & Hs & Hg & Hp & Hinv); [done..|].
    assert (Hex : rows_exist m).
    { intros r Hr'. apply (inv_rows _ _ _ _ Hinv). by rewrite <- Hr. }
    unfold Game.startGame. rewrite E. cbn [mbind result_bind].
    rewrite Hs. cbn [Maze.x Maze.y].
    set (cs := Game.cellSize this) in *.
    set (ball1 := Ball.new (1 * cs + cs / 2) (1 * cs + cs / 2)
                           (cs * CFG.ballRadiusRatio)).
    set (this1 := Game.mk _ _ _ _ _ _ _ _ _ _).
    destruct (loop_playing (fun k => now (S k)) this1 m ball1)
      as (b' & Ecc & Eloop); [done|done|done|done|cbn; lra|].
    cbn [this1 Game.input Game.ix Game.iy Game.cellSize] in Ecc.
    unfold ball1 in Ecc. rewrite update_at_rest in Ecc. fold ball1 in Ecc.
    rewrite checkCollision_noop in Ecc.
    + injection Ecc as <-.
      rewrite Eloop. cbn zeta.
      cbn [this1 Game.input Game.cellSize Game.startTime Game.cols Game.rows
           Game.finalTime].
      rewrite bool_decide_eq_false_2
        by (apply (goal_far cs m (Game.cols this) (Game.rows this)); done).
      eexists _, m. split; [done|].
      cbn. repeat split; try done. lia.
    + lra.
    + unfold ball1, CFG.ballRadiusRatio. cbn. lra.
    + done.
    + intros r c Hsolid.
      destruct (decide (r = 1%Z /\ c = 1%Z)) as [[-> ->]|Hne].
      * exfalso. apply (solid_true_not_path m 1 1 Hsolid); [lia|lia|].
        apply (inv_start _ _ _ _ Hinv).
      * unfold ball1. cbn [Ball.radius Ball.new]. by apply start_cell_free.
  - intros now this m b Hs Hm Hb Hex Hcs.
    destruct (loop_playing now this m b Hs Hm Hb Hex) as (b' & Ecc & Eloop);
      [lra|].
    eexists _, b'. split; [exact Eloop|]. split; [exact Ecc|].
    cbn zeta. case_bool_decide as Hd.
    + cbn. repeat split; try done. intros nows.
      by apply frames_not_playing.
    + cbn. repeat split; done.
Qed.

End SessionTheorems.

Section SessionSamples.
#[local] Open Scope R_scope.

Lemma session_state_machine_witness :
  (exists g,
     Game.startGame (fun k => k) (fun k => (1000 + 16 * Z.of_nat k)%Z) game_idle
     = Ok g /\
     Game.state g = Game.PLAYING /\ Game.startTime g = 1000%Z /\
     Game.ball g = Some (Ball.mk (1 * 40 + 40 / 2) (1 * 40 + 40 / 2) 0 0
                                 (40 * CFG.ballRadiusRatio))) /\
  (exists g,
     Game.loop (fun k => (2000 + Z.of_nat k)%Z) game_at_goal = Ok g /\
     Game.state g = Game.GAMEOVER /\
     forall nows, Game.frames nows g = Ok g).
Proof.
  split.
  - destruct (proj1 session_state_machine (fun k => k)
                (fun k => (1000 + 16 * Z.of_nat k)%Z) game_idle)
      as (g & m & E & Hs & Ht & _ & _ & _ & _ & _ & Hb);
      [reflexivity|reflexivity|simpl; lia|simpl; lia|simpl; lra|].
    exists g. split; [exact E|]. split; [exact Hs|]. split; [exact Ht|exact Hb].
  - destruct (proj1 (proj2 session_state_machine)
                (fun k => (2000 + Z.of_nat k)%Z) game_at_goal maze3 ball_centred)
      as (g & b' & E & Ecc & _ & _ & Hgo & _);
      [reflexivity|reflexivity|reflexivity|exact maze3_rows_exist|simpl; lra|].
    exists g. split; [exact E|].
    cbn [game_at_goal Game.input Game.ix Game.iy Game.cellSize] in Ecc, Hgo.
    change ball_centred with (Ball.new 60 60 14) in Ecc.
    rewrite update_at_rest in Ecc.
    change (Ball.new 60 60 14) with ball_centred in Ecc.
    rewrite checkCollision_noop in Ecc;
      [|lra|simpl; lra|exact maze3_rows_exist|exact maze3_free].
    injection Ecc as <-.
    destruct Hgo as (Hs & _ & Hfr); [|by split].
    unfold Game.goalDist, maze3, ball_centred. cbn.
    replace ((60 - (1 * 40 + 40 / 2)) * (60 - (1 * 40 + 40 / 2))
             + (60 - (1 * 40 + 40 / 2)) * (60 - (1 * 40 + 40 / 2)))
      with 0 by lra.
    rewrite sqrt_0. lra.
Defined.

End SessionSamples.

(** ** The constructor on every geometry *)

(** Without a cell strictly inside the border the loop only pops. *)
Lemma carve_no_interior (fuel : nat) : forall rnd k this stack,
  (forall r c, ~ interior (Maze.rows this) (Maze.cols this) r c) ->
  rows_exist this ->
  (length stack < fuel)%nat ->
  Maze.carve fuel rnd k this stack = Ok this.
Proof.
  induction fuel as [|fuel IH]; intros rnd k this stack Hno Hrows Hfuel; [lia|].
  destruct stack as [|cur rest]; [done|].
  cbn [Maze.carve]. rewrite filterM_valid by done. cbn [mbind result_bind].
  destruct (List.filter _ Maze.directions) as [|d0 tl] eqn:Hf.
  - apply IH; [done|done|]. simpl in Hfuel. lia.
  - exfalso. assert (Hin : In d0 (d0 :: tl)) by (by left).
    rewrite <- Hf in Hin. apply filter_In in Hin as [_ Hv].
    apply validb_true in Hv as [Hi _]. by apply Hno in Hi.
Qed.

Lemma init_grid_set_start rows cols :
  2 <= rows ->
  let g := <[1 := <[1 := Maze.PATH]> (Maze.init_row cols)]> (Maze.init_grid ∅ rows cols) in
  Maze.grid_set (Maze.init_grid ∅ rows cols) 1 1 Maze.PATH = Ok g /\
  (forall r, g !! r = if decide (0 <= r < rows) then
                        Some (if decide (r = 1) then <[1 := Maze.PATH]> (Maze.init_row cols)
                              else Maze.init_row cols)
                      else None) /\
  (forall r c, cellv g r c =
     if decide (r = 1 /\ c = 1) then Some Maze.PATH
     else if decide (0 <= r < rows /\ 0 <= c < cols) then Some Maze.WALL else None).
Proof.
  intros Hrows g.
  assert (E : Maze.grid_set (Maze.init_grid ∅ rows cols) 1 1 Maze.PATH = Ok g).
  { unfold Maze.grid_set. rewrite init_grid_rows. by rewrite decide_True by lia. }
  split; [done|]. split.
  - intros r. unfold g. destruct (decide (r = 1)) as [->|Hne].
    + rewrite lookup_insert_eq. by rewrite decide_True by lia.
    + rewrite lookup_insert_ne by done. rewrite init_grid_rows.
      by case_decide.
  - intros r c. rewrite (grid_set_ok _ _ _ _ E r c).
    case_decide; [done|]. apply cellv_init_grid.
Qed.

(** Construction with at least two rows and no cell inside the border: the
    loop leaves the initial grid, and the post-check decides. *)
Lemma new_no_interior rnd cols rows :
  2 <= rows -> rows <= 2 \/ cols <= 2 ->
  Maze.new rnd cols rows
  = Maze.relocate_goal
      (Maze.mk cols rows
         (<[1 := <[1 := Maze.PATH]> (Maze.init_row cols)]> (Maze.init_grid ∅ rows cols))
         (Maze.mkPos 1 1) (Maze.mkPos (cols - 2) (rows - 2))).
Proof.
  intros Hrows Hsmall. unfold Maze.new, Maze.generate.
  cbn [Maze.set_grid Maze.grid Maze.rows Maze.cols Maze.start Maze.goal].
  destruct (init_grid_set_start rows cols Hrows) as (E & Hr & _).
  rewrite E. cbn [mbind result_bind]. unfold Maze.fuel_for, Maze.set_grid.
  cbn [Maze.grid Maze.rows Maze.cols Maze.start Maze.goal].
  rewrite carve_no_interior; [done| | |simpl; lia].
  - intros r c. unfold interior. simpl. lia.
  - intros r Hr'. simpl in Hr' |- *. rewrite Hr. rewrite decide_True by done. eauto.
Qed.

(** X1.  The constructor throws exactly when there is no row 1 ([rows] <= 1)
    or when there are two rows and at least two columns (the post-check then
    reads row -1); in every other case it returns a maze with the dimensions
    as given, the start (1,1), and the start cell carved. *)
Theorem constructor_throws_iff (rnd : nat -> nat) (cols rows : Z) :
  if decide (rows <= 1 \/ (rows = 2 /\ 2 <= cols))
  then Maze.new rnd cols rows = TypeError
  else exists m,
    Maze.new rnd cols rows = Ok m /\
    Maze.cols m = cols /\ Maze.rows m = rows /\
    Maze.start m = Maze.mkPos 1 1 /\
    cellv (Maze.grid m) 1 1 = Some Maze.PATH.
Proof.
  case_decide as Hd.
  - destruct Hd as [Hr|[-> Hc]].
    + unfold Maze.new, Maze.generate, Maze.grid_set.
      cbn [Maze.set_grid Maze.grid Maze.rows Maze.cols].
      rewrite init_grid_rows. rewrite decide_False by lia.
      by rewrite lookup_empty.
    + rewrite new_no_interior by lia.
      destruct (init_grid_set_start 2 cols ltac:(lia)) as (_ & Hrow & Hcell).
      cbv zeta in Hrow, Hcell.
      set (g := <[1 := _]> _) in *.
      unfold Maze.relocate_goal. cbn [Maze.goal Maze.grid Maze.x Maze.y].
      replace (2 - 2) with 0 by lia.
      rewrite (grid_get_cellv g 0 (cols - 2))
        by (rewrite Hrow; rewrite decide_True by lia; eauto).
      rewrite (grid_get_cellv g 0 (cols - 2 - 1))
        by (rewrite Hrow; rewrite decide_True by lia; eauto).
      cbn [mbind result_bind]. unfold Maze.is_val.
      rewrite (Hcell 0 (cols - 2)), (Hcell 0 (cols - 2 - 1)).
      rewrite (decide_False (P := 0 = 1 /\ cols - 2 = 1)) by lia.
      rewrite (decide_True (P := 0 <= 0 < 2 /\ 0 <= cols - 2 < cols)) by lia.
      rewrite bool_decide_eq_true_2 by done.
      rewrite (decide_False (P := 0 = 1 /\ cols - 2 - 1 = 1)) by lia.
      rewrite bool_decide_eq_false_2 by (case_decide; vcong).
      unfold Maze.grid_get. rewrite Hrow. by rewrite decide_False by lia.
  - destruct (decide (3 <= cols /\ 3 <= rows)) as [[Hc Hr]|Hsmall].
    + destruct (new_spec rnd cols rows Hc Hr) as (m & E & ? & ? & ? & Hinv & _).
      exists m. repeat split; try done. apply (inv_start _ _ _ _ Hinv).
    + rewrite new_no_interior by lia.
      destruct (init_grid_set_start rows cols ltac:(lia)) as (_ & Hrow & Hcell).
      cbv zeta in Hrow, Hcell.
      set (g := <[1 := _]> _) in *.
      assert (Hstart : cellv g 1 1 = Some Maze.PATH)
        by (rewrite Hcell; by rewrite decide_True).
      destruct (decide (rows = 2)) as [->|Hr3].
      * unfold Maze.relocate_goal. cbn [Maze.goal Maze.grid Maze.x Maze.y].
        rewrite (grid_get_cellv g (2 - 2) (cols - 2))
          by (rewrite Hrow; rewrite decide_True by lia; eauto).
        cbn [mbind result_bind]. unfold Maze.is_val.
        rewrite (Hcell (2 - 2) (cols - 2)).
        rewrite (decide_False (P := 2 - 2 = 1 /\ cols - 2 = 1)) by lia.
        rewrite (decide_False (P := 0 <= 2 - 2 < 2 /\ 0 <= cols - 2 < cols)) by lia.
        rewrite bool_decide_eq_false_2 by done.
        eexists. split; [done|]. by cbn.
      * rewrite relocate_goal_spec.
        -- eexists. split; [done|]. by cbn.
        -- intros r Hr. simpl in Hr |- *. rewrite Hrow.
           rewrite decide_True by done. eauto.
        -- simpl. lia.
Qed.

Lemma even_mod2 z : Z.even z = true -> z mod 2 = 0.
Proof. intros H. rewrite Zmod_even. by rewrite H. Qed.

Lemma wallAt_false_path rows cols g stack r c :
  carve_inv rows cols g stack ->
  0 <= r < rows -> 0 <= c < cols ->
  wallAt g r c = false -> cellv g r c = Some Maze.PATH.
Proof.
  intros Hinv Hr Hc Hw. apply bool_decide_eq_false in Hw.
  by destruct (inv_vals _ _ _ _ Hinv r c Hr Hc).
Qed.

(** A cell between an odd cell of the border and its neighbour inside is
    never carved. *)
Lemma border_edge_wall rows cols g stack r c dr dc :
  carve_inv rows cols g stack ->
  r mod 2 = 1 -> c mod 2 = 1 ->
  ~ interior rows cols r c ->
  Z.abs dr + Z.abs dc = 1 ->
  pathAt g (r + dr) (c + dc) = false.
Proof.
  intros Hinv Hr Hc Hb Hu. apply pathAt_false. intros Hp.
  apply (inv_edge _ _ _ _ Hinv r c dr dc Hr Hc Hu) in Hp.
  by apply (inv_shape _ _ _ _ Hinv) in Hp as [Hi _].
Qed.

(** X2.  The goal after the post-check, for at least 3 columns and 3 rows.
    When [cols] or [rows] is odd the goal is a PATH cell: the designated cell
    ([cols]-2, [rows]-2), or the cell on its left, or the cell above it.
    When both are even the post-check finds no PATH cell on the left or
    above: the goal stays on the designated cell, which is a wall. *)
Theorem goal_after_postcheck (rnd : nat -> nat) (cols rows : Z) :
  3 <= cols -> 3 <= rows ->
  exists m,
    Maze.new rnd cols rows = Ok m /\
    (Z.odd cols = true \/ Z.odd rows = true ->
       cellv (Maze.grid m) (Maze.y (Maze.goal m)) (Maze.x (Maze.goal m))
       = Some Maze.PATH /\
       (Maze.goal m = Maze.mkPos (cols - 2) (rows - 2) \/
        Maze.goal m = Maze.mkPos (cols - 2 - 1) (rows - 2) \/
        Maze.goal m = Maze.mkPos (cols - 2) (rows - 2 - 1))) /\
    (Z.even cols = true -> Z.even rows = true ->
       Maze.goal m = Maze.mkPos (cols - 2) (rows - 2) /\
       cellv (Maze.grid m) (rows - 2) (cols - 2) = Some Maze.WALL).
Proof.
  intros Hcols Hrows.
  destruct (new_spec rnd cols rows Hcols Hrows) as (m & E & _ & _ & _ & Hinv & Hg).
  exists m. split; [done|].
  set (g := Maze.grid m) in *.
  assert (Hodd : forall r c, 0 < r < rows - 1 -> 0 < c < cols - 1 ->
            r mod 2 = 1 -> c mod 2 = 1 -> pathAt g r c = true).
  { intros r c Hr Hc Hor Hoc. apply pathAt_true.
    by apply (odd_cells_path rows cols). }
  assert (Hee : forall r c, r mod 2 = 0 -> c mod 2 = 0 -> pathAt g r c = false).
  { intros r c Hr Hc. apply pathAt_false. intros Hp.
    apply (inv_shape _ _ _ _ Hinv) in Hp as [_ Ho]. lia. }
  pose proof (Zmod_odd cols) as Pc. pose proof (Zmod_odd rows) as Pr.
  pose proof (Z.negb_odd cols) as Nc. pose proof (Z.negb_odd rows) as Nr.
  destruct (Z.odd cols) eqn:Oc, (Z.odd rows) eqn:Or; simpl in Nc, Nr.
  - (* both odd *)
    split; [|intros ?; congruence]. intros _.
    assert (Hp : pathAt g (rows - 2) (cols - 2) = true) by (apply Hodd; zlia).
    apply pathAt_spec in Hp.
    assert (Hw : wallAt g (rows - 2) (cols - 2) = false)
      by (apply bool_decide_eq_false; rewrite Hp; done).
    rewrite Hw in Hg. rewrite Hg. cbn. auto.
  - (* cols odd, rows even *)
    split; [|intros ?; congruence]. intros _.
    destruct (wallAt g (rows - 2) (cols - 2)) eqn:Hw.
    + rewrite (Hee (rows - 2) (cols - 2 - 1)) in Hg by zlia.
      rewrite (Hodd (rows - 2 - 1) (cols - 2)) in Hg by zlia.
      rewrite Hg. cbn. split; [|auto].
      apply pathAt_spec. apply Hodd; zlia.
    + rewrite Hg. cbn. split; [|auto].
      apply (wallAt_false_path rows cols g []); [done|lia|lia|done].
  - (* cols even, rows odd *)
    split; [|intros ? ?; congruence]. intros _.
    destruct (wallAt g (rows - 2) (cols - 2)) eqn:Hw.
    + rewrite (Hodd (rows - 2) (cols - 2 - 1)) in Hg by zlia.
      rewrite Hg. cbn. split; [|auto].
      apply pathAt_spec. apply Hodd; zlia.
    + rewrite Hg. cbn. split; [|auto].
      apply (wallAt_false_path rows cols g []); [done|lia|lia|done].
  - (* both even *)
    split; [intros [?|?]; congruence|]. intros _ _.
    assert (Hw : cellv g (rows - 2) (cols - 2) = Some Maze.WALL).
    { destruct (inv_vals _ _ _ _ Hinv (rows - 2) (cols - 2)) as [H|H]; [lia|lia|done|].
      apply pathAt_true in H. rewrite Hee in H by zlia. done. }
    assert (Hl : pathAt g (rows - 2) (cols - 2 - 1) = false).
    { replace (rows - 2) with (rows - 1 + -1) by lia.
      replace (cols - 2 - 1) with (cols - 2 - 1 + 0) by lia.
      apply (border_edge_wall rows cols g []); [done|zlia|zlia| |lia].
      unfold interior. lia. }
    assert (Hu : pathAt g (rows - 2 - 1) (cols - 2) = false).
    { replace (cols - 2) with (cols - 1 + -1) by lia.
      replace (rows - 2 - 1) with (rows - 2 - 1 + 0) by lia.
      apply (border_edge_wall rows cols g []); [done|zlia|zlia| |lia].
      unfold interior. lia. }
    rewrite Hl, Hu in Hg.
    split; [|done]. by destruct (wallAt g (rows - 2) (cols - 2)).
Qed.

Lemma goal_after_postcheck_witness :
  3 <= 6 /\ 3 <= 4 /\
  exists m,
    Maze.new (fun k => k) 6 4 = Ok m /\
    (Z.even 6 = true -> Z.even 4 = true ->
       Maze.goal m = Maze.mkPos (6 - 2) (4 - 2) /\
       cellv (Maze.grid m) (4 - 2) (6 - 2) = Some Maze.WALL).
Proof.
  split; [lia|]. split; [lia|].
  destruct (goal_after_postcheck (fun k => k) 6 4) as (m & E & _ & H); [lia|lia|].
  exists m. split; [exact E|exact H].
Defined.

(** ** The number of PATH cells *)

Lemma countNodes_carved rows cols g g' r0 c0 :
  carved g g' r0 c0 ->
  pathAt g r0 c0 = false ->
  0 <= r0 < rows -> 0 <= c0 < cols ->
  countNodes rows cols g'
  = (countNodes rows cols g + b2n (Z.odd r0 && Z.odd c0))%nat.
Proof.
  intros Hc Hw Hr0 Hc0. unfold countNodes.
  rewrite (sum_list_with_ext_in _
    (fun p => (b2n (pathAt g p.1 p.2 && Z.odd p.1 && Z.odd p.2)
               + (if decide (p = (r0, c0)) then b2n (Z.odd r0 && Z.odd c0) else 0))%nat)).
  - rewrite sum_list_with_plus, sum_list_with_point by apply NoDup_cells.
    rewrite decide_True; [done|]. by apply elem_of_cells.
  - intros [r c] _. cbn [fst snd]. rewrite (pathAt_carved _ _ _ _ _ _ Hc).
    destruct (decide (r = r0 /\ c = c0)) as [[-> ->]|Hne].
    + rewrite Hw. by rewrite decide_True.
    + rewrite decide_False; [lia|]. intros [= -> ->]. tauto.
Qed.

(** The loop keeps, besides [carve_inv], the balance of the carving: one
    PATH cell between two odd cells for each odd cell but the first. *)
Lemma carve_ok_nodes (fuel : nat) : forall rnd k this stack,
  carve_inv (Maze.rows this) (Maze.cols this) (Maze.grid this) stack ->
  (countPath (Maze.rows this) (Maze.cols this) (Maze.grid this) + 1
   = 2 * countNodes (Maze.rows this) (Maze.cols this) (Maze.grid this))%nat ->
  (2 * (length (cells (Maze.rows this) (Maze.cols this))
        - countPath (Maze.rows this) (Maze.cols this) (Maze.grid this))
   + length stack < fuel)%nat ->
  exists g', Maze.carve fuel rnd k this stack = Ok (Maze.set_grid this g')
    /\ carve_inv (Maze.rows this) (Maze.cols this) g' []
    /\ (countPath (Maze.rows this) (Maze.cols this) g' + 1
        = 2 * countNodes (Maze.rows this) (Maze.cols this) g')%nat.
Proof.
  induction fuel as [|fuel IH]; intros rnd k this stack Hinv Hbal Hfuel; [lia|].
  destruct stack as [|cur rest].
  { exists (Maze.grid this). by destruct this. }
  cbn [Maze.carve].
  rewrite filterM_valid by (intros r Hr; by apply (inv_rows _ _ _ _ Hinv)).
  cbn [mbind result_bind].
  destruct (List.filter _ Maze.directions) as [|d0 tl] eqn:Hf.
  - apply IH; [|done|simpl in Hfuel; lia].
    apply (carve_inv_pop _ _ _ cur); [done|].
    intros d Hd. destruct (validb _ _ _ cur d) eqn:E; [|done].
    assert (In d []) as []. rewrite <- Hf. apply filter_In.
    split; [by apply list_elem_of_In|done].
  - set (dir := nth _ _ _).
    assert (Hdir : In dir (d0 :: tl)).
    { apply nth_In. apply Nat.mod_upper_bound. done. }
    rewrite <- Hf in Hdir. apply filter_In in Hdir as [Hd Hv].
    apply list_elem_of_In in Hd.
    destruct (direction_unit _ Hd) as (Hu & Er & Ec).
    destruct (validb_true _ _ _ _ _ Hv) as [Hint Hw].
    pose proof (inv_stack _ _ _ _ Hinv cur (list_elem_of_here _ _)) as (Hr0 & Hc0 & Hp).
    pose proof (inv_shape _ _ _ _ Hinv _ _ Hp) as [Hic _].
    destruct (grid_set_carved (Maze.grid this) (Maze.r cur + Maze.r dir / 2)
                (Maze.c cur + Maze.c dir / 2)) as (g1 & E1 & Hc1 & Hk1).
    { apply (inv_rows _ _ _ _ Hinv). unfold interior in *. lia. }
    rewrite E1. cbn [mbind result_bind].
    destruct (grid_set_carved g1 (Maze.r cur + Maze.r dir)
                (Maze.c cur + Maze.c dir)) as (g2 & E2 & Hc2 & Hk2).
    { apply Hk1, (inv_rows _ _ _ _ Hinv). unfold interior in *. lia. }
    rewrite E2. cbn [mbind result_bind].
    destruct (carve_inv_push (Maze.rows this) (Maze.cols this) (Maze.grid this)
                g1 g2 (cur :: rest) (Maze.r cur) (Maze.c cur)
                (Maze.r dir / 2) (Maze.c dir / 2)) as [Hinv2 Hcnt]; try done.
    + destruct cur; by left.
    + by rewrite <- Er, <- Ec.
    + by rewrite <- Er, <- Ec.
    + by rewrite <- Er, <- Ec.
    + auto.
    + rewrite <- Er, <- Ec in Hinv2.
      assert (Hn : countNodes (Maze.rows this) (Maze.cols this) g2
                   = (countNodes (Maze.rows this) (Maze.cols this) (Maze.grid this) + 1)%nat).
      { unfold interior in *.
        assert (Hwall : pathAt (Maze.grid this) (Maze.r cur + Maze.r dir / 2)
                          (Maze.c cur + Maze.c dir / 2) = false).
        { apply pathAt_false. intros Hpw.
          assert (cellv (Maze.grid this) (Maze.r cur + Maze.r dir)
                    (Maze.c cur + Maze.c dir) = Some Maze.PATH); [|vcong].
          apply (inv_edge _ _ _ _ Hinv _ _ (- (Maze.r dir / 2)) (- (Maze.c dir / 2)));
            [zlia|zlia|lia|].
          rewrite <- Hpw. f_equal; lia. }
        rewrite (countNodes_carved _ _ g1 g2 _ _ Hc2); [| |lia|lia].
        2:{ apply pathAt_false. rewrite Hc1. rewrite decide_False by lia. vcong. }
        rewrite (countNodes_carved _ _ _ g1 _ _ Hc1); [|done|lia|lia].
        rewrite (Zodd_mod (Maze.r cur + Maze.r dir)), (Zodd_mod (Maze.c cur + Maze.c dir)).
        rewrite (Zodd_mod (Maze.r cur + Maze.r dir / 2)),
                (Zodd_mod (Maze.c cur + Maze.c dir / 2)).
        replace ((Maze.r cur + Maze.r dir) mod 2) with 1 by zlia.
        replace ((Maze.c cur + Maze.c dir) mod 2) with 1 by zlia.
        assert ((Maze.r cur + Maze.r dir / 2) mod 2 = 0
                \/ (Maze.c cur + Maze.c dir / 2) mod 2 = 0) as [->| ->] by zlia;
          simpl; rewrite ?andb_false_r; simpl; lia. }
      destruct (IH rnd (S k) (Maze.set_grid this g2)
                  (Maze.mkCell (Maze.r cur + Maze.r dir) (Maze.c cur + Maze.c dir)
                   :: cur :: rest)) as (g' & E & Hfin).
      * done.
      * cbn [Maze.set_grid Maze.rows Maze.cols Maze.grid]. lia.
      * cbn [Maze.set_grid Maze.rows Maze.cols Maze.grid]. rewrite Hcnt.
        pose proof (countPath_le (Maze.rows this) (Maze.cols this) g2) as Hle.
        rewrite Hcnt in Hle. simpl in Hfuel |- *. lia.
      * exists g'. split; [|done]. rewrite E. done.
Qed.

Lemma sum_list_with_bind {A B} (f : B -> nat) (k : A -> list B) (l : list A) :
  sum_list_with f (l ≫= k) = sum_list_with (fun a => sum_list_with f (k a)) l.
Proof.
  induction l as [|a l IH]; [done|].
  rewrite bind_cons, sum_list_with_app, IH. done.
Qed.

Lemma sum_list_with_scale {A} (f : A -> nat) (n : nat) (l : list A) :
  sum_list_with (fun a => (n * f a)%nat) l = (n * sum_list_with f l)%nat.
Proof. induction l as [|a l IH]; simpl; [lia|]. rewrite IH. lia. Qed.

(** The odd numbers strictly between 0 and [n - 1], among the first [k]
    naturals. *)
Lemma count_odd_seq (n : Z) (k : nat) :
  sum_list_with (fun r => b2n ((0 <? r) && (r <? n - 1) && Z.odd r))
                (seqZ 0 (Z.of_nat k))
  = Z.to_nat (Z.min (Z.of_nat k) (n - 1) / 2).
Proof.
  induction k as [|k IH]; [simpl; zlia|].
  rewrite seqZ_S, sum_list_with_app, IH. cbn [sum_list_with].
  replace (0 + Z.of_nat k) with (Z.of_nat k) by lia.
  pose proof (Zmod_odd (Z.of_nat k)) as Ho.
  destruct (Z.ltb_spec 0 (Z.of_nat k)), (Z.ltb_spec (Z.of_nat k) (n - 1)),
    (Z.odd (Z.of_nat k)); simpl; zlia.
Qed.

Lemma count_odd_interior rows cols :
  sum_list_with
    (fun p => b2n ((0 <? p.1) && (p.1 <? rows - 1) && Z.odd p.1
                   && ((0 <? p.2) && (p.2 <? cols - 1) && Z.odd p.2)))
    (cells rows cols)
  = (Z.to_nat ((rows - 1) / 2) * Z.to_nat ((cols - 1) / 2))%nat.
Proof.
  unfold cells. rewrite sum_list_with_bind.
  rewrite (sum_list_with_ext_in _
    (fun r => Nat.mul (Z.to_nat ((cols - 1) / 2))
                      (b2n ((0 <? r) && (r <? rows - 1) && Z.odd r)))).
  - rewrite sum_list_with_scale.
    destruct (decide (0 <= rows)) as [Hr|Hr].
    + rewrite <- (Z2Nat.id rows) at 1 by done. rewrite count_odd_seq.
      rewrite Z2Nat.id by done. replace (Z.min rows (rows - 1)) with (rows - 1) by lia.
      lia.
    + rewrite seqZ_nil by lia. simpl. zlia.
  - intros r _. rewrite sum_list_with_bind. cbn [sum_list_with fst snd].
    rewrite (sum_list_with_ext_in _
      (fun c => Nat.mul (b2n ((0 <? r) && (r <? rows - 1) && Z.odd r))
                        (b2n ((0 <? c) && (c <? cols - 1) && Z.odd c)))).
    + rewrite sum_list_with_scale.
      destruct (decide (0 <= cols)) as [Hc|Hc].
      * rewrite <- (Z2Nat.id cols) at 1 by done. rewrite count_odd_seq.
        rewrite Z2Nat.id by done.
        replace (Z.min cols (cols - 1)) with (cols - 1) by lia. lia.
      * rewrite seqZ_nil by lia. simpl. zlia.
    + intros c _. rewrite Nat.add_0_r.
      by destruct ((0 <? r) && (r <? rows - 1) && Z.odd r),
                  ((0 <? c) && (c <? cols - 1) && Z.odd c).
Qed.

Lemma new_nodes rnd cols rows :
  3 <= cols -> 3 <= rows ->
  exists m,
    Maze.new rnd cols rows = Ok m /\
    carve_inv rows cols (Maze.grid m) [] /\
    (countPath rows cols (Maze.grid m) + 1
     = 2 * countNodes rows cols (Maze.grid m))%nat.
Proof.
  intros Hcols Hrows. unfold Maze.new, Maze.generate.
  cbn [Maze.set_grid Maze.grid Maze.rows Maze.cols Maze.start Maze.goal].
  destruct (grid_set_carved (Maze.init_grid ∅ rows cols) 1 1) as (g & E & Hc & Hk).
  { rewrite init_grid_rows. rewrite decide_True by lia. eauto. }
  rewrite E. cbn [mbind result_bind].
  pose proof (carve_inv_init rows cols g Hrows Hcols Hc Hk) as Hinv.
  unfold Maze.fuel_for, Maze.set_grid.
  cbn [Maze.grid Maze.rows Maze.cols Maze.start Maze.goal].
  set (this := Maze.mk cols rows g (Maze.mkPos 1 1) (Maze.mkPos (cols - 2) (rows - 2))).
  destruct (carve_ok_nodes (2 * (Z.to_nat rows * Z.to_nat cols) + 2)
              rnd 0%nat this [Maze.mkCell 1 1]) as (g' & E' & Hfin & Hbal).
  - done.
  - cbn [Maze.rows Maze.cols Maze.grid this].
    rewrite (countPath_carved rows cols _ g 1 1 Hc); [|apply pathAt_init_grid|lia|lia].
    rewrite (countNodes_carved rows cols _ g 1 1 Hc); [|apply pathAt_init_grid|lia|lia].
    unfold countPath, countNodes. rewrite !sum_list_with_zero; [done| |].
    + intros [r c] _. cbn [fst snd]. by rewrite pathAt_init_grid.
    + intros [r c] _. cbn [fst snd]. by rewrite pathAt_init_grid.
  - cbn [Maze.rows Maze.cols Maze.grid this]. rewrite length_cells. simpl. lia.
  - rewrite E'. cbn [mbind result_bind].
    rewrite relocate_goal_spec.
    + eexists. split; [done|]. cbn [Maze.set_goal Maze.set_grid Maze.grid this].
      split; done.
    + intros r Hr. by apply (inv_rows _ _ _ _ Hfin).
    + simpl. lia.
Qed.

(** X3.  The size of the carving, for at least 3 columns and 3 rows and
    every run of the random choices: the maze has one PATH cell for each of
    the [(rows-1)/2 * (cols-1)/2] odd cells inside the border and one between
    each odd cell but the first and the cell it was reached from; the links
    are one less; all the other cells of the grid are walls. *)
Theorem path_cell_count (rnd : nat -> nat) (cols rows : Z) :
  3 <= cols -> 3 <= rows ->
  exists m,
    Maze.new rnd cols rows = Ok m /\
    Z.of_nat (countNodes rows cols (Maze.grid m))
    = ((rows - 1) / 2) * ((cols - 1) / 2) /\
    Z.of_nat (countPath rows cols (Maze.grid m))
    = 2 * (((rows - 1) / 2) * ((cols - 1) / 2)) - 1 /\
    Z.of_nat (links rows cols (Maze.grid m))
    = 2 * (((rows - 1) / 2) * ((cols - 1) / 2)) - 2 /\
    Z.of_nat (countWall rows cols (Maze.grid m))
    = rows * cols - (2 * (((rows - 1) / 2) * ((cols - 1) / 2)) - 1).
Proof.
  intros Hcols Hrows.
  destruct (new_nodes rnd cols rows Hcols Hrows) as (m & E & Hinv & Hbal).
  exists m. split; [done|].
  set (g := Maze.grid m) in *.
  assert (Hn : countNodes rows cols g
               = (Z.to_nat ((rows - 1) / 2) * Z.to_nat ((cols - 1) / 2))%nat).
  { rewrite <- count_odd_interior. unfold countNodes.
    apply sum_list_with_ext_in. intros [r c] _. cbn [fst snd]. f_equal.
    pose proof (Zmod_odd r) as Hor. pose proof (Zmod_odd c) as Hoc.
    destruct (pathAt g r c) eqn:Hp.
    - apply pathAt_spec, (inv_shape _ _ _ _ Hinv) in Hp as [[Hr Hc] _].
      rewrite (proj2 (Z.ltb_lt 0 r)), (proj2 (Z.ltb_lt r (rows - 1))) by lia.
      rewrite (proj2 (Z.ltb_lt 0 c)), (proj2 (Z.ltb_lt c (cols - 1))) by lia.
      by destruct (Z.odd r), (Z.odd c).
    - destruct (Z.ltb_spec 0 r), (Z.ltb_spec r (rows - 1)), (Z.odd r) eqn:Or;
        cbn [andb]; try done.
      destruct (Z.ltb_spec 0 c), (Z.ltb_spec c (cols - 1)), (Z.odd c) eqn:Oc;
        cbn [andb]; try done.
      rewrite (pathAt_true g r c) in Hp; [done|].
      apply (odd_cells_path rows cols); [done|by unfold interior|lia|lia]. }
  assert (Hw : (countWall rows cols g + countPath rows cols g
                = Z.to_nat rows * Z.to_nat cols)%nat).
  { rewrite <- length_cells. unfold countWall, countPath.
    rewrite <- sum_list_with_plus.
    rewrite (sum_list_with_ext_in _ (fun _ => 1%nat)).
    - generalize (cells rows cols). intros l.
      induction l as [|a l IH]; simpl; [done|]. by rewrite IH.
    - intros [r c] Hin. apply elem_of_cells in Hin as [Hr Hc]. cbn [fst snd].
      unfold wallAt, pathAt.
      destruct (inv_vals _ _ _ _ Hinv r c Hr Hc) as [-> | ->]; done. }
  pose proof (inv_count _ _ _ _ Hinv) as Hl.
  assert (0 <= (rows - 1) / 2) by zlia. assert (0 <= (cols - 1) / 2) by zlia.
  assert (Z.of_nat (countNodes rows cols g) = (rows - 1) / 2 * ((cols - 1) / 2)).
  { rewrite Hn. lia. }
  repeat split; nia.
Qed.

Lemma path_cell_count_witness :
  3 <= 15 /\ 3 <= 9 /\
  exists m,
    Maze.new (fun k => (5 * k + 2)%nat) 15 9 = Ok m /\
    Z.of_nat (countPath 9 15 (Maze.grid m)) = 2 * (((9 - 1) / 2) * ((15 - 1) / 2)) - 1.
Proof.
  split; [lia|]. split; [lia|].
  destruct (path_cell_count (fun k => (5 * k + 2)%nat) 15 9) as (m & E & _ & H & _);
    [lia|lia|].
  exists m. split; [exact E|exact H].
Defined.

(** X4.  The shape of the corridors, for at least 3 columns and 3 rows: no
    cell with an even row and an even column is ever carved, and a PATH cell
    with exactly one even coordinate joins the two odd cells on its axis,
    both PATH, and has walls on its two other sides. *)
Theorem maze_corridors (rnd : nat -> nat) (cols rows : Z) :
  3 <= cols -> 3 <= rows ->
  exists m,
    Maze.new rnd cols rows = Ok m /\
    (forall r c, Z.even r = true -> Z.even c = true ->
       cellv (Maze.grid m) r c <> Some Maze.PATH) /\
    (forall r c, Z.odd r = true -> Z.even c = true ->
       cellv (Maze.grid m) r c = Some Maze.PATH ->
       cellv (Maze.grid m) r (c - 1) = Some Maze.PATH /\
       cellv (Maze.grid m) r (c + 1) = Some Maze.PATH /\
       cellv (Maze.grid m) (r - 1) c = Some Maze.WALL /\
       cellv (Maze.grid m) (r + 1) c = Some Maze.WALL) /\
    (forall r c, Z.even r = true -> Z.odd c = true ->
       cellv (Maze.grid m) r c = Some Maze.PATH ->
       cellv (Maze.grid m) (r - 1) c = Some Maze.PATH /\
       cellv (Maze.grid m) (r + 1) c = Some Maze.PATH /\
       cellv (Maze.grid m) r (c - 1) = Some Maze.WALL /\
       cellv (Maze.grid m) r (c + 1) = Some Maze.WALL).
Proof.
  intros Hcols Hrows.
  destruct (new_spec rnd cols rows Hcols Hrows) as (m & E & _ & _ & _ & Hinv & _).
  exists m. split; [done|].
  set (g := Maze.grid m) in *.
  assert (Hee : forall r c, r mod 2 = 0 -> c mod 2 = 0 -> cellv g r c <> Some Maze.PATH).
  { intros r c Hr Hc Hp. apply (inv_shape _ _ _ _ Hinv) in Hp as [_ Ho]. lia. }
  assert (Hwall : forall r c, 0 <= r < rows -> 0 <= c < cols ->
            r mod 2 = 0 -> c mod 2 = 0 -> cellv g r c = Some Maze.WALL).
  { intros r c Hr Hc Er Ec.
    destruct (inv_vals _ _ _ _ Hinv r c Hr Hc) as [H|H]; [done|].
    by apply Hee in H. }
  split; [|split].
  - intros r c Hr Hc. apply Hee; by apply even_mod2.
  - intros r c Hr Hc Hp. apply odd_mod2 in Hr. apply even_mod2 in Hc.
    destruct (inv_shape _ _ _ _ Hinv _ _ Hp) as [[Hir Hic] _].
    repeat split.
    + apply (inv_edge _ _ _ _ Hinv r (c - 1) 0 1); [done|zlia|lia|].
      rewrite <- Hp. f_equal; lia.
    + apply (inv_edge _ _ _ _ Hinv r (c + 1) 0 (-1)); [done|zlia|lia|].
      rewrite <- Hp. f_equal; lia.
    + apply Hwall; [lia|lia|zlia|done].
    + apply Hwall; [lia|lia|zlia|done].
  - intros r c Hr Hc Hp. apply even_mod2 in Hr. apply odd_mod2 in Hc.
    destruct (inv_shape _ _ _ _ Hinv _ _ Hp) as [[Hir Hic] _].
    repeat split.
    + apply (inv_edge _ _ _ _ Hinv (r - 1) c 1 0); [zlia|done|lia|].
      rewrite <- Hp. f_equal; lia.
    + apply (inv_edge _ _ _ _ Hinv (r + 1) c (-1) 0); [zlia|done|lia|].
      rewrite <- Hp. f_equal; lia.
    + apply Hwall; [lia|lia|done|zlia].
    + apply Hwall; [lia|lia|done|zlia].
Qed.

Lemma maze_corridors_witness :
  3 <= 7 /\ 3 <= 7 /\
  exists m,
    Maze.new (fun k => (k * k)%nat) 7 7 = Ok m /\
    (forall r c, Z.even r = true -> Z.even c = true ->
       cellv (Maze.grid m) r c <> Some Maze.PATH).
Proof.
  split; [lia|]. split; [lia|].
  destruct (maze_corridors (fun k => (k * k)%nat) 7 7) as (m & E & H & _); [lia|lia|].
  exists m. split; [exact E|exact H].
Defined.

(** ** The wall query *)

Section WallQuery.
#[local] Open Scope R_scope.

Lemma floor_div_lt (x cs : R) (k : Z) :
  0 < cs -> x < IZR k * cs -> (Zfloor (x / cs) < k)%Z.
Proof.
  intros Hcs Hx. apply lt_IZR.
  apply Rle_lt_trans with (x / cs); [apply Zfloor_bound|].
  apply Rmult_lt_reg_r with cs; [done|].
  unfold Rdiv. rewrite Rmult_assoc, Rinv_l by lra. lra.
Qed.

Lemma floor_div_ge (x cs : R) (k : Z) :
  0 < cs -> IZR k * cs <= x -> (k <= Zfloor (x / cs))%Z.
Proof.
  intros Hcs Hx. apply Zfloor_lub.
  apply Rmult_le_reg_r with cs; [done|].
  unfold Rdiv. rewrite Rmult_assoc, Rinv_l by lra. lra.
Qed.

(** X5.  [isWall] and the test of [checkCollision] agree: a point is a wall
    exactly when its cell, found by flooring, is outside the grid or WALL.
    On a maze built with at least 3 columns and 3 rows and a positive cell
    size, [isWall] never throws, answers true for every point outside the
    grid and for every point of the outermost ring of cells, and answers
    false at the middle of the start cell. *)
Theorem isWall_enclosure :
  (forall (this : Maze.t) (x y cs : R),
     MazeQueries.isWall this x y cs
     = Maze.solid this (Zfloor (y / cs)) (Zfloor (x / cs))) /\
  (forall (rnd : nat -> nat) (cols rows : Z) (cs : R),
     (3 <= cols)%Z -> (3 <= rows)%Z -> 0 < cs ->
     exists m,
       Maze.new rnd cols rows = Ok m /\
       (forall x y, exists b, MazeQueries.isWall m x y cs = Ok b) /\
       (forall x y,
          x < cs \/ IZR (cols - 1) * cs <= x \/ y < cs \/ IZR (rows - 1) * cs <= y ->
          MazeQueries.isWall m x y cs = Ok true) /\
       MazeQueries.isWall m (1 * cs + cs / 2) (1 * cs + cs / 2) cs = Ok false).
Proof.
  assert (Hagree : forall (this : Maze.t) (x y cs : R),
     MazeQueries.isWall this x y cs
     = Maze.solid this (Zfloor (y / cs)) (Zfloor (x / cs))).
  { intros this x y cs. unfold MazeQueries.isWall, Maze.solid. cbn zeta.
    destruct (Zfloor (x / cs) <? 0)%Z, (Maze.cols this <=? Zfloor (x / cs))%Z,
      (Zfloor (y / cs) <? 0)%Z, (Maze.rows this <=? Zfloor (y / cs))%Z; done. }
  split; [exact Hagree|].
  intros rnd cols rows cs Hcols Hrows Hcs.
  destruct (new_spec rnd cols rows Hcols Hrows) as (m & E & Hc & Hr & _ & Hinv & _).
  exists m. split; [done|].
  assert (Hex : rows_exist m).
  { intros r Hr'. apply (inv_rows _ _ _ _ Hinv). by rewrite <- Hr. }
  assert (Hsolid : forall r c, Maze.solid m r c =
    Ok (if ((r <? 0) || (rows <=? r) || (c <? 0) || (cols <=? c))%Z then true
        else wallAt (Maze.grid m) r c)).
  { intros r c. unfold Maze.solid. rewrite Hc, Hr.
    destruct ((r <? 0) || (rows <=? r) || (c <? 0) || (cols <=? c))%Z eqn:Eb; [done|].
    rewrite grid_get_cellv; [done|]. apply Hex. rewrite Hr.
    apply orb_false_elim in Eb as [Eb _]. apply orb_false_elim in Eb as [Eb _].
    apply orb_false_elim in Eb as [E1 E2].
    apply Z.ltb_ge in E1. apply Z.leb_gt in E2. lia. }
  split; [|split].
  - intros x y. rewrite Hagree, Hsolid. eauto.
  - intros x y Hout. rewrite Hagree, Hsolid. f_equal.
    set (r := Zfloor (y / cs)). set (c := Zfloor (x / cs)).
    destruct ((r <? 0) || (rows <=? r) || (c <? 0) || (cols <=? c))%Z eqn:Eb; [done|].
    apply orb_false_elim in Eb as [Eb E4]. apply orb_false_elim in Eb as [Eb E3].
    apply orb_false_elim in Eb as [E1 E2].
    apply Z.ltb_ge in E1, E3. apply Z.leb_gt in E2, E4.
    apply bool_decide_eq_true.
    apply (border_wall rows cols _ []); [done|lia|lia|].
    destruct Hout as [H|[H|[H|H]]].
    + right; right; left.
      assert (c < 1)%Z by (apply floor_div_lt; [done|lra]). lia.
    + right; right; right.
      assert (cols - 1 <= c)%Z by (by apply floor_div_ge). lia.
    + left. assert (r < 1)%Z by (apply floor_div_lt; [done|lra]). lia.
    + right; left. assert (rows - 1 <= r)%Z by (by apply floor_div_ge). lia.
  - rewrite Hagree, Hsolid. f_equal.
    assert (Zfloor ((1 * cs + cs / 2) / cs) = 1%Z) as ->.
    { assert (1 <= Zfloor ((1 * cs + cs / 2) / cs))%Z
        by (apply floor_div_ge; [done|lra]).
      assert (Zfloor ((1 * cs + cs / 2) / cs) < 2)%Z
        by (apply floor_div_lt; [done|lra]).
      lia. }
    rewrite (proj2 (Z.ltb_ge 1 0)) by lia.
    rewrite (proj2 (Z.leb_gt rows 1)) by lia.
    rewrite (proj2 (Z.leb_gt cols 1)) by lia.
    cbn [orb]. apply bool_decide_eq_false.
    rewrite (inv_start _ _ _ _ Hinv). done.
Qed.

Lemma isWall_enclosure_witness :
  exists m,
    Maze.new (fun k => k) 5 5 = Ok m /\
    (forall x y,
       x < 40 \/ IZR (5 - 1) * 40 <= x \/ y < 40 \/ IZR (5 - 1) * 40 <= y ->
       MazeQueries.isWall m x y 40 = Ok true) /\
    MazeQueries.isWall m (1 * 40 + 40 / 2) (1 * 40 + 40 / 2) 40 = Ok false.
Proof.
  destruct (proj2 isWall_enclosure (fun k => k) 5%Z 5%Z 40)
    as (m & E & _ & H1 & H2); [lia|lia|lra|].
  exists m. split; [exact E|]. split; [exact H1|exact H2].
Defined.

End WallQuery.

(** ** Energy and reach of the collision pass *)

Section CollisionMore.
#[local] Open Scope R_scope.

Lemma distance_pos_of_sq ball rx ry rs :
  0 < Maze.distanceSq ball rx ry rs -> 0 < Maze.distance ball rx ry rs.
Proof. intros H. unfold Maze.distance. by apply sqrt_lt_R0. Qed.

(** Resolution keeps the radius and does not increase the speed. *)
Lemma resolve_speed this ball rx ry rs :
  Ball.radius (snd (Maze.resolveCollision this ball rx ry rs)) = Ball.radius ball /\
  speedSq (snd (Maze.resolveCollision this ball rx ry rs)) <= speedSq ball.
Proof.
  rewrite resolve_unfold. cbn zeta.
  destruct (bool_decide (Maze.distanceSq ball rx ry rs < _)); cbn [andb];
    [|cbn [snd]; split; [done|lra]].
  case_bool_decide as Hpos; [|cbn [snd]; split; [done|lra]].
  pose proof (normal_unit ball rx ry rs (distance_pos_of_sq _ _ _ _ Hpos)) as Hu.
  set (nx := Maze.normalX ball rx ry rs) in *.
  set (ny := Maze.normalY ball rx ry rs) in *.
  case_bool_decide as Hdot; cbn [snd Ball.radius]; (split; [done|]);
    unfold speedSq; cbn [Ball.vx Ball.vy]; [|lra].
  set (vx := Ball.vx ball) in *. set (vy := Ball.vy ball) in *.
  set (dot := vx * nx + vy * ny) in *.
  replace (1 + 0.5) with (3 / 2) by lra.
  replace ((vx - 3 / 2 * dot * nx) * (vx - 3 / 2 * dot * nx)
           + (vy - 3 / 2 * dot * ny) * (vy - 3 / 2 * dot * ny))
    with (vx * vx + vy * vy - 3 * dot * dot
          + 9 / 4 * dot * dot * (nx * nx + ny * ny)) by (unfold dot; field).
  rewrite Hu. clearbody dot vx vy. nra.
Qed.

Lemma checkCollision_speed this ball cs :
  cs <> 0 ->
  rows_exist this ->
  exists ball',
    Maze.checkCollision this ball cs = Ok (this, ball') /\
    Ball.radius ball' = Ball.radius ball /\
    speedSq ball' <= speedSq ball.
Proof.
  intros Hcs Hrows. rewrite checkCollision_nonzero by done.
  match goal with |- context [foldM ?f (this, ball) ?l] =>
    destruct (foldM_inv
      (fun s => fst s = this /\ Ball.radius (snd s) = Ball.radius ball
                /\ speedSq (snd s) <= speedSq ball) f l)
      with (s := (this, ball)) as ([m b] & E & Hm & Hr & Hs) end.
  - intros s r Hs. apply foldM_inv; [|done].
    intros [m b] c (Hm & Hr & Hsp). cbn in Hm, Hr, Hsp. subst m.
    unfold Maze.check_cell. cbn [fst snd].
    destruct (solid_total this r c Hrows) as [[] E]; rewrite E; cbn.
    + eexists. split; [done|].
      destruct (resolve_speed this b (IZR c * cs) (IZR r * cs) cs) as [H1 H2].
      split; [apply resolve_maze|]. split; [congruence|lra].
    + eexists. split; [done|]. cbn. auto.
  - cbn. split; [done|]. split; [done|lra].
  - cbn in Hm, Hr, Hs. subst m. eauto.
Qed.

(** X6.  Resolution against a rectangle never speeds the ball up and never
    changes its radius; it moves the centre of a ball of non-negative radius
    by at most the radius.  So a pass of [checkCollision] with a positive
    cell size over a maze whose rows exist returns, without throwing, the
    same maze and a ball of the same radius and of at most the speed it
    had. *)
Theorem collision_dissipates :
  (forall (this : Maze.t) (ball : Ball.t) (rx ry rs : R),
     let ball' := snd (Maze.resolveCollision this ball rx ry rs) in
     Ball.radius ball' = Ball.radius ball /\
     speedSq ball' <= speedSq ball /\
     (0 <= Ball.radius ball ->
      (Ball.x ball' - Ball.x ball) * (Ball.x ball' - Ball.x ball)
      + (Ball.y ball' - Ball.y ball) * (Ball.y ball' - Ball.y ball)
      <= Ball.radius ball * Ball.radius ball)) /\
  (forall (this : Maze.t) (ball : Ball.t) (cellSize : R),
     0 < cellSize ->
     rows_exist this ->
     exists ball',
       Maze.checkCollision this ball cellSize = Ok (this, ball') /\
       Ball.radius ball' = Ball.radius ball /\
       speedSq ball' <= speedSq ball).
Proof.
  split.
  - intros this ball rx ry rs. cbn zeta.
    destruct (resolve_speed this ball rx ry rs) as [Hr Hs].
    split; [done|]. split; [done|]. intros Hrad.
    rewrite resolve_unfold. cbn zeta.
    case_bool_decide as Hlt; cbn [andb]; [|cbn; nra].
    case_bool_decide as Hpos; [|cbn; nra].
    pose proof (distance_pos_of_sq _ _ _ _ Hpos) as Hd.
    pose proof (normal_unit ball rx ry rs Hd) as Hu.
    pose proof (distance_sqr ball rx ry rs) as Hsq.
    set (d := Maze.distance ball rx ry rs) in *.
    set (nx := Maze.normalX ball rx ry rs) in *.
    set (ny := Maze.normalY ball rx ry rs) in *.
    assert (Hdr : d < Ball.radius ball) by nra.
    case_bool_decide; cbn [snd Ball.x Ball.y].
    all: replace ((Ball.x ball + nx * (Ball.radius ball - d) - Ball.x ball)
                  * (Ball.x ball + nx * (Ball.radius ball - d) - Ball.x ball)
                  + (Ball.y ball + ny * (Ball.radius ball - d) - Ball.y ball)
                    * (Ball.y ball + ny * (Ball.radius ball - d) - Ball.y ball))
           with ((Ball.radius ball - d) * (Ball.radius ball - d) * (nx * nx + ny * ny))
           by ring.
    all: rewrite Hu; nra.
  - intros this ball cs Hcs Hrows. apply checkCollision_speed; [lra|done].
Qed.

Lemma collision_dissipates_witness :
  exists ball',
    Maze.checkCollision maze3 ball_moving 40 = Ok (maze3, ball') /\
    Ball.radius ball' = Ball.radius ball_moving /\
    speedSq ball' <= speedSq ball_moving.
Proof.
  apply (proj2 collision_dissipates maze3 ball_moving 40);
    [lra|exact maze3_rows_exist].
Defined.







End CollisionMore.

(** ** More on integration *)

Section IntegrationMore.
#[local] Open Scope R_scope.

Lemma integrate_S n ax ay ball :
  integrate (S n) ax ay ball = Ball.update ax ay (integrate n ax ay ball).
Proof. reflexivity. Qed.

Lemma friction_pow n : 0 < CFG.friction ^ n <= 1.
Proof.
  pose proof friction_bounds as Hk. split; [apply pow_lt; lra|].
  induction n as [|n IH]; simpl; [lra|].
  assert (0 < CFG.friction ^ n) by (apply pow_lt; lra). nra.
Qed.

(** The position after [n] frames, in closed form. *)
Lemma integrate_position (n : nat) (ax ay : R) (ball : Ball.t) :
  Ball.x (integrate n ax ay ball)
  = Ball.x ball + INR n * terminal_velocity ax
    + 24 * (Ball.vx ball - terminal_velocity ax) * (1 - CFG.friction ^ n)
  /\ Ball.y (integrate n ax ay ball)
  = Ball.y ball + INR n * terminal_velocity ay
    + 24 * (Ball.vy ball - terminal_velocity ay) * (1 - CFG.friction ^ n).
Proof.
  induction n as [|n [IHx IHy]].
  - simpl. split; ring.
  - rewrite integrate_S. cbn [Ball.update Ball.x Ball.y].
    destruct (integrate_velocity n ax ay ball) as [Hvx Hvy].
    rewrite IHx, IHy, Hvx, Hvy, S_INR, !terminal_velocity_24.
    change (CFG.friction ^ S n) with (CFG.friction * CFG.friction ^ n).
    set (p := CFG.friction ^ n). unfold CFG.friction.
    replace 0.96 with (24 / 25) by lra. split; field.
Qed.

(** X8.  From rest, under a constant positive acceleration on the x axis,
    the ball never slows down and never moves back: at every frame the
    velocity is at least the one of the frame before, it is positive from
    the first frame on and stays below its limit, 24 times the acceleration,
    and the position is at least the one of the frame before. *)
Theorem integrate_monotone (ax ay x y radius : R) (n : nat) :
  0 < ax ->
  let ball k := integrate k ax ay (Ball.new x y radius) in
  0 <= Ball.vx (ball n) /\
  Ball.vx (ball n) <= Ball.vx (ball (S n)) /\
  0 < Ball.vx (ball (S n)) /\
  Ball.vx (ball (S n)) < 24 * ax /\
  Ball.x (ball n) <= Ball.x (ball (S n)).
Proof.
  intros Hax ball.
  assert (Hv : forall k, Ball.vx (ball k) = 24 * ax * (1 - CFG.friction ^ k)).
  { intros k. unfold ball.
    rewrite (proj1 (integrate_velocity k ax ay _)), terminal_velocity_24.
    cbn [Ball.vx Ball.new]. ring. }
  pose proof (friction_pow n) as Hp. pose proof friction_bounds as Hk.
  assert (Hp' : CFG.friction ^ S n = CFG.friction * CFG.friction ^ n) by done.
  assert (Hx : Ball.x (ball (S n)) = Ball.x (ball n) + Ball.vx (ball (S n))).
  { unfold ball. rewrite integrate_S. done. }
  rewrite Hx, !Hv, Hp'.
  set (p := CFG.friction ^ n) in *. set (k := CFG.friction) in *.
  assert (Hq : 0 < k * p < p) by nra.
  set (q := k * p) in *. clearbody q p k.
  assert (0 < ax * q) by nra. assert (ax * q < ax * p) by nra.
  assert (ax * p <= ax) by nra.
  repeat split; lra.
Qed.

Lemma integrate_monotone_witness :
  0 < 0.5 /\
  Ball.vx (integrate 3 0.5 0 (Ball.new 60 60 14))
  <= Ball.vx (integrate 4 0.5 0 (Ball.new 60 60 14)) /\
  Ball.vx (integrate 4 0.5 0 (Ball.new 60 60 14)) < 24 * 0.5.
Proof.
  split; [lra|].
  destruct (integrate_monotone 0.5 0 60 60 14 3) as (_ & H1 & _ & H2 & _); [lra|].
  split; [exact H1|exact H2].
Defined.

Lemma integrate_radius n ax ay ball :
  Ball.radius (integrate n ax ay ball) = Ball.radius ball.
Proof. induction n as [|n IH]; [done|]. by rewrite integrate_S. Qed.

(** Without acceleration, each axis in closed form. *)
Lemma coasting_axis (ball : Ball.t) (n : nat) :
  let ball' := integrate n 0 0 ball in
  Ball.vx ball' = Ball.vx ball * CFG.friction ^ n /\
  Ball.vy ball' = Ball.vy ball * CFG.friction ^ n /\
  Ball.x ball' = Ball.x ball + 24 * Ball.vx ball * (1 - CFG.friction ^ n) /\
  Ball.y ball' = Ball.y ball + 24 * Ball.vy ball * (1 - CFG.friction ^ n).
Proof.
  assert (H0 : terminal_velocity 0 = 0) by (rewrite terminal_velocity_24; lra).
  cbn zeta.
  destruct (integrate_velocity n 0 0 ball) as [-> ->].
  destruct (integrate_position n 0 0 ball) as [-> ->].
  rewrite H0. repeat split; ring.
Qed.

(** A geometric sequence of ratio 0.96 added to a constant converges to the
    constant. *)
Lemma coasting_limit (a b : R) (f : nat -> R) :
  (forall n, f n = a + b * CFG.friction ^ n) -> Un_cv f a.
Proof.
  intros Hf eps Heps. pose proof friction_bounds as Hk.
  destruct (geometric_limit a b CFG.friction) with (eps := eps)
    as [N HN]; [rewrite Rabs_right; lra|done|].
  exists N. intros n Hn. rewrite Hf. by apply HN.
Qed.

(** X9.  Without acceleration the ball coasts.  After [n] frames its
    velocity is the initial one times 0.96 to the [n] on each axis, its
    position is the initial one plus 24 (1 - 0.96^n) times the initial
    velocity on each axis, its radius is the same, its speed is at most the
    initial one and it is at most 24 times the initial speed away from
    where it was.  The velocity converges to 0 and the position to the
    stopping point (x + 24 vx, y + 24 vy). *)
Theorem integrate_coasting (ball : Ball.t) :
  (forall n,
     let ball' := integrate n 0 0 ball in
     Ball.vx ball' = Ball.vx ball * CFG.friction ^ n /\
     Ball.vy ball' = Ball.vy ball * CFG.friction ^ n /\
     Ball.x ball' = Ball.x ball + 24 * Ball.vx ball * (1 - CFG.friction ^ n) /\
     Ball.y ball' = Ball.y ball + 24 * Ball.vy ball * (1 - CFG.friction ^ n) /\
     Ball.radius ball' = Ball.radius ball /\
     speedSq ball' <= speedSq ball /\
     (Ball.x ball' - Ball.x ball) * (Ball.x ball' - Ball.x ball)
     + (Ball.y ball' - Ball.y ball) * (Ball.y ball' - Ball.y ball)
     <= 24 * 24 * speedSq ball) /\
  Un_cv (fun n => Ball.vx (integrate n 0 0 ball)) 0 /\
  Un_cv (fun n => Ball.vy (integrate n 0 0 ball)) 0 /\
  Un_cv (fun n => Ball.x (integrate n 0 0 ball)) (Ball.x ball + 24 * Ball.vx ball) /\
  Un_cv (fun n => Ball.y (integrate n 0 0 ball)) (Ball.y ball + 24 * Ball.vy ball).
Proof.
  split; [|split; [|split; [|split]]].
  - intros n. cbn zeta.
    destruct (coasting_axis ball n) as (Hvx & Hvy & Hx & Hy). cbn zeta in *.
    split; [done|]. split; [done|]. split; [done|]. split; [done|].
    split; [apply integrate_radius|].
    unfold speedSq. rewrite Hvx, Hvy, Hx, Hy.
    pose proof (friction_pow n) as Hp.
    set (p := CFG.friction ^ n) in *. clearbody p.
    set (vx := Ball.vx ball). set (vy := Ball.vy ball).
    assert (Hp2 : 0 <= p * p <= 1) by nra.
    assert (Hq2 : 0 <= (1 - p) * (1 - p) <= 1) by nra.
    pose proof (Rle_0_sqr vx) as H1. pose proof (Rle_0_sqr vy) as H2.
    unfold Rsqr in H1, H2.
    split.
    + replace (vx * p * (vx * p) + vy * p * (vy * p))
        with ((vx * vx + vy * vy) * (p * p)) by ring.
      nra.
    + replace ((Ball.x ball + 24 * vx * (1 - p) - Ball.x ball)
               * (Ball.x ball + 24 * vx * (1 - p) - Ball.x ball)
               + (Ball.y ball + 24 * vy * (1 - p) - Ball.y ball)
                 * (Ball.y ball + 24 * vy * (1 - p) - Ball.y ball))
        with (24 * 24 * ((vx * vx + vy * vy) * ((1 - p) * (1 - p)))) by ring.
      nra.
  - apply (coasting_limit 0 (Ball.vx ball)). intros n.
    destruct (coasting_axis ball n) as (-> & _). ring.
  - apply (coasting_limit 0 (Ball.vy ball)). intros n.
    destruct (coasting_axis ball n) as (_ & -> & _). ring.
  - apply (coasting_limit _ (- (24 * Ball.vx ball))). intros n.
    destruct (coasting_axis ball n) as (_ & _ & -> & _). ring.
  - apply (coasting_limit _ (- (24 * Ball.vy ball))). intros n.
    destruct (coasting_axis ball n) as (_ & _ & _ & ->). ring.
Qed.

End IntegrationMore.

(** ** Viewport and input *)

Section Input.
#[local] Open Scope R_scope.

Lemma clamp_bounds x : -1 <= Rmax (-1) (Rmin 1 x) <= 1.
Proof. unfold Rmax, Rmin. case_Rle; lra. Qed.

Lemma deviceorientation_input gamma beta this :
  Game.state this = Game.PLAYING ->
  Game.input (GameEvents.deviceorientation gamma beta this)
  = Game.mkInput (Rmax (-1) (Rmin 1 (gamma / 30))) (Rmax (-1) (Rmin 1 (beta / 30))).
Proof.
  intros Hs. unfold GameEvents.deviceorientation.
  rewrite bool_decide_eq_false_2 by (rewrite Hs; tauto).
  cbn zeta. cbn [GameEvents.set_input Game.input]. f_equal.
  repeat case_bool_decide; unfold Rmax, Rmin; case_Rle; lra.
Qed.

(** X10.  The tilt listener, while PLAYING, sets each input component to
    the angle divided by 30 and clamped to [-1, 1] (the earlier clamp of
    gamma to 90 degrees makes no difference): full input from 30 degrees on,
    proportional below.  In any other state the event is ignored. *)
Theorem tilt_input (gamma beta : R) (this : Game.t) :
  (Game.state this = Game.PLAYING ->
     let i := Game.input (GameEvents.deviceorientation gamma beta this) in
     input_bounded i /\
     Game.ix i = Rmax (-1) (Rmin 1 (gamma / 30)) /\
     Game.iy i = Rmax (-1) (Rmin 1 (beta / 30)) /\
     (30 <= gamma -> Game.ix i = 1) /\ (gamma <= -30 -> Game.ix i = -1) /\
     (-30 <= gamma <= 30 -> Game.ix i = gamma / 30) /\
     (30 <= beta -> Game.iy i = 1) /\ (beta <= -30 -> Game.iy i = -1) /\
     (-30 <= beta <= 30 -> Game.iy i = beta / 30)) /\
  (Game.state this <> Game.PLAYING ->
     GameEvents.deviceorientation gamma beta this = this).
Proof.
  split.
  - intros Hs. cbn zeta. rewrite (deviceorientation_input gamma beta this Hs).
    cbn [Game.ix Game.iy]. unfold input_bounded. cbn [Game.ix Game.iy].
    split; [split; apply clamp_bounds|]. split; [done|]. split; [done|].
    repeat split; intros H; unfold Rmax, Rmin; case_Rle; lra.
  - intros Hs. unfold GameEvents.deviceorientation.
    by rewrite bool_decide_eq_true_2.
Qed.

Lemma tilt_input_witness :
  Game.state game_playing = Game.PLAYING /\
  Game.ix (Game.input (GameEvents.deviceorientation 45 (-9) game_playing)) = 1 /\
  Game.iy (Game.input (GameEvents.deviceorientation 45 (-9) game_playing)) = -9 / 30.
Proof.
  split; [reflexivity|].
  destruct (proj1 (tilt_input 45 (-9) game_playing) eq_refl)
    as (_ & _ & _ & H1 & _ & _ & _ & _ & H2).
  split; [apply H1; lra|apply H2; lra].
Defined.

Lemma keydown_input key this :
  input_bounded (Game.input this) ->
  input_bounded (Game.input (GameEvents.keydown key this)).
Proof.
  intros [Hx Hy]. unfold GameEvents.keydown, input_bounded.
  repeat case_bool_decide; cbn; lra.
Qed.

Lemma keyup_input key this :
  input_bounded (Game.input this) ->
  input_bounded (Game.input (GameEvents.keyup key this)).
Proof.
  intros [Hx Hy]. unfold GameEvents.keyup, input_bounded.
  repeat case_bool_decide; cbn; lra.
Qed.

(** X11.  The key listeners keep the input within [-1, 1].  A key pressed
    in a state other than PLAYING is ignored, and so is any key that is not
    an arrow; but a released arrow zeroes its axis in every state, even
    while the opposite arrow is still held. *)
Theorem key_input :
  (forall key this,
     input_bounded (Game.input this) ->
     input_bounded (Game.input (GameEvents.keydown key this)) /\
     input_bounded (Game.input (GameEvents.keyup key this))) /\
  (forall key this,
     Game.state this <> Game.PLAYING \/
     (key <> "ArrowUp" /\ key <> "ArrowDown" /\ key <> "ArrowLeft"
      /\ key <> "ArrowRight")%string ->
     GameEvents.keydown key this = this) /\
  (forall key this,
     (key = "ArrowLeft" \/ key = "ArrowRight")%string ->
     Game.ix (Game.input (GameEvents.keyup key this)) = 0 /\
     Game.iy (Game.input (GameEvents.keyup key this)) = Game.iy (Game.input this)) /\
  (forall key this,
     (key = "ArrowUp" \/ key = "ArrowDown")%string ->
     Game.iy (Game.input (GameEvents.keyup key this)) = 0 /\
     Game.ix (Game.input (GameEvents.keyup key this)) = Game.ix (Game.input this)) /\
  (forall this,
     Game.state this = Game.PLAYING ->
     Game.ix (Game.input (GameEvents.keydown "ArrowLeft" this)) = -1 /\
     Game.ix (Game.input
       (GameEvents.keyup "ArrowRight"
          (GameEvents.keydown "ArrowRight" (GameEvents.keydown "ArrowLeft" this)))) = 0).
Proof.
  split; [|split; [|split; [|split]]].
  - intros key this Hb. split; [by apply keydown_input|by apply keyup_input].
  - intros key this [Hs|(H1 & H2 & H3 & H4)]; unfold GameEvents.keydown.
    + by rewrite bool_decide_eq_true_2.
    + case_bool_decide; [done|].
      by rewrite !bool_decide_eq_false_2.
  - intros key this Hk. unfold GameEvents.keyup.
    rewrite (bool_decide_eq_true_2 (key = "ArrowLeft"%string \/ _)) by done.
    rewrite bool_decide_eq_false_2; [done|].
    intros [->| ->]; destruct Hk; done.
  - intros key this Hk. unfold GameEvents.keyup.
    rewrite (bool_decide_eq_true_2 (key = "ArrowUp"%string \/ _)) by done.
    rewrite bool_decide_eq_false_2; [done|].
    intros [->| ->]; destruct Hk; done.
  - intros this Hs. unfold GameEvents.keydown, GameEvents.keyup.
    rewrite !(bool_decide_eq_false_2 (Game.state _ <> Game.PLAYING))
      by (cbn; rewrite Hs; tauto).
    cbn. done.
Qed.

Lemma key_input_witness :
  Game.state game_playing = Game.PLAYING /\
  Game.ix (Game.input (GameEvents.keydown "ArrowLeft" game_playing)) = -1 /\
  Game.ix (Game.input
    (GameEvents.keyup "ArrowRight"
       (GameEvents.keydown "ArrowRight" (GameEvents.keydown "ArrowLeft" game_playing))))
  = 0.
Proof.
  split; [reflexivity|].
  apply (proj2 (proj2 (proj2 (proj2 key_input))) game_playing). reflexivity.
Defined.

End Input.

(** ** A started game under any events *)

Section SessionSafety.
#[local] Open Scope R_scope.

Lemma new_spec_odd3 rnd cols rows :
  Z.odd cols = true -> Z.odd rows = true -> (3 <= cols)%Z -> (3 <= rows)%Z ->
  exists m,
    Maze.new rnd cols rows = Ok m /\
    Maze.cols m = cols /\ Maze.rows m = rows /\
    Maze.start m = Maze.mkPos 1 1 /\
    Maze.goal m = Maze.mkPos (cols - 2) (rows - 2) /\
    carve_inv rows cols (Maze.grid m) [].
Proof.
  intros Hoc Hor Hcols Hrows.
  destruct (new_spec rnd cols rows) as (m & E & Hc & Hr & Hs & Hinv & Hg); [lia|lia|].
  assert (Hp : cellv (Maze.grid m) (rows - 2) (cols - 2) = Some Maze.PATH).
  { apply (odd_cells_path rows cols); [done|unfold interior; lia|..].
    - apply odd_mod2 in Hor. zlia.
    - apply odd_mod2 in Hoc. zlia. }
  assert (Hw : wallAt (Maze.grid m) (rows - 2) (cols - 2) = false).
  { apply bool_decide_eq_false. rewrite Hp. done. }
  rewrite Hw in Hg. by exists m.
Qed.

(** [startGame] on odd dimensions of at least 5 columns and 3 rows. *)
Lemma startGame_ok rnd now this :
  Z.odd (Game.cols this) = true -> Z.odd (Game.rows this) = true ->
  (5 <= Game.cols this)%Z -> (3 <= Game.rows this)%Z ->
  0 < Game.cellSize this ->
  exists m,
    Maze.new rnd (Game.cols this) (Game.rows this) = Ok m /\
    rows_exist m /\
    Maze.cols m = Game.cols this /\ Maze.rows m = Game.rows this /\
    Game.startGame rnd now this =
      Ok (Game.mk Game.PLAYING (now 0%nat) (Game.mkInput 0 0) (Game.cellSize this)
            (Game.cols this) (Game.rows this) (Some m)
            (Some (Ball.new (1 * Game.cellSize this + Game.cellSize this / 2)
                            (1 * Game.cellSize this + Game.cellSize this / 2)
                            (Game.cellSize this * CFG.ballRadiusRatio)))
            (Some (now 1%nat - now 0%nat)%Z) (Game.finalTime this)).
Proof.
  intros Hoc Hor Hcols Hrows Hcs.
  destruct (new_spec_odd3 rnd (Game.cols this) (Game.rows this))
    as (m & E & Hc & Hr & Hs & Hg & Hinv); [done|done|lia|done|].
  assert (Hex : rows_exist m).
  { intros r Hr'. apply (inv_rows _ _ _ _ Hinv). by rewrite <- Hr. }
  exists m. split; [done|]. split; [done|]. split; [done|]. split; [done|].
  unfold Game.startGame. rewrite E. cbn [mbind result_bind].
  rewrite Hs. cbn [Maze.x Maze.y].
  set (cs := Game.cellSize this) in *.
  set (ball1 := Ball.new (1 * cs + cs / 2) (1 * cs + cs / 2)
                         (cs * CFG.ballRadiusRatio)).
  set (this1 := Game.mk _ _ _ _ _ _ _ _ _ _).
  destruct (loop_playing (fun k => now (S k)) this1 m ball1)
    as (b' & Ecc & Eloop); [done|done|done|done|cbn; lra|].
  cbn [this1 Game.input Game.ix Game.iy Game.cellSize] in Ecc.
  unfold ball1 in Ecc. rewrite update_at_rest in Ecc. fold ball1 in Ecc.
  rewrite checkCollision_noop in Ecc.
  - injection Ecc as <-.
    rewrite Eloop. cbn zeta.
    cbn [this1 Game.input Game.cellSize Game.startTime Game.cols Game.rows
         Game.finalTime].
    rewrite bool_decide_eq_false_2
      by (apply (goal_far cs m (Game.cols this) (Game.rows this)); done).
    done.
  - lra.
  - unfold ball1, CFG.ballRadiusRatio. cbn. lra.
  - done.
  - intros r c Hsolid.
    destruct (decide (r = 1%Z /\ c = 1%Z)) as [[-> ->]|Hne].
    + exfalso. apply (solid_true_not_path m 1 1 Hsolid); [lia|lia|].
      apply (inv_start _ _ _ _ Hinv).
    + unfold ball1. cbn [Ball.radius Ball.new]. by apply start_cell_free.
Qed.

(** One frame of integration keeps the speed within 12 * sqrt 2 when each
    input component is within [-1, 1]. *)
Lemma update_speed (i : Game.Input) (b : Ball.t) :
  input_bounded i -> speedSq b <= 288 ->
  speedSq (Ball.update (Game.ix i * CFG.acceleration)
                       (Game.iy i * CFG.acceleration) b) <= 288.
Proof.
  intros [Hx Hy] Hs. unfold speedSq, Ball.update in *.
  cbn [Ball.vx Ball.vy]. unfold CFG.acceleration, CFG.friction.
  set (vx := Ball.vx b) in *. set (vy := Ball.vy b) in *.
  set (ax := Game.ix i * 0.5). set (ay := Game.iy i * 0.5).
  assert (Ha : ax * ax + ay * ay <= 1 / 2) by (unfold ax, ay; nra).
  clearbody ax ay vx vy.
  set (t := vx * ax + vy * ay).
  assert (Ht2 : t * t <= 144).
  { assert (Hcs : t * t = (vx * vx + vy * vy) * (ax * ax + ay * ay)
                    - (vx * ay - vy * ax) * (vx * ay - vy * ax))
      by (unfold t; ring).
    assert (Hd : 0 <= (vx * ay - vy * ax) * (vx * ay - vy * ax))
      by apply Rle_0_sqr.
    assert (H0 : 0 <= ax * ax + ay * ay) by nra.
    assert (H1 : 0 <= vx * vx + vy * vy) by nra.
    assert (Hp : (vx * vx + vy * vy) * (ax * ax + ay * ay) <= 288 * (1 / 2)).
    { apply Rmult_le_compat; lra. }
    lra. }
  assert (Ht : t <= 12).
  { clearbody t. nra. }
  replace 0.96 with (24 / 25) by lra.
  replace ((vx + ax) * (24 / 25) * ((vx + ax) * (24 / 25))
           + (vy + ay) * (24 / 25) * ((vy + ay) * (24 / 25)))
    with (576 / 625 * (vx * vx + vy * vy + 2 * t + (ax * ax + ay * ay)))
    by (unfold t; field).
  lra.
Qed.

Lemma set_input_id g : GameEvents.set_input g (Game.input g) = g.
Proof. by destruct g. Qed.

Lemma keydown_set key g :
  GameEvents.keydown key g
  = GameEvents.set_input g (Game.input (GameEvents.keydown key g)).
Proof.
  unfold GameEvents.keydown.
  repeat case_bool_decide; cbn [GameEvents.set_input Game.input];
    by rewrite ?set_input_id.
Qed.

Lemma keyup_set key g :
  GameEvents.keyup key g
  = GameEvents.set_input g (Game.input (GameEvents.keyup key g)).
Proof.
  unfold GameEvents.keyup.
  repeat case_bool_decide; cbn; by rewrite ?set_input_id.
Qed.

Lemma deviceorientation_set gamma beta g :
  GameEvents.deviceorientation gamma beta g
  = GameEvents.set_input g (Game.input (GameEvents.deviceorientation gamma beta g)).
Proof.
  unfold GameEvents.deviceorientation.
  case_bool_decide; cbn [GameEvents.set_input Game.input];
    by rewrite ?set_input_id.
Qed.

Lemma set_input_started g i :
  started g -> input_bounded i ->
  started (GameEvents.set_input g i) /\
  Game.cols (GameEvents.set_input g i) = Game.cols g /\
  Game.rows (GameEvents.set_input g i) = Game.rows g /\
  Game.cellSize (GameEvents.set_input g i) = Game.cellSize g /\
  Game.maze (GameEvents.set_input g i) = Game.maze g /\
  Game.startTime (GameEvents.set_input g i) = Game.startTime g.
Proof.
  intros [] Hi. split; [by split|]. by cbn.
Qed.

Lemma handle_started (g : Game.t) (e : GameEvents.Event) :
  started g ->
  exists g',
    GameEvents.handle g e = Ok g' /\ started g' /\
    Game.cols g' = Game.cols g /\ Game.rows g' = Game.rows g /\
    Game.cellSize g' = Game.cellSize g /\
    (is_retry e = false ->
       Game.maze g' = Game.maze g /\ Game.startTime g' = Game.startTime g).
Proof.
  intros [[Hc Hoc] [Hr Hor] Hcs Hst (m & Hm & Hex & Hmc & Hmr)
          (b & Hb & Hrad & Hsp) Hin].
  destruct e as [rnd now|now|key|key|gamma beta]; cbn [GameEvents.handle is_retry].
  - destruct (startGame_ok rnd now g Hoc Hor Hc Hr Hcs)
      as (m' & E & Hex' & Hc' & Hr' & Es).
    eexists. split; [exact Es|]. split; [|by cbn].
    split; cbn; try done.
    + eauto 10.
    + eexists. split; [done|]. split; [done|]. unfold speedSq. cbn. lra.
    + unfold input_bounded. cbn. lra.
  - destruct (decide (Game.state g = Game.PLAYING)) as [Hs|Hs].
    + assert (Hcs0 : Game.cellSize g <> 0) by lra.
      destruct (loop_playing now g m b Hs Hm Hb Hex Hcs0) as (b' & Ecc & Eloop).
      destruct (checkCollision_speed m
                  (Ball.update (Game.ix (Game.input g) * CFG.acceleration)
                               (Game.iy (Game.input g) * CFG.acceleration) b)
                  (Game.cellSize g) Hcs0 Hex) as (b'' & Ecc' & Hr'' & Hs'').
      rewrite Ecc in Ecc'. injection Ecc' as <-.
      pose proof (update_speed (Game.input g) b Hin Hsp) as Hup.
      eexists. split; [exact Eloop|]. cbn zeta.
      case_bool_decide; cbn; (split; [|done]); split; cbn; try done.
      * eauto 10.
      * eexists. split; [done|]. split; [by rewrite Hr''|lra].
      * eauto 10.
      * eexists. split; [done|]. split; [by rewrite Hr''|lra].
    + rewrite loop_not_playing by done. eexists. split; [done|].
      split; [|done]. split; eauto 10.
  - rewrite keydown_set. eexists. split; [done|].
    destruct (set_input_started g (Game.input (GameEvents.keydown key g)))
      as (H1 & H2 & H3 & H4 & H5); [split; eauto 10|by apply keydown_input|].
    auto.
  - rewrite keyup_set. eexists. split; [done|].
    destruct (set_input_started g (Game.input (GameEvents.keyup key g)))
      as (H1 & H2 & H3 & H4 & H5); [split; eauto 10|by apply keyup_input|].
    auto.
  - rewrite deviceorientation_set. eexists. split; [done|].
    destruct (set_input_started g
                (Game.input (GameEvents.deviceorientation gamma beta g)))
      as (H1 & H2 & H3 & H4 & H5); [split; eauto 10| |auto].
    destruct (decide (Game.state g = Game.PLAYING)) as [Hs|Hs].
    + rewrite deviceorientation_input by done. split; apply clamp_bounds.
    + unfold GameEvents.deviceorientation. by rewrite bool_decide_eq_true_2.
Qed.

(** X12.  A started game is safe under every sequence of events (retries,
    frames, keys, tilts): no event throws, and after each one the game is
    still a started game, with the same grid dimensions and cell size, a
    maze of these dimensions, a ball of the radius it was given, every input
    component within [-1, 1] and a speed of at most 12 * sqrt 2.  Without a
    retry the maze and the start time are the ones the sequence began
    with. *)
Theorem session_safe (events : list GameEvents.Event) (g : Game.t) :
  started g ->
  exists g',
    GameEvents.run events g = Ok g' /\ started g' /\
    Game.cols g' = Game.cols g /\ Game.rows g' = Game.rows g /\
    Game.cellSize g' = Game.cellSize g /\
    (forallb (fun e => negb (is_retry e)) events = true ->
       Game.maze g' = Game.maze g /\ Game.startTime g' = Game.startTime g).
Proof.
  revert g. induction events as [|e events IH]; intros g Hg.
  - exists g. by cbn.
  - destruct (handle_started g e Hg) as (g1 & E1 & Hg1 & Hc1 & Hr1 & Hs1 & Hm1).
    destruct (IH g1 Hg1) as (g' & E & Hg' & Hc & Hr & Hs & Hm).
    exists g'. unfold GameEvents.run in *. cbn [foldM]. rewrite E1.
    cbn [mbind result_bind]. split; [done|]. split; [done|].
    split; [congruence|]. split; [congruence|]. split; [congruence|].
    cbn [forallb]. intros Hno. apply andb_prop in Hno as [He Hev].
    destruct (Hm Hev) as [-> ->]. apply Hm1. by destruct (is_retry e).
Qed.

Lemma game_started_ok : started game_started.
Proof.
  split; cbn; try done.
  - lra.
  - exists maze5x3. split; [done|]. split; [|done].
    intros r Hr. simpl in Hr.
    assert (r = 0 \/ r = 1 \/ r = 2)%Z as [-> | [-> | ->]] by lia;
      vm_compute; eauto.
  - eexists. split; [done|]. split; [done|]. unfold speedSq. cbn. lra.
  - unfold input_bounded. cbn. lra.
Qed.

Lemma session_safe_witness :
  started game_started /\
  exists g',
    GameEvents.run
      [GameEvents.KeyDown "ArrowRight"; GameEvents.Frame (fun k => (1016 + Z.of_nat k)%Z);
       GameEvents.DeviceOrientation 10 (-45);
       GameEvents.Frame (fun k => (1032 + Z.of_nat k)%Z);
       GameEvents.KeyUp "ArrowRight";
       GameEvents.Retry (fun k => k) (fun k => (5000 + Z.of_nat k)%Z);
       GameEvents.Frame (fun k => (5016 + Z.of_nat k)%Z)]
      game_started = Ok g' /\
    started g'.
Proof.
  split; [exact game_started_ok|].
  destruct (session_safe
    [GameEvents.KeyDown "ArrowRight"; GameEvents.Frame (fun k => (1016 + Z.of_nat k)%Z);
     GameEvents.DeviceOrientation 10 (-45);
     GameEvents.Frame (fun k => (1032 + Z.of_nat k)%Z);
     GameEvents.KeyUp "ArrowRight";
     GameEvents.Retry (fun k => k) (fun k => (5000 + Z.of_nat k)%Z);
     GameEvents.Frame (fun k => (5016 + Z.of_nat k)%Z)]
    game_started game_started_ok) as (g' & E & Hs & _).
  exists g'. split; [exact E|exact Hs].
Defined.

End SessionSafety.

(** ** Sizing the grid *)

Section Viewport.
#[local] Open Scope Z_scope.

Lemma new_no_row1 rnd cols rows : rows <= 1 -> Maze.new rnd cols rows = TypeError.
Proof.
  intros Hr. unfold Maze.new, Maze.generate, Maze.grid_set.
  cbn [Maze.set_grid Maze.grid Maze.rows Maze.cols].
  rewrite init_grid_rows. rewrite decide_False by lia.
  by rewrite lookup_empty.
Qed.

Lemma make_odd (n : Z) :
  let n' := if Z.rem n 2 =? 0 then n - 1 else n in
  Z.odd n' = true /\ n - 1 <= n' <= n.
Proof.
  cbn zeta. pose proof (Zmod_odd n) as Ho. pose proof (Zmod_odd (n - 1)) as Ho'.
  destruct (Z.eqb_spec (Z.rem n 2) 0) as [E|E].
  - split; [|lia]. destruct (Z.odd (n - 1)); [done|]. exfalso. zlia.
  - split; [|lia]. destruct (Z.odd n); [done|]. exfalso. zlia.
Qed.

Lemma resize_spec W H this :
  15 <= W -> 0 <= H ->
  let cs := W / 15 in
  exists cols rows,
    GameEvents.resize W H this
    = Some (Game.mk (Game.state this) (Game.startTime this) (Game.input this)
              (IZR cs) cols rows (Game.maze this) (Game.ball this)
              (Game.timer this) (Game.finalTime this)) /\
    1 <= cs /\
    Z.odd cols = true /\ Z.odd rows = true /\
    15 <= cols /\ W / cs - 1 <= cols <= W / cs /\ H / cs - 1 <= rows <= H / cs /\
    cs * (W / cs) <= W < cs * (W / cs + 1) /\
    cs * (H / cs) <= H < cs * (H / cs + 1).
Proof.
  intros HW HH cs.
  assert (Hcs : 1 <= cs) by (unfold cs; zlia).
  unfold GameEvents.resize. cbn zeta. fold cs.
  rewrite (proj2 (Z.eqb_neq cs 0)) by lia.
  pose proof (make_odd (W / cs)) as [Hoc Hbc].
  pose proof (make_odd (H / cs)) as [Hor Hbr].
  eexists _, _. split; [reflexivity|].
  assert (H15 : 15 <= W / cs).
  { apply Z.div_le_lower_bound; [lia|]. unfold cs. zlia. }
  pose proof (Z.mul_div_le W cs ltac:(lia)).
  pose proof (Z.mul_succ_div_gt W cs ltac:(lia)).
  pose proof (Z.mul_div_le H cs ltac:(lia)).
  pose proof (Z.mul_succ_div_gt H cs ltac:(lia)).
  repeat split; try done; try lia.
  (* an even quotient of at least 15 is at least 16 *)
  pose proof (Zmod_odd (W / cs - 1)) as Ho.
  destruct (Z.eqb_spec (Z.rem (W / cs) 2) 0) as [E|E]; [|lia].
  assert (W / cs <> 15) by (intros E15; rewrite E15 in E; done). lia.
Qed.

(** X13.  [resize], for a window at least 15 pixels wide: the cell size is
    the width divided by 15, rounded down, and is at least 1; the numbers of
    columns and of rows are odd, with at least 15 columns; the grid fits in
    the window and leaves less than two cells uncovered on each axis; the
    state, the maze and the ball are untouched. *)
Theorem resize_dims (W H : Z) (this : Game.t) :
  15 <= W -> 0 <= H ->
  exists g,
    GameEvents.resize W H this = Some g /\
    Game.cellSize g = IZR (W / 15) /\ 1 <= W / 15 /\
    Z.odd (Game.cols g) = true /\ Z.odd (Game.rows g) = true /\
    15 <= Game.cols g /\
    Game.cols g * (W / 15) <= W < (Game.cols g + 2) * (W / 15) /\
    Game.rows g * (W / 15) <= H < (Game.rows g + 2) * (W / 15) /\
    Game.state g = Game.state this /\ Game.maze g = Game.maze this /\
    Game.ball g = Game.ball this /\ Game.input g = Game.input this.
Proof.
  intros HW HH.
  destruct (resize_spec W H this HW HH)
    as (cols & rows & E & Hcs & Hoc & Hor & H15 & Hc & Hr & HWb & HHb).
  eexists. split; [exact E|]. cbn.
  repeat split; try done; nia.
Qed.

Lemma resize_dims_witness :
  15 <= 390 /\ 0 <= 844 /\
  exists g,
    GameEvents.resize 390 844 game_idle = Some g /\
    Z.odd (Game.cols g) = true /\ Z.odd (Game.rows g) = true /\
    15 <= Game.cols g.
Proof.
  split; [lia|]. split; [lia|].
  destruct (resize_dims 390 844 game_idle) as (g & E & _ & _ & H1 & H2 & H3 & _);
    [lia|lia|].
  exists g. split; [exact E|]. split; [exact H1|]. split; [exact H2|exact H3].
Defined.

(** X14.  Starting after [resize], for a window at least 15 pixels wide.
    When the window is lower than three cells the grid has at most one row
    and [startGame] throws: the constructor writes to a row that does not
    exist.  From three cells of height on, [startGame] returns a started
    game in the PLAYING state. *)
Theorem start_after_resize (W H : Z) (rnd : nat -> nat) (now : nat -> Z)
    (this : Game.t) :
  15 <= W -> 0 <= H ->
  exists g,
    GameEvents.resize W H this = Some g /\
    (H < 3 * (W / 15) -> Game.startGame rnd now g = TypeError) /\
    (3 * (W / 15) <= H ->
       exists g', Game.startGame rnd now g = Ok g' /\
                  Game.state g' = Game.PLAYING /\ started g').
Proof.
  intros HW HH.
  destruct (resize_spec W H this HW HH)
    as (cols & rows & E & Hcs & Hoc & Hor & H15 & Hc & Hr & HWb & HHb).
  eexists. split; [exact E|]. split.
  - intros Hlow. unfold Game.startGame. cbn [Game.cols Game.rows].
    rewrite new_no_row1; [done|].
    assert (H / (W / 15) < 3) by (apply Z.div_lt_upper_bound; lia).
    assert (rows <> 2) by (intros ->; done). lia.
  - intros Hhigh.
    assert (3 <= H / (W / 15)) by (apply Z.div_le_lower_bound; lia).
    assert (rows <> 2) by (intros ->; done).
    set (g := Game.mk _ _ _ _ _ _ _ _ _ _).
    destruct (startGame_ok rnd now g) as (m & Em & Hex & Hmc & Hmr & Es);
      cbn [g Game.cols Game.rows Game.cellSize]; try done; try lia.
    { change (IZR 0 < IZR (W / 15))%R. apply IZR_lt. lia. }
    eexists. split; [exact Es|]. split; [done|].
    split; cbn; try done; try (split; [lia|done]).
    + change (IZR 0 < IZR (W / 15))%R. apply IZR_lt. lia.
    + eauto 10.
    + eexists. split; [done|]. split; [done|]. unfold speedSq. cbn.
      apply Rle_trans with 0%R; [right; ring|lra].
    + unfold input_bounded. cbn. split; lra.
Qed.

Lemma start_after_resize_witness :
  15 <= 800 /\ 0 <= 100 /\
  exists g,
    GameEvents.resize 800 100 game_idle = Some g /\
    Game.startGame (fun k => k) (fun k => Z.of_nat k) g = TypeError.
Proof.
  split; [lia|]. split; [lia|].
  destruct (start_after_resize 800 100 (fun k => k) (fun k => Z.of_nat k) game_idle)
    as (g & E & Hlow & _); [lia|lia|].
  exists g. split; [exact E|]. apply Hlow. reflexivity.
Defined.

End Viewport.

(** The sample maze of 5 x 3 cells is the one the constructor returns. *)
Example new_5_3 : Maze.new (fun k => k) 5 3 = Ok maze5x3.
Proof. vm_compute. reflexivity. Qed.
